(** * Treasuretto account security: TOTP engine, rate limiter, lockout
      tracker, session cap and the two-factor gate

    A shallow embedding of the security-relevant TypeScript of the
    repository:

    - [lib/totp] (Base32 codec and the [TOTP] class),
    - [lib/security.ts] and [lib/advanced-security.ts] (rate limiter and the
      request pipeline of [AdvancedSecurityMiddleware.handle]),
    - the [EnhancedAuthMiddleware] class (lockout records, session cap),
    - [middleware.ts] (two-factor enforcement by cookie),
    - [app/api/2fa/verify-backup/route.ts] (backup code consumption).

    Conventions of the embedding.

    - A JavaScript number that holds an integer is a [Z]; the 32-bit
      operators [<<], [>>>], [|], [&] are written out with their wrap-around
      ([ToInt32], [ToUint32]).
    - A [Buffer] is a [list Z] whose elements are bytes ([is_byte]).
    - A JavaScript string is a Rocq [string], a sequence of the characters
      U+0000 to U+00FF (an [ascii] is read as the code point of its number);
      loops over its characters run over [list ascii].  On this range
      [toLowerCase], the white space of [\s] and of [trim] (which counts
      U+00A0) and [toUpperCase] follow Unicode: the upper-case form of
      U+00DF is the two characters [SS].  Two letters, U+00B5 and U+00FF,
      have their capital outside the range (U+039C and U+0178);
      [JS.upper_char] leaves them in place, which stands for their capital
      wherever the result is only compared with upper-cased text or looked
      up in the Base32 alphabet, and the statements of when an arbitrary
      text is accepted against stored text say [JS.capitalsInRange].
    - Division is exact: [Math.floor(ms / 1000 / 30)] and
      [Math.ceil(ms / 1000)] are the floor and the ceiling of the rational
      quotient.  That is what the double arithmetic of JavaScript gives for
      a non-negative integer number of milliseconds below 2^53, which covers
      every value of [Date.now()]; from 2^53 upward the two differ, and a
      statement about a time the caller supplies bounds it by 2^53.
    - [Date.now()] is an explicit argument [clock] (milliseconds).
    - A thrown exception is [None] in an [option] result.
    - A Supabase table keyed by [user_id] is a [gmap string _]; a table that
      is queried by filter and order is a [list] of rows. *)

From Stdlib Require Import ZArith List String Ascii Lia Bool.
From Stdlib Require Import QArith Qround.
From Stdlib Require Import Permutation Sorted.
From stdpp Require Import gmap strings sorting.

Close Scope Q_scope.
Open Scope Z_scope.

(** ** JavaScript primitives *)

Module JS.

(** ToInt32 and ToUint32 of ECMAScript, on integers. *)
Definition ToInt32 (x : Z) : Z := (x + 2 ^ 31) mod 2 ^ 32 - 2 ^ 31.
Definition ToUint32 (x : Z) : Z := x mod 2 ^ 32.

(** [a << n]: both operands go through ToInt32/ToUint32, the shift count is
    taken modulo 32 and the result is an int32 again. *)
Definition shl (a n : Z) : Z :=
  ToInt32 (Z.shiftl (ToInt32 a) (ToUint32 n mod 32)).

(** [a >>> n]: unsigned right shift. *)
Definition ushr (a n : Z) : Z :=
  Z.shiftr (ToUint32 a) (ToUint32 n mod 32).

(** [a | b] and [a & b]. *)
Definition bor (a b : Z) : Z := Z.lor (ToInt32 a) (ToInt32 b).
Definition band (a b : Z) : Z := Z.land (ToInt32 a) (ToInt32 b).

(** [a % b] of JavaScript truncates towards zero. *)
Definition rem (a b : Z) : Z := Z.rem a b.

(** [Math.ceil (a / b)] for integers [a] and [b > 0]. *)
Definition ceil_div (a b : Z) : Z := - ((- a) / b).

(** [Math.floor] of a rational. *)
Definition floor (q : Q) : Z := Qfloor q.

(** [x || y] on numbers: [0] is falsy, [undefined] is [None]. *)
Definition num_or (x : option Z) (y : Z) : Z :=
  match x with
  | Some v => if v =? 0 then y else v
  | None => y
  end.

(** [String.prototype.toUpperCase] and [toLowerCase] on the characters
    U+0000 to U+00FF.  The letters with a capital are [a] to [z] and U+00E0
    to U+00FE without the division sign U+00F7, each 32 above its capital;
    U+00DF has the two-character capital [SS]; the capitals of U+00B5 and
    U+00FF are U+039C and U+0178, outside the range, and [upper_char] keeps
    the two letters ([capitalInRange] tells them apart). *)
Definition upper_char (c : ascii) : ascii :=
  let n := nat_of_ascii c in
  if ((97 <=? n) && (n <=? 122))%nat then ascii_of_nat (n - 32)
  else if ((224 <=? n) && (n <=? 254) && negb (n =? 247))%nat
       then ascii_of_nat (n - 32)
       else c.

Definition upper_chars (c : ascii) : list ascii :=
  if (nat_of_ascii c =? 223)%nat then ["S"; "S"]%char else [upper_char c].

Definition lower_char (c : ascii) : ascii :=
  let n := nat_of_ascii c in
  if ((65 <=? n) && (n <=? 90))%nat then ascii_of_nat (n + 32)
  else if ((192 <=? n) && (n <=? 222) && negb (n =? 215))%nat
       then ascii_of_nat (n + 32)
       else c.

Definition toUpperCase (s : string) : string :=
  string_of_list_ascii (flat_map upper_chars (list_ascii_of_string s)).

Definition toLowerCase (s : string) : string :=
  string_of_list_ascii (map lower_char (list_ascii_of_string s)).

Definition capitalInRange (c : ascii) : bool :=
  let n := nat_of_ascii c in negb ((n =? 181) || (n =? 255))%nat.

(** The text holds neither U+00B5 nor U+00FF: [toUpperCase] of it is the
    very text JavaScript computes. *)
Definition capitalsInRange (s : string) : Prop :=
  Forall (fun c => capitalInRange c = true) (list_ascii_of_string s).

(** The members of the regular expression class [\s] (and the characters
    [trim] removes) among U+0000 to U+00FF: TAB, LF, VT, FF, CR, space and
    the no-break space U+00A0. *)
Definition is_space (c : ascii) : bool :=
  let n := nat_of_ascii c in
  ((9 <=? n) && (n <=? 13) || (n =? 32) || (n =? 160))%nat.

(** [s.replace(/\s/g, '')]. *)
Definition strip_spaces (s : string) : string :=
  string_of_list_ascii
    (List.filter (fun c => negb (is_space c)) (list_ascii_of_string s)).

(** [s.replace(/=+$/g, '')]: the maximal run of ['='] that ends the string
    is removed. *)
Definition strip_trailing_eq (l : list ascii) : list ascii :=
  fold_right
    (fun c acc =>
       match acc with
       | [] => if Ascii.eqb c "="%char then [] else [c]
       | _ => c :: acc
       end) [] l.

(** [s.indexOf(c)] for a one-character [c]; [-1] when absent. *)
Fixpoint indexOf_from (i : Z) (l : list ascii) (c : ascii) : Z :=
  match l with
  | [] => -1
  | d :: l' => if Ascii.eqb d c then i else indexOf_from (i + 1) l' c
  end.

Definition indexOf (s : string) (c : ascii) : Z :=
  indexOf_from 0 (list_ascii_of_string s) c.

(** [Number.prototype.toString] on a non-negative integer: its decimal
    digits, most significant first. *)
Definition digit_char (d : Z) : ascii := ascii_of_nat (48 + Z.to_nat d).

Fixpoint digits_acc (fuel : nat) (n : Z) (acc : list ascii) : list ascii :=
  match fuel with
  | O => acc
  | S f =>
      let acc' := digit_char (n mod 10) :: acc in
      if n <? 10 then acc' else digits_acc f (n / 10) acc'
  end.

Definition toString (n : Z) : string :=
  string_of_list_ascii (digits_acc (S (Z.to_nat (Z.log2 n))) n []).

(** [s.padStart(len, c)] with a one-character filler. *)
Definition padStart (len : nat) (c : ascii) (s : string) : string :=
  string_of_list_ascii
    (repeat c (len - String.length s) ++ list_ascii_of_string s).

End JS.

(** ** Base32 codec (lib/totp) *)

Definition is_byte (b : Z) : Prop := 0 <= b < 256.

Module Base32.
Import JS.

Definition BASE32_ALPHABET : string := "ABCDEFGHIJKLMNOPQRSTUVWXYZ234567".

(** [BASE32_ALPHABET[i]]; every index the codec uses is masked to 0..31, so
    the filler for an index out of range is never produced. *)
Definition alphabet_at (i : Z) : ascii :=
  nth (Z.to_nat i) (list_ascii_of_string BASE32_ALPHABET) "?"%char.

(** The inner [while (bits >= 5)] of [base32Encode]. *)
Fixpoint encode_while (fuel : nat) (value bits : Z) (output : list ascii)
  : Z * list ascii :=
  match fuel with
  | O => (bits, output)
  | S f =>
      if 5 <=? bits then
        encode_while f value (bits - 5)
          (output ++ [alphabet_at (band (ushr value (bits - 5)) 31)])
      else (bits, output)
  end.

(** One turn of the [for] loop of [base32Encode]. *)
Definition encode_step (st : Z * Z * list ascii) (byte : Z)
  : Z * Z * list ascii :=
  let '(bits, value, output) := st in
  let value := bor (shl value 8) byte in
  let bits := bits + 8 in
  let '(bits, output) := encode_while (Z.to_nat bits) value bits output in
  (bits, value, output).

Definition base32Encode (buffer : list Z) : string :=
  let '(bits, value, output) := fold_left encode_step buffer (0, 0, []) in
  let output :=
    if 0 <? bits
    then output ++ [alphabet_at (band (shl value (5 - bits)) 31)]
    else output in
  string_of_list_ascii output.

(** One turn of the [for] loop of [base32Decode]. *)
Definition decode_step (st : Z * Z * list Z) (c : ascii) : Z * Z * list Z :=
  let '(bits, value, bytes) := st in
  let idx := indexOf BASE32_ALPHABET c in
  if idx =? -1 then st
  else
    let value := bor (shl value 5) idx in
    let bits := bits + 5 in
    if 8 <=? bits
    then (bits - 8, value, bytes ++ [band (ushr value (bits - 8)) 255])
    else (bits, value, bytes).

Definition decode_chars (cleaned : list ascii) : list Z :=
  snd (fold_left decode_step cleaned (0, 0, [])).

Definition base32Decode (input : string) : list Z :=
  let cleaned :=
    strip_trailing_eq (list_ascii_of_string (toUpperCase input)) in
  decode_chars cleaned.

End Base32.

(** ** HMAC-SHA1 of the Node [crypto] module

    [crypto.createHmac('sha1', key).update(buffer).digest()] is platform
    code; it is written out here after FIPS 180-4 (SHA-1) and RFC 2104
    (HMAC) so that the engine can be evaluated on the published vectors. *)

Module Crypto.

Definition w32 (x : Z) : Z := x mod 2 ^ 32.

Definition rotl (n x : Z) : Z :=
  w32 (Z.lor (Z.shiftl x n) (Z.shiftr x (32 - n))).

Definition be_bytes (n : nat) (x : Z) : list Z :=
  map (fun k => Z.shiftr x (8 * Z.of_nat k) mod 256) (rev (seq 0 n)).

Definition be_word (l : list Z) : Z :=
  fold_left (fun acc b => acc * 256 + b) l 0.

Definition sha1_pad (msg : list Z) : list Z :=
  let len := Z.of_nat (length msg) in
  let zeros := Z.to_nat ((55 - len) mod 64) in
  msg ++ [128] ++ repeat 0 zeros ++ be_bytes 8 (8 * len).

Fixpoint chunks (fuel : nat) (size : nat) (l : list Z) : list (list Z) :=
  match fuel with
  | O => []
  | S f =>
      match l with
      | [] => []
      | _ => firstn size l :: chunks f size (skipn size l)
      end
  end.

Definition sha1_f (t b c d : Z) : Z :=
  if t <? 20 then Z.lor (Z.land b c) (Z.land (w32 (Z.lnot b)) d)
  else if t <? 40 then Z.lxor (Z.lxor b c) d
  else if t <? 60 then Z.lor (Z.lor (Z.land b c) (Z.land b d)) (Z.land c d)
  else Z.lxor (Z.lxor b c) d.

Definition sha1_k (t : Z) : Z :=
  if t <? 20 then 1518500249
  else if t <? 40 then 1859775393
  else if t <? 60 then 2400959708
  else 3395469782.

Definition sha1_state : Type := Z * Z * Z * Z * Z.

(** [n] rounds from round [t]; [w] is the window W[t..t+15] of the message
    schedule. *)
Fixpoint sha1_rounds (n : nat) (t : Z) (w : list Z) (s : sha1_state)
  : sha1_state :=
  match n with
  | O => s
  | S n' =>
      let '(a, b, c, d, e) := s in
      let wt := nth 0 w 0 in
      let next :=
        rotl 1 (Z.lxor (Z.lxor (Z.lxor (nth 13 w 0) (nth 8 w 0)) (nth 2 w 0)) wt) in
      let temp := w32 (rotl 5 a + sha1_f t b c d + e + sha1_k t + wt) in
      sha1_rounds n' (t + 1) (tl w ++ [next]) (temp, a, rotl 30 b, c, d)
  end.

Definition sha1_block (s : sha1_state) (block : list Z) : sha1_state :=
  let '(h0, h1, h2, h3, h4) := s in
  let w := map be_word (chunks 16 4 block) in
  let '(a, b, c, d, e) := sha1_rounds 80 0 w s in
  (w32 (h0 + a), w32 (h1 + b), w32 (h2 + c), w32 (h3 + d), w32 (h4 + e)).

Definition sha1 (msg : list Z) : list Z :=
  let padded := sha1_pad msg in
  let '(h0, h1, h2, h3, h4) :=
    fold_left sha1_block (chunks (length padded) 64 padded)
      (1732584193, 4023233417, 2562383102, 271733878, 3285377520) in
  be_bytes 4 h0 ++ be_bytes 4 h1 ++ be_bytes 4 h2 ++ be_bytes 4 h3
    ++ be_bytes 4 h4.

Definition hmac_sha1 (key msg : list Z) : list Z :=
  let key := if (64 <? length key)%nat then sha1 key else key in
  let key := key ++ repeat 0 (64 - length key) in
  let ipad := map (Z.lxor 54) key in
  let opad := map (Z.lxor 92) key in
  sha1 (opad ++ sha1 (ipad ++ msg)).

End Crypto.

(** ** The TOTP class (lib/totp) *)

Module TOTP.
Import JS.

Definition DIGITS : Z := 6.
Definition PERIOD : Z := 30.

(** [buffer.writeBigUInt64BE(BigInt(counter), 0)] on [Buffer.alloc(8)]:
    a [RangeError] unless [0 <= counter < 2^64]. *)
Definition writeBigUInt64BE (counter : Z) : option (list Z) :=
  if (0 <=? counter) && (counter <? 2 ^ 64)
  then Some (Crypto.be_bytes 8 counter)
  else None.

(** [hash[i]]; an index past the end reads [undefined], which the bit
    operators turn into 0. *)
Definition at_ (hash : list Z) (i : Z) : Z := nth (Z.to_nat i) hash 0.

(** [(code % Math.pow(10, DIGITS)).toString().padStart(DIGITS, '0')]. *)
Definition renderCode (code : Z) : string :=
  padStart (Z.to_nat DIGITS) "0"%char (toString (rem code (10 ^ DIGITS))).

(** The [offset] and [code] lines of [generateCodeForCounter]. *)
Definition truncate (hash : list Z) : Z :=
  let offset := band (at_ hash (Z.of_nat (length hash) - 1)) 15 in
  bor (bor (bor (shl (band (at_ hash offset) 127) 24)
                (shl (band (at_ hash (offset + 1)) 255) 16))
           (shl (band (at_ hash (offset + 2)) 255) 8))
      (band (at_ hash (offset + 3)) 255).

Definition generateCodeForCounter (secret : string) (counter : Z)
  : option string :=
  match writeBigUInt64BE counter with
  | None => None
  | Some buffer =>
      let key := Base32.base32Decode secret in
      let hash := Crypto.hmac_sha1 key buffer in
      Some (renderCode (truncate hash))
  end.

(** [Math.floor(ms / 1000 / this.PERIOD)], as the exact floor of the
    quotient: the value of the double arithmetic for an integer [ms] with
    [0 <= ms < 2^53] (every value of [Date.now()] is one).  From 2^53 upward
    the doubles round differently, and the statements about a time the
    caller supplies keep below that. *)
Definition counterOf (ms : Z) : Z :=
  floor (inject_Z ms / inject_Z 1000 / inject_Z PERIOD)%Q.

(** [generateCode(secret, time?)]; [clock] is what [Date.now()] returns. *)
Definition generateCode (clock : Z) (secret : string) (time : option Z)
  : option string :=
  generateCodeForCounter secret (counterOf (num_or time clock)).

(** The [for (let i = -tolerance; i <= tolerance; i++)] loop of
    [verifyCode], [n] turns from index [i]. *)
Fixpoint verify_loop (n : nat) (secret code : string) (now i : Z)
  : option bool :=
  match n with
  | O => Some false
  | S n' =>
      match generateCodeForCounter secret (now + i) with
      | None => None
      | Some expectedCode =>
          if String.eqb expectedCode code then Some true
          else verify_loop n' secret code now (i + 1)
      end
  end.

Definition verifyCode (clock : Z) (secret code : string) (tolerance : Z)
  : option bool :=
  let now := counterOf clock in
  verify_loop (Z.to_nat (tolerance - (- tolerance) + 1)) secret code now
    (- tolerance).

(** [storedCodes.includes(normalizedCode)]. *)
Definition includes (l : list string) (x : string) : bool :=
  existsb (String.eqb x) l.

Definition verifyBackupCode (providedCode : string)
  (storedCodes : list string) : bool :=
  let normalizedCode := strip_spaces (toUpperCase providedCode) in
  includes storedCodes normalizedCode.

End TOTP.

(** ** Backup code consumption (app/api/2fa/verify-backup/route.ts) *)

Module BackupRoute.
Import JS.

Inductive response : Type :=
| Unauthorized401
| InvalidBackupCode400
| NotInitialized400
| NotValid200
| Valid200.

(** [backup_codes.filter(c => c !== code.toUpperCase())], the removal both
    the route and [EnhancedAuthMiddleware.verify2FA] perform. *)
Definition removeUsed (code : string) (backup_codes : list string)
  : list string :=
  List.filter (fun c => negb (String.eqb c (toUpperCase code))) backup_codes.

(** [POST]: [user] is the signed-in account, [code] the [body.code] field
    ([None] when absent or not a string), [twoFA] the stored backup codes
    of the account's [two_factor_auth] row.  The result carries the stored
    codes after the request. *)
Definition POST (user : option string) (code : option string)
  (twoFA : option (list string)) : response * option (list string) :=
  match user with
  | None => (Unauthorized401, twoFA)
  | Some _ =>
      match code with
      | None => (InvalidBackupCode400, twoFA)
      | Some code =>
          if negb (String.length code =? 8)%nat
          then (InvalidBackupCode400, twoFA)
          else
            match twoFA with
            | None => (NotInitialized400, twoFA)
            | Some backup_codes =>
                if negb (TOTP.verifyBackupCode code backup_codes)
                then (NotValid200, twoFA)
                else (Valid200, Some (removeUsed code backup_codes))
            end
      end
  end.

End BackupRoute.

(** ** Rate limiter (lib/security.ts, lib/advanced-security.ts) *)

Module RateLimit.
Import JS.

Record entry : Type := { count : Z; resetTime : Z }.

Record rateLimitConfig : Type :=
  { windowMs : option Z; maxRequests : option Z }.

Definition RATE_LIMIT_CONFIG_windowMs : Z := 60 * 1000.
Definition RATE_LIMIT_CONFIG_maxRequests : Z := 100.

(** [this.config.rateLimit?.windowMs || RATE_LIMIT_CONFIG.windowMs]. *)
Definition effectiveWindowMs (cfg : option rateLimitConfig) : Z :=
  num_or (match cfg with Some c => windowMs c | None => None end)
    RATE_LIMIT_CONFIG_windowMs.

Definition effectiveMaxRequests (cfg : option rateLimitConfig) : Z :=
  num_or (match cfg with Some c => maxRequests c | None => None end)
    RATE_LIMIT_CONFIG_maxRequests.

(** [`${clientIp}:${endpoint}`]. *)
Definition rateKey (clientIp endpoint : string) : string :=
  (clientIp ++ ":" ++ endpoint)%string.

Record result : Type :=
  { allowed : bool; retryAfter : option Z; remaining : option Z }.

End RateLimit.

Module Security.
Import JS RateLimit.

(** [SecurityMiddleware.checkRateLimit]; [store] is the module-level
    [rateLimitStore], [now] is [Date.now()].  This variant reports no
    [remaining]. *)
Definition checkRateLimit (cfg : option rateLimitConfig) (now : Z)
  (key : string) (store : gmap string entry) : result * gmap string entry :=
  let windowMs := effectiveWindowMs cfg in
  let maxRequests := effectiveMaxRequests cfg in
  let fresh :=
    ({| allowed := true; retryAfter := None; remaining := None |},
     <[key := {| count := 1; resetTime := now + windowMs |}]> store) in
  match store !! key with
  | None => fresh
  | Some current =>
      if now >? resetTime current then fresh
      else if count current >=? maxRequests then
        ({| allowed := false;
            retryAfter := Some (ceil_div (resetTime current - now) 1000);
            remaining := None |}, store)
      else
        ({| allowed := true; retryAfter := None; remaining := None |},
         <[key := {| count := count current + 1;
                     resetTime := resetTime current |}]> store)
  end.

End Security.

Module AdvancedSecurity.
Import JS RateLimit.

(** [AdvancedSecurityMiddleware.checkRateLimit]. *)
Definition checkRateLimit (cfg : option rateLimitConfig) (now : Z)
  (key : string) (store : gmap string entry) : result * gmap string entry :=
  let windowMs := effectiveWindowMs cfg in
  let maxRequests := effectiveMaxRequests cfg in
  let fresh :=
    ({| allowed := true; retryAfter := None;
        remaining := Some (maxRequests - 1) |},
     <[key := {| count := 1; resetTime := now + windowMs |}]> store) in
  match store !! key with
  | None => fresh
  | Some current =>
      if now >? resetTime current then fresh
      else if count current >=? maxRequests then
        ({| allowed := false;
            retryAfter := Some (ceil_div (resetTime current - now) 1000);
            remaining := Some 0 |}, store)
      else
        let count' := count current + 1 in
        ({| allowed := true; retryAfter := None;
            remaining := Some (maxRequests - count') |},
         <[key := {| count := count'; resetTime := resetTime current |}]>
           store)
  end.

Record SecurityConfig : Type :=
  { requireAuth : bool;
    requireSubscription : bool;
    require2FA : bool;
    rateLimit : option rateLimitConfig;
    validateInput : bool;
    logSecurityEvents : bool }.

(** What a request carries and what the collaborators answer for it:
    [authUser] is the user [checkAuthentication] finds, [twoFactorRow] the
    [is_enabled] column of the account's [two_factor_auth] row ([None]: no
    row, or the query failed), [validationErrors] the list [validateInput]
    collects.  [cookieTwoFactorOk] and [submittedCode] are the "2FA
    satisfied" marker cookie and a code sent with the request. *)
Record Request : Type :=
  { clientIP : string;
    pathname : string;
    cookieTwoFactorOk : option string;
    submittedCode : option string;
    authUser : option string;
    twoFactorRow : option bool;
    hasActiveSubscription : bool;
    validationErrors : list string }.

Record Response : Type := { status : Z; error : string }.

(** [checkTwoFactorAuth(userId).enabled]. *)
Definition twoFactorEnabled (req : Request) : bool :=
  match twoFactorRow req with
  | Some is_enabled => is_enabled
  | None => false
  end.

(** A deny: the event [ev] is logged and
    [NextResponse.json({ error: msg }, { status: st })] returned. *)
Definition deny (st : Z) (msg ev : string) : option Response * list string :=
  (Some {| status := st; error := msg |}, [ev]).

(** Steps 4 to 6 of [handle]: subscription, input validation, success. *)
Definition handleAfterAuth (cfg : SecurityConfig) (req : Request)
  : option Response * list string :=
  if requireSubscription cfg && negb (hasActiveSubscription req) then
    deny 403 "Active subscription required" "subscription_required"
  else if validateInput cfg
          && negb (bool_decide (validationErrors req = [])) then
    deny 400 "Invalid input" "invalid_input"
  else
    (None, if logSecurityEvents cfg then ["successful_access"%string] else []).

(** Steps 2 to 6 of [handle], after the rate limit step let the request
    through.  The result is the deny response ([None]: continue with the
    request) and the event types logged. *)
Definition handleAfterRateLimit (cfg : SecurityConfig) (req : Request)
  : option Response * list string :=
  if requireAuth cfg then
    match authUser req with
    | None => deny 401 "Authentication required" "unauthorized_access"
    | Some user =>
        if require2FA cfg then
          if negb (twoFactorEnabled req) then
            deny 403 "Two-factor authentication required" "2fa_required"
          else handleAfterAuth cfg req
        else handleAfterAuth cfg req
    end
  else handleAfterAuth cfg req.

(** [handle]: the rate limit step, then the rest of the pipeline.  The
    collaborators' answers are given, so the [catch] branch (status 500) has
    no counterpart here. *)
Definition handle (cfg : SecurityConfig) (now : Z) (req : Request)
  (store : gmap string entry)
  : option Response * list string * gmap string entry :=
  match rateLimit cfg with
  | Some rl =>
      let '(r, store') :=
        checkRateLimit (Some rl) now (rateKey (clientIP req) (pathname req))
          store in
      if negb (allowed r) then
        (Some {| status := 429; error := "Rate limit exceeded" |},
         ["rate_limit_exceeded"%string], store')
      else
        let '(resp, evs) := handleAfterRateLimit cfg req in
        (resp, evs, store')
  | None =>
      let '(resp, evs) := handleAfterRateLimit cfg req in (resp, evs, store)
  end.

End AdvancedSecurity.

(** ** Two-factor enforcement of middleware.ts *)

Module Middleware.

Inductive outcome : Type :=
| Continue
| Redirect (location : string).

Definition startsWith (s p : string) : bool := String.prefix p s.

(** The "2FA enforcement for sensitive routes" block of [middleware]:
    [user] is the signed-in account, [tfa] the [is_enabled] column of its
    [two_factor_auth] row, [cookie] the value of the [two_factor_ok]
    cookie. *)
Definition twoFactorEnforcement (pathname : string) (user : option string)
  (tfa : option bool) (cookie : option string) : outcome :=
  if startsWith pathname "/vault/" || startsWith pathname "/account"
     || startsWith pathname "/settings"
  then
    match user with
    | Some _ =>
        match tfa with
        | Some true =>
            let twoFAOk := bool_decide (cookie = Some "1"%string) in
            if negb twoFAOk then Redirect "/two-factor-auth" else Continue
        | _ => Continue
        end
    | None => Continue
    end
  else Continue.

End Middleware.

(** ** EnhancedAuthMiddleware: account lockout and session cap *)

Module EnhancedAuth.
Import JS.

Definition SESSION_CONFIG_maxConcurrentSessions : nat := 5.
Definition LOCKOUT_CONFIG_maxFailedAttempts : Z := 5.
Definition LOCKOUT_CONFIG_lockoutDuration : Z := 15 * 60 * 1000.

(** A row of [account_lockouts]; the table holds one row per [user_id]. *)
Record lockout : Type :=
  { failed_attempts : Z;
    locked_until : option Z;
    ip_address : string;
    last_attempt : Z }.

Record lockoutStatus : Type :=
  { locked : bool; remainingTime : Z; failedAttempts : Z }.

(** [new Date(locked_until).getTime()]: the stored instant, and 0 for a
    [null] column ([new Date(null)] is the epoch). *)
Definition getTime (locked_until : option Z) : Z :=
  match locked_until with
  | Some t => t
  | None => 0
  end.

Definition checkAccountLockout (now : Z) (userId : string)
  (tbl : gmap string lockout) : lockoutStatus * gmap string lockout :=
  match tbl !! userId with
  | None => ({| locked := false; remainingTime := 0; failedAttempts := 0 |},
             tbl)
  | Some lockoutData =>
      let lockoutExpiry := getTime (locked_until lockoutData) in
      if now <? lockoutExpiry then
        ({| locked := true;
            remainingTime := lockoutExpiry - now;
            failedAttempts := failed_attempts lockoutData |}, tbl)
      else
        (* Clear expired lockout *)
        ({| locked := false; remainingTime := 0; failedAttempts := 0 |},
         delete userId tbl)
  end.

(** The [failed_login] event handed to [log_security_event]. *)
Record failedLoginEvent : Type :=
  { ev_user : string; ev_failed_attempts : Z; ev_ip : string }.

(** [recordFailedAttempt]; [now] is the [Date.now()] of the lock deadline
    and [stamp] the instant of [new Date().toISOString()]. *)
Definition recordFailedAttempt (now stamp : Z) (userId ipAddress : string)
  (tbl : gmap string lockout) : gmap string lockout * failedLoginEvent :=
  let existing := tbl !! userId in
  let failedAttempts :=
    num_or (option_map failed_attempts existing) 0 + 1 in
  let lockedUntil :=
    if failedAttempts >=? LOCKOUT_CONFIG_maxFailedAttempts
    then Some (now + LOCKOUT_CONFIG_lockoutDuration)
    else None in
  (<[userId := {| failed_attempts := failedAttempts;
                  locked_until := lockedUntil;
                  ip_address := ipAddress;
                  last_attempt := stamp |}]> tbl,
   {| ev_user := userId; ev_failed_attempts := failedAttempts;
      ev_ip := ipAddress |}).

Definition clearFailedAttempts (userId : string)
  (tbl : gmap string lockout) : gmap string lockout :=
  delete userId tbl.

(** A row of [user_sessions]; [id] is the primary key. *)
Record session : Type :=
  { id : Z;
    user_id : string;
    is_active : bool;
    last_activity : Z;
    terminated_at : option Z }.

(** [.eq('user_id', userId).eq('is_active', true)]. *)
Definition activeOf (userId : string) (s : session) : bool :=
  String.eqb (user_id s) userId && is_active s.

Definition getActiveSessionCount (userId : string) (db : list session)
  : nat :=
  length (List.filter (activeOf userId) db).

(** [.update({ is_active: false, terminated_at: ... }).in('id', sessionIds)]. *)
Definition terminate (now : Z) (sessionIds : list Z) (s : session)
  : session :=
  if existsb (Z.eqb (id s)) sessionIds
  then {| id := id s; user_id := user_id s; is_active := false;
          last_activity := last_activity s; terminated_at := Some now |}
  else s.

(** [terminateOldestSessions]; [orderDesc] is the database's
    [.order('last_activity', { ascending: false })], which may break ties
    in any way. *)
Definition terminateOldestSessions
  (orderDesc : list session -> list session) (now : Z) (userId : string)
  (keepCount : nat) (db : list session) : list session :=
  let sessions := orderDesc (List.filter (activeOf userId) db) in
  if (keepCount <? length sessions)%nat then
    let sessionsToTerminate := skipn keepCount sessions in
    let sessionIds := map id sessionsToTerminate in
    map (terminate now sessionIds) db
  else db.

(** The "Check concurrent sessions" step of [checkAuth]. *)
Definition checkConcurrentSessions
  (orderDesc : list session -> list session) (now : Z) (userId : string)
  (db : list session) : list session :=
  let sessionCount := getActiveSessionCount userId db in
  if (SESSION_CONFIG_maxConcurrentSessions <? sessionCount)%nat
  then terminateOldestSessions orderDesc now userId
         SESSION_CONFIG_maxConcurrentSessions db
  else db.

(** A concrete [ORDER BY last_activity DESC]: insertion sort. *)
Fixpoint insertDesc (s : session) (l : list session) : list session :=
  match l with
  | [] => [s]
  | x :: l' =>
      if last_activity x <=? last_activity s then s :: l
      else x :: insertDesc s l'
  end.

Definition sortDesc (l : list session) : list session :=
  fold_right insertDesc [] l.

End EnhancedAuth.

(** ** Runs of the rate limiter *)

(** The results of successive calls to a [checkRateLimit] for one key, at
    the instants [times], threading the store. *)
Fixpoint runCalls
  (check : Z -> string -> gmap string RateLimit.entry
           -> RateLimit.result * gmap string RateLimit.entry)
  (key : string) (times : list Z) (store : gmap string RateLimit.entry)
  : list RateLimit.result :=
  match times with
  | [] => []
  | t :: ts =>
      let '(r, store') := check t key store in
      r :: runCalls check key ts store'
  end.

(** ** HOTP as RFC 4226 words it *)

(** The [k] low decimal digits of [n], most significant first, zeros
    included. *)
Fixpoint fixed_digits (k : nat) (n : Z) : list ascii :=
  match k with
  | O => []
  | S k' => fixed_digits k' (n / 10) ++ [JS.digit_char (n mod 10)]
  end.

Definition decimal6 (n : Z) : string :=
  string_of_list_ascii (fixed_digits 6 n).

Definition is_digit (c : ascii) : Prop :=
  (48 <= nat_of_ascii c <= 57)%nat.

(** RFC 4226, section 5.3: the HMAC-SHA1 of the 8-byte big-endian counter,
    the low 4 bits of its last byte as offset, the 4 bytes at that offset as
    a big-endian number masked to 31 bits, reduced modulo 10^6 and written
    with 6 digits. *)
Definition hotp_rfc4226 (key : list Z) (counter : Z) : string :=
  let hs := Crypto.hmac_sha1 key (Crypto.be_bytes 8 counter) in
  let offset := Z.to_nat (List.last hs 0 mod 16) in
  let p := Crypto.be_word (firstn 4 (skipn offset hs)) in
  decimal6 ((p mod 2 ^ 31) mod 10 ^ 6).

(** ** Base 32 as RFC 4648 words it

    The reference the decoder of the engine is compared with; it shares
    nothing with [Base32.base32Decode]. *)

Module RFC4648.

(** Table 3 of the RFC: the letters [A] to [Z] are the digits 0 to 25, the
    figures [2] to [7] the digits 26 to 31, and nothing else is a digit. *)
Definition digit (c : ascii) : option Z :=
  let n := Z.of_nat (nat_of_ascii c) in
  if (65 <=? n) && (n <=? 90) then Some (n - 65)
  else if (50 <=? n) && (n <=? 55) then Some (n - 24)
  else None.

(** The digits of a text in which every character is one. *)
Fixpoint digits (l : list ascii) : option (list Z) :=
  match l with
  | [] => Some []
  | c :: l' =>
      match digit c, digits l' with
      | Some d, Some ds => Some (d :: ds)
      | _, _ => None
      end
  end.

(** The digits as one number in base 32, most significant digit first. *)
Fixpoint number (acc : Z) (ds : list Z) : Z :=
  match ds with
  | [] => acc
  | d :: ds' => number (32 * acc + d) ds'
  end.

(** Section 6 of the RFC: each digit stands for 5 bits, the bits of all
    digits in a row are cut into bytes of 8 from the front, and the bits
    left over at the end (fewer than 8) are dropped.  With [k] digits that
    is the number of the digits without its [5k mod 8] low bits, written as
    [5k / 8] big-endian bytes.  A text with a character that is no digit is
    not a secret. *)
Definition decode (secret : string) : option (list Z) :=
  match digits (list_ascii_of_string secret) with
  | Some ds =>
      let bits := 5 * Z.of_nat (length ds) in
      Some (Crypto.be_bytes (Z.to_nat (bits / 8))
              (number 0 ds / 2 ^ (bits mod 8)))
  | None => None
  end.

End RFC4648.

(** The counters [verifyCode] tries, in the order it tries them. *)
Definition window (now tolerance : Z) : list Z :=
  map (fun k => now + (- tolerance) + Z.of_nat k)
    (seq 0 (Z.to_nat (tolerance - (- tolerance) + 1))).

(** ** Observations used in the statements *)

(** The counter a failed attempt starts from: the stored one, 0 when the
    account has no row. *)
Definition attemptsBefore (tbl : gmap string EnhancedAuth.lockout)
  (userId : string) : Z :=
  match tbl !! userId with
  | Some r => EnhancedAuth.failed_attempts r
  | None => 0
  end.

(** The ids of the account's active sessions. *)
Definition activeIds (userId : string) (db : list EnhancedAuth.session)
  : list Z :=
  map EnhancedAuth.id (List.filter (EnhancedAuth.activeOf userId) db).

(** Six sessions of one account, all active, and one of another account. *)
Definition mkSession (i : Z) (user : string) (last : Z) : EnhancedAuth.session :=
  {| EnhancedAuth.id := i; EnhancedAuth.user_id := user;
     EnhancedAuth.is_active := true; EnhancedAuth.last_activity := last;
     EnhancedAuth.terminated_at := None |}.

Definition six_sessions : list EnhancedAuth.session :=
  [ mkSession 1 "user-1" 1700000300000; mkSession 2 "user-1" 1700000100000;
    mkSession 3 "user-2" 1700000000000; mkSession 4 "user-1" 1700000500000;
    mkSession 5 "user-1" 1700000200000; mkSession 6 "user-1" 1700000400000;
    mkSession 7 "user-1" 1700000600000 ].

(** The request [req] with another marker cookie and another submitted
    code. *)
Definition withMarker (req : AdvancedSecurity.Request)
  (cookie code : option string) : AdvancedSecurity.Request :=
  {| AdvancedSecurity.clientIP := AdvancedSecurity.clientIP req;
     AdvancedSecurity.pathname := AdvancedSecurity.pathname req;
     AdvancedSecurity.cookieTwoFactorOk := cookie;
     AdvancedSecurity.submittedCode := code;
     AdvancedSecurity.authUser := AdvancedSecurity.authUser req;
     AdvancedSecurity.twoFactorRow := AdvancedSecurity.twoFactorRow req;
     AdvancedSecurity.hasActiveSubscription :=
       AdvancedSecurity.hasActiveSubscription req;
     AdvancedSecurity.validationErrors :=
       AdvancedSecurity.validationErrors req |}.

(** The [admin] configuration of the security guide:
    [{ requireAuth: true, require2FA: true }] over the constructor's
    defaults. *)
Definition adminConfig : AdvancedSecurity.SecurityConfig :=
  {| AdvancedSecurity.requireAuth := true;
     AdvancedSecurity.requireSubscription := false;
     AdvancedSecurity.require2FA := true;
     AdvancedSecurity.rateLimit :=
       Some {| RateLimit.windowMs := Some RateLimit.RATE_LIMIT_CONFIG_windowMs;
               RateLimit.maxRequests :=
                 Some RateLimit.RATE_LIMIT_CONFIG_maxRequests |};
     AdvancedSecurity.validateInput := true;
     AdvancedSecurity.logSecurityEvents := true |}.

(** A signed-in account with an enabled TOTP credential, whose request
    carries neither the marker cookie nor a code. *)
Definition unverifiedRequest : AdvancedSecurity.Request :=
  {| AdvancedSecurity.clientIP := "203.0.113.7";
     AdvancedSecurity.pathname := "/api/admin/users";
     AdvancedSecurity.cookieTwoFactorOk := None;
     AdvancedSecurity.submittedCode := None;
     AdvancedSecurity.authUser := Some "user-1"%string;
     AdvancedSecurity.twoFactorRow := Some true;
     AdvancedSecurity.hasActiveSubscription := false;
     AdvancedSecurity.validationErrors := [] |}.

(** [s] holds no white space. *)
Definition noSpaces (s : string) : Prop := JS.strip_spaces s = s.

(** The Base32 digits of a text read as one number in base 32, and the
    characters of the alphabet. *)
Definition idx_word (cs : list ascii) : Z :=
  fold_left (fun acc c => acc * 32 + JS.indexOf Base32.BASE32_ALPHABET c) cs 0.

Definition validChar (c : ascii) : Prop :=
  exists i, 0 <= i < 32 /\ c = Base32.alphabet_at i.

Definition inAlphabet (c : ascii) : bool :=
  negb (JS.indexOf Base32.BASE32_ALPHABET c =? -1).

(** The state of [base32Encode] after the bytes [p]: [value] holds [p] as a
    big-endian number up to its low 32 bits, [bits] of its low bits are not
    yet written, and the characters written are the digits above them. *)
Definition enc_inv (p : list Z) (st : Z * Z * list ascii) : Prop :=
  let '(bits, value, out) := st in
  0 <= bits < 5
  /\ value mod 2 ^ 32 = Crypto.be_word p mod 2 ^ 32
  /\ idx_word out = Crypto.be_word p / 2 ^ bits
  /\ 5 * Z.of_nat (length out) + bits = 8 * Z.of_nat (length p)
  /\ Forall validChar out.

(** The state of [base32Decode] after the alphabet characters [cs]. *)
Definition dec_inv (cs : list ascii) (st : Z * Z * list Z) : Prop :=
  let '(bits, value, bytes) := st in
  0 <= bits < 8
  /\ value mod 2 ^ 32 = idx_word cs mod 2 ^ 32
  /\ Crypto.be_word bytes = idx_word cs / 2 ^ bits
  /\ 8 * Z.of_nat (length bytes) + bits = 5 * Z.of_nat (length cs)
  /\ Forall is_byte bytes.

(** [k] padding characters. *)
Definition padding (k : nat) : string :=
  string_of_list_ascii (repeat "="%char k).

(** The row of an account locked until 1700000900000. *)
Definition lockedRow : EnhancedAuth.lockout :=
  {| EnhancedAuth.failed_attempts := 5;
     EnhancedAuth.locked_until := Some 1700000900000;
     EnhancedAuth.ip_address := "203.0.113.7";
     EnhancedAuth.last_attempt := 1700000000000 |}.

(** * Further operations of the same modules, and their callers *)

(** ** Runs of the limiter and of the lockout tracker *)

(** The store after successive calls to a [checkRateLimit], each for its own
    key and instant. *)
Fixpoint runStore
  (check : Z -> string -> gmap string RateLimit.entry
           -> RateLimit.result * gmap string RateLimit.entry)
  (calls : list (Z * string)) (store : gmap string RateLimit.entry)
  : gmap string RateLimit.entry :=
  match calls with
  | [] => store
  | (t, key) :: calls' => runStore check calls' (check t key store).2
  end.

(** The answers of successive calls of a limiter, each with its own key,
    threading the store. *)
Fixpoint runKeyed
  (check : Z -> string -> gmap string RateLimit.entry
           -> RateLimit.result * gmap string RateLimit.entry)
  (calls : list (Z * string)) (store : gmap string RateLimit.entry)
  : list RateLimit.result :=
  match calls with
  | [] => []
  | (t, key) :: calls' =>
      let '(r, store') := check t key store in
      r :: runKeyed check calls' store'
  end.

(** The responses of successive calls to [handle] for requests at the
    instants [times], threading the store. *)
Fixpoint runHandle (cfg : AdvancedSecurity.SecurityConfig)
  (reqs : list (Z * AdvancedSecurity.Request))
  (store : gmap string RateLimit.entry)
  : list (option AdvancedSecurity.Response) * gmap string RateLimit.entry :=
  match reqs with
  | [] => ([], store)
  | (t, req) :: reqs' =>
      let '(resp, _, store') := AdvancedSecurity.handle cfg t req store in
      let '(resps, store'') := runHandle cfg reqs' store' in
      (resp :: resps, store'')
  end.

(** Failed attempts of one account at the instants [times], from one
    address. *)
Definition failures (times : list Z) (userId ip : string)
  (tbl : gmap string EnhancedAuth.lockout) : gmap string EnhancedAuth.lockout :=
  fold_left
    (fun tbl t => (EnhancedAuth.recordFailedAttempt t t userId ip tbl).1)
    times tbl.

(** The request [req] sent by another signed-in user, or by none. *)
Definition withUser (req : AdvancedSecurity.Request) (user : option string)
  : AdvancedSecurity.Request :=
  {| AdvancedSecurity.clientIP := AdvancedSecurity.clientIP req;
     AdvancedSecurity.pathname := AdvancedSecurity.pathname req;
     AdvancedSecurity.cookieTwoFactorOk :=
       AdvancedSecurity.cookieTwoFactorOk req;
     AdvancedSecurity.submittedCode := AdvancedSecurity.submittedCode req;
     AdvancedSecurity.authUser := user;
     AdvancedSecurity.twoFactorRow := AdvancedSecurity.twoFactorRow req;
     AdvancedSecurity.hasActiveSubscription :=
       AdvancedSecurity.hasActiveSubscription req;
     AdvancedSecurity.validationErrors :=
       AdvancedSecurity.validationErrors req |}.

(** The two denials the limiter and the authentication step answer with. *)
Definition denied401 : option AdvancedSecurity.Response :=
  Some {| AdvancedSecurity.status := 401;
          AdvancedSecurity.error := "Authentication required" |}.

Definition denied429 : option AdvancedSecurity.Response :=
  Some {| AdvancedSecurity.status := 429;
          AdvancedSecurity.error := "Rate limit exceeded" |}.

(** ** EnhancedAuthMiddleware: activity stamps and checkAuth *)

Module EnhancedAuthMore.
Import JS EnhancedAuth.

Definition SESSION_CONFIG_requireReauthAfter : Z := 7 * 24 * 60 * 60 * 1000.

(** [.update({ last_activity, user_agent })] on one row. *)
Definition touch (now : Z) (s : session) : session :=
  {| id := id s; user_id := user_id s; is_active := is_active s;
     last_activity := now; terminated_at := terminated_at s |}.

(** [updateLastActivity]: every active session of the account gets the
    instant and the user agent.  The [user_agent] column of [user_sessions]
    is kept beside the rows, keyed by session id. *)
Definition updateLastActivity (now : Z) (userId userAgent : string)
  (db : list session) (agents : gmap Z string)
  : list session * gmap Z string :=
  (map (fun s => if activeOf userId s then touch now s else s) db,
   fold_right
     (fun s ag => if activeOf userId s then <[id s := userAgent]> ag else ag)
     agents db).

(** The user [supabase.auth.getUser()] returns. *)
Record authUser : Type := { uid : string; last_sign_in_at : option Z }.

Record authResult : Type :=
  { authenticated : bool;
    user : option authUser;
    sessionValid : bool;
    requiresReauth : bool;
    error : option string }.

Record authState : Type :=
  { lockouts : gmap string lockout;
    sessions : list session;
    agents : gmap Z string }.

Definition notAuthenticated (err : option string) : authResult :=
  {| authenticated := false; user := None; sessionValid := false;
     requiresReauth := false; error := err |}.

(** The text of the lockout refusal, with
    [Math.ceil(lockoutStatus.remainingTime / 60000)] minutes. *)
Definition lockedMessage (remainingTime : Z) : string :=
  ("Account temporarily locked. Try again in "
   ++ toString (ceil_div remainingTime 60000) ++ " minutes.")%string.

(** [checkAuth]: [getUser] is the signed-in user ([None] when there is none
    or the lookup failed), [userAgent] the request header.  The clock is
    read four times: [now] for the session age, [nowLock] by the lockout
    check, [nowTerm] when sessions are terminated and [nowAct] for the
    activity stamp. *)
Definition checkAuth (orderDesc : list session -> list session)
  (now nowLock nowTerm nowAct : Z) (getUser : option authUser)
  (userAgent : option string) (st : authState) : authResult * authState :=
  match getUser with
  | None => (notAuthenticated None, st)
  | Some u =>
      let sessionAge := now - getTime (last_sign_in_at u) in
      let requiresReauth := sessionAge >? SESSION_CONFIG_requireReauthAfter in
      let '(lockoutStatus, lockouts') :=
        checkAccountLockout nowLock (uid u) (lockouts st) in
      if locked lockoutStatus then
        (notAuthenticated (Some (lockedMessage (remainingTime lockoutStatus))),
         {| lockouts := lockouts'; sessions := sessions st;
            agents := agents st |})
      else
        let sessions' :=
          checkConcurrentSessions orderDesc nowTerm (uid u) (sessions st) in
        let '(sessions'', agents') :=
          updateLastActivity nowAct (uid u)
            (match userAgent with Some a => a | None => EmptyString end)
            sessions' (agents st) in
        ({| authenticated := true; user := Some u; sessionValid := true;
            requiresReauth := requiresReauth; error := None |},
         {| lockouts := lockouts'; sessions := sessions'';
            agents := agents' |})
  end.

End EnhancedAuthMore.

(** ** The rest of the [TOTP] class (lib/totp)

    [crypto.randomBytes] is an input: the buffer it returns is an argument
    of the function that calls it. *)

Module TOTPMore.
Import JS Base32 TOTP.

(** [generateSecret]; [raw] is what [crypto.randomBytes(20)] returns. *)
Definition generateSecret (raw : list Z) : string := base32Encode raw.

(** [buf.toString('hex')]: two lower-case digits per byte. *)
Definition hex_digit (d : Z) : ascii :=
  nth (Z.to_nat d) (list_ascii_of_string "0123456789abcdef") "0"%char.

Definition toHex (buf : list Z) : string :=
  string_of_list_ascii
    (flat_map (fun b => [hex_digit (b / 16); hex_digit (b mod 16)]) buf).

(** The [for (let i = 0; i < count; i++)] loop of [generateBackupCodes],
    [turns] turns from index [i]; [random i] is what [crypto.randomBytes(4)]
    returns in turn [i]. *)
Fixpoint backupCodes_loop (random : nat -> list Z) (turns i : nat)
  (codes : list string) : list string :=
  match turns with
  | O => codes
  | S turns' =>
      let code := toUpperCase (toHex (random i)) in
      backupCodes_loop random turns' (S i) (codes ++ [code])
  end.

Definition generateBackupCodes (random : nat -> list Z) (count : nat)
  : list string :=
  backupCodes_loop random count 0 [].

(** [encodeURIComponent]: the unreserved characters stay, every other
    character is written as the [%XX] of its UTF-8 bytes (one byte below
    U+0080, two from U+0080 to U+00FF). *)
Definition unreserved (c : ascii) : bool :=
  let n := nat_of_ascii c in
  ((65 <=? n) && (n <=? 90) || (97 <=? n) && (n <=? 122)
   || (48 <=? n) && (n <=? 57))%nat
  || existsb (Ascii.eqb c) (list_ascii_of_string "-_.!~*'()").

Definition HEX_digit (d : Z) : ascii :=
  nth (Z.to_nat d) (list_ascii_of_string "0123456789ABCDEF") "0"%char.

Definition percent (b : Z) : list ascii :=
  ["%"%char; HEX_digit (b / 16); HEX_digit (b mod 16)].

Definition encode_char (c : ascii) : list ascii :=
  let n := Z.of_nat (nat_of_ascii c) in
  if unreserved c then [c]
  else if n <? 128 then percent n
  else percent (192 + n / 64) ++ percent (128 + n mod 64).

Definition encodeURIComponent (s : string) : string :=
  string_of_list_ascii (flat_map encode_char (list_ascii_of_string s)).

(** [generateQRUrl(secret, accountName, issuer = 'TreasureTto')]. *)
Definition generateQRUrl (secret accountName : string)
  (issuer : option string) : string :=
  let issuer := match issuer with Some i => i | None => "TreasureTto" end in
  let encodedIssuer := encodeURIComponent issuer in
  let encodedAccount := encodeURIComponent accountName in
  let encodedSecret := encodeURIComponent secret in
  ("otpauth://totp/" ++ encodedIssuer ++ ":" ++ encodedAccount
   ++ "?secret=" ++ encodedSecret ++ "&issuer=" ++ encodedIssuer
   ++ "&algorithm=SHA1&digits=" ++ toString DIGITS
   ++ "&period=" ++ toString PERIOD)%string.

End TOTPMore.

(** ** The [two_factor_auth] table and the code that reads and writes it

    The table has one row per [user_id].  The [two_factor_ok] cookie of the
    browser is the [option string] beside it. *)

Module TwoFactor.
Import JS TOTP TOTPMore.

Record row : Type :=
  { secret_key : string; backup_codes : list string; is_enabled : bool }.

Definition withBackupCodes (r : row) (codes : list string) : row :=
  {| secret_key := secret_key r; backup_codes := codes;
     is_enabled := is_enabled r |}.

Definition withEnabled (r : row) (b : bool) : row :=
  {| secret_key := secret_key r; backup_codes := backup_codes r;
     is_enabled := b |}.

Record verifyResult : Type := { valid : bool; error : option string }.

(** [EnhancedAuthMiddleware.verify2FA]; the third component is the list of
    event types handed to [log_security_event].  [None]: [verifyCode]
    threw. *)
Definition verify2FA (clock : Z) (userId code : string)
  (tbl : gmap string row)
  : option (verifyResult * gmap string row * list string) :=
  let notEnabled :=
    Some ({| valid := false; error := Some "2FA not enabled"%string |},
          tbl, []) in
  match tbl !! userId with
  | None => notEnabled
  | Some twoFactorData =>
      if negb (is_enabled twoFactorData) then notEnabled
      else if (String.length code =? 8)%nat
              && verifyBackupCode code (backup_codes twoFactorData)
      then
        let updatedCodes :=
          BackupRoute.removeUsed code (backup_codes twoFactorData) in
        Some ({| valid := true; error := None |},
              <[userId := withBackupCodes twoFactorData updatedCodes]> tbl,
              [])
      else
        match verifyCode clock (secret_key twoFactorData) code 1 with
        | None => None
        | Some isValidTOTP =>
            Some ({| valid := isValidTOTP; error := None |}, tbl,
                  if isValidTOTP then [] else ["failed_2fa"%string])
        end
  end.

(** The signed-in user of a route: its id and its e-mail address. *)
Record routeUser : Type := { user_id : string; email : option string }.

Inductive response : Type :=
| Unauthorized401
| InvalidCode400
| NotInitialized400
| NotValid200
| Valid200
| Ok200
| Setup200 (secret : string) (codes : list string) (otpauth_url : string).

(** [user.email || user.id]. *)
Definition accountName (u : routeUser) : string :=
  match email u with
  | Some e => if String.eqb e "" then user_id u else e
  | None => user_id u
  end.

(** [POST] of the 2FA setup route; [raw] and [random] are what
    [crypto.randomBytes] returns to [generateSecret] and to
    [generateBackupCodes]. *)
Definition setupPOST (raw : list Z) (random : nat -> list Z)
  (user : option routeUser) (tbl : gmap string row)
  : response * gmap string row :=
  match user with
  | None => (Unauthorized401, tbl)
  | Some u =>
      let secret := generateSecret raw in
      let backupCodes := generateBackupCodes random 8 in
      let otpauthUrl := generateQRUrl secret (accountName u) None in
      (Setup200 secret backupCodes otpauthUrl,
       <[user_id u := {| secret_key := secret; backup_codes := backupCodes;
                         is_enabled := false |}]> tbl)
  end.

(** [POST] of app/api/2fa/verify/route.ts; [code] is [body.code] ([None]
    when absent or not a string).  The result carries the table and the
    [two_factor_ok] cookie after the request; [None]: [verifyCode] threw. *)
Definition verifyPOST (clock : Z) (user : option routeUser)
  (code : option string) (tbl : gmap string row) (cookie : option string)
  : option (response * gmap string row * option string) :=
  match user with
  | None => Some (Unauthorized401, tbl, cookie)
  | Some u =>
      match code with
      | None => Some (InvalidCode400, tbl, cookie)
      | Some code =>
          if negb (String.length code =? 6)%nat
          then Some (InvalidCode400, tbl, cookie)
          else
            match tbl !! user_id u with
            | None => Some (NotInitialized400, tbl, cookie)
            | Some twoFA =>
                match verifyCode clock (secret_key twoFA) code 1 with
                | None => None
                | Some false => Some (NotValid200, tbl, cookie)
                | Some true =>
                    Some (Valid200,
                          <[user_id u := withEnabled twoFA true]> tbl,
                          Some "1"%string)
                end
            end
      end
  end.

(** [POST] of app/api/2fa/disable/route.ts. *)
Definition disablePOST (user : option routeUser) (tbl : gmap string row)
  (cookie : option string) : response * gmap string row * option string :=
  match user with
  | None => (Unauthorized401, tbl, cookie)
  | Some u => (Ok200, delete (user_id u) tbl, None)
  end.

(** What [middleware] reads for the account: the [is_enabled] column of its
    row. *)
Definition tfaOf (tbl : gmap string row) (userId : string) : option bool :=
  is_enabled <$> tbl !! userId.

End TwoFactor.

(** ** String operations the request handlers use *)

Module JSString.
Import JS.

(** [s.includes(p)]. *)
Fixpoint includes (s p : string) : bool :=
  String.prefix p s
  || match s with
     | EmptyString => false
     | String _ s' => includes s' p
     end.

(** [s.split(',')[0]]: the text before the first comma. *)
Fixpoint beforeComma (l : list ascii) : list ascii :=
  match l with
  | [] => []
  | c :: l' => if Ascii.eqb c ","%char then [] else c :: beforeComma l'
  end.

(** [s.trim()]: the white space of [JS.is_space] is removed at both
    ends. *)
Fixpoint trimStart (l : list ascii) : list ascii :=
  match l with
  | [] => []
  | c :: l' => if is_space c then trimStart l' else l
  end.

Definition trimEnd (l : list ascii) : list ascii :=
  rev (trimStart (rev l)).

Definition trim (s : string) : string :=
  string_of_list_ascii (trimEnd (trimStart (list_ascii_of_string s))).

(** [forwarded.split(',')[0].trim()]. *)
Definition firstEntry (forwarded : string) : string :=
  string_of_list_ascii
    (trimEnd (trimStart (beforeComma (list_ascii_of_string forwarded)))).

(** Truthiness of a header or cookie value: [null] and the empty string
    are falsy. *)
Definition truthy (v : option string) : bool :=
  match v with
  | Some s => negb (String.eqb s "")
  | None => false
  end.

(** [a || b] on values that are strings or [null]. *)
Definition or_else (a b : option string) : option string :=
  if truthy a then a else b.

End JSString.

(** ** [getClientIP] of both middlewares (lib/security.ts,
       lib/advanced-security.ts) *)

Module ClientIP.
Import JSString.

Record headers : Type :=
  { x_forwarded_for : option string;
    x_real_ip : option string;
    cf_connecting_ip : option string }.

Definition getClientIP (h : headers) : string :=
  let forwarded := x_forwarded_for h in
  let realIP := x_real_ip h in
  let cfConnectingIP := cf_connecting_ip h in
  if truthy forwarded then firstEntry (default EmptyString forwarded)
  else if truthy realIP then default EmptyString realIP
  else if truthy cfConnectingIP then default EmptyString cfConnectingIP
  else "unknown".

End ClientIP.

(** ** The whole of [middleware] (middleware.ts) *)

Module MiddlewareMore.
Import JS JSString ClientIP Middleware.

(** The parsed [lemon_squeezy_payment] cookie: [timestamp] is the number
    the field converts to ([None]: not a number), [userId] the field when it
    is a string. *)
Record paymentData : Type :=
  { timestamp : option Z; userId : option string }.

(** What the request carries.  [payment] is [None] without the cookie (or
    with an empty one), [Some None] when [JSON.parse] or the access to its
    fields throws. *)
Record request : Type :=
  { csrf_cookie : option string;
    hdrs : headers;
    pathname : string;
    method : string;
    x_csrf_token : option string;
    two_factor_ok : option string;
    payment : option (option paymentData) }.

Record subscription : Type :=
  { sub_user : string; sub_status : string; sub_created_at : Z }.

(** What the database and the auth service answer: [blacklist] maps a
    listed address to its [expires_at] ([None]: no expiry), [user] is the
    signed-in account. *)
Record world : Type :=
  { blacklist : gmap string (option Z);
    user : option string;
    two_factor_auth : gmap string TwoFactor.row;
    subscriptions : list subscription }.

Inductive result : Type :=
| Next (setCsrfCookie : bool)
| Blocked403 (body : string)
| RedirectTo (location : string).

(** The address the blacklist is asked about. *)
Definition requestIp (h : headers) : string :=
  let fwd :=
    match x_forwarded_for h with
    | Some f => Some (firstEntry f)
    | None => None
    end in
  let realIp := or_else (x_real_ip h) (cf_connecting_ip h) in
  match or_else (or_else fwd realIp) (Some "0.0.0.0"%string) with
  | Some ip => ip
  | None => "0.0.0.0"
  end.

Definition isBlocked (now : Z) (w : world) (h : headers) : bool :=
  match blacklist w !! requestIp h with
  | Some None => true
  | Some (Some expires_at) => now <? expires_at
  | None => false
  end.

Definition isMutating (m : string) : bool :=
  existsb (String.eqb m) ["POST"; "PUT"; "PATCH"; "DELETE"]%string.

Definition csrfChecked (req : request) : bool :=
  startsWith (pathname req) "/api/"
  && isMutating (method req)
  && negb (includes (pathname req) "/lemonsqueezy/webhook")
  && negb (includes (pathname req) "/checkout/initialize")
  && negb (includes (pathname req) "/payment/process").

Definition csrfOk (req : request) : bool :=
  truthy (csrf_cookie req) && truthy (x_csrf_token req)
  && bool_decide (csrf_cookie req = x_csrf_token req).

(** [.eq('user_id', id).in('status', ['active', 'trial']).single()]: the
    row when there is exactly one. *)
Definition activeRow (id : string) (s : subscription) : bool :=
  String.eqb (sub_user s) id
  && (String.eqb (sub_status s) "active"
      || String.eqb (sub_status s) "trial").

Definition activeSubscription (w : world) (id : string)
  : option subscription :=
  match List.filter (activeRow id) (subscriptions w) with
  | [s] => Some s
  | _ => None
  end.

(** [.order('created_at', { ascending: false }).limit(1).single()]: the
    [created_at] of the account's most recent subscription (the column is
    never [null]). *)
Definition recentCreatedAt (w : world) (id : string) : option Z :=
  fold_right
    (fun s acc =>
       if String.eqb (sub_user s) id then
         match acc with
         | Some t => Some (Z.max (sub_created_at s) t)
         | None => Some (sub_created_at s)
         end
       else acc)
    None (subscriptions w).

Definition paymentSessionOk (now : Z) (req : request) (id : string) : bool :=
  match payment req with
  | Some (Some paymentData) =>
      match timestamp paymentData with
      | Some ts =>
          (now - ts <=? 5 * 60 * 1000)
          && bool_decide (userId paymentData = Some id)
      | None => false
      end
  | _ => false
  end.

Definition recentSubscription (now : Z) (w : world) (id : string) : bool :=
  match recentCreatedAt w id with
  | Some created_at =>
      let subAge := now - created_at in
      subAge <? 10 * 60 * 1000
  | None => false
  end.

(** The "checkout success" block; [nowSub] and [nowPay] are the two
    readings of the clock. *)
Definition checkoutSuccess (nowSub nowPay : Z) (req : request) (w : world)
  (res : result) : result :=
  match user w with
  | None => RedirectTo "/login"
  | Some id =>
      match activeSubscription w id with
      | Some _ => res
      | None =>
          if recentSubscription nowSub w id then res
          else if paymentSessionOk nowPay req id then res
          else RedirectTo "/pricing"
      end
  end.

Definition vaultGate (w : world) (res : result) : result :=
  match user w with
  | None => RedirectTo "/login"
  | Some id =>
      match activeSubscription w id with
      | Some _ => res
      | None => RedirectTo "/trial"
      end
  end.

(** [middleware]; the clock is read by the blacklist step ([now]) and twice
    by the checkout block.  The database answers every query, so the
    [catch] branches have no counterpart here. *)
Definition middleware (now nowSub nowPay : Z) (req : request) (w : world)
  : result :=
  let res := Next (negb (truthy (csrf_cookie req))) in
  if isBlocked now w (hdrs req) then Blocked403 "Access blocked"
  else if csrfChecked req && negb (csrfOk req)
  then Blocked403 "Invalid CSRF token"
  else
    match twoFactorEnforcement (pathname req) (user w)
            (match user w with
             | Some id => TwoFactor.tfaOf (two_factor_auth w) id
             | None => None
             end) (two_factor_ok req) with
    | Redirect location => RedirectTo location
    | Continue =>
        if String.eqb (pathname req) "/checkout/success"
        then checkoutSuccess nowSub nowPay req w res
        else if startsWith (pathname req) "/vault/"
        then vaultGate w res
        else res
    end.

End MiddlewareMore.

(** ** [SecurityMiddleware.handle] (lib/security.ts) *)

Module SecurityHandle.
Import JS RateLimit.

Record SecurityConfig : Type :=
  { requireAuth : bool;
    requireSubscription : bool;
    rateLimit : option rateLimitConfig;
    validateInput : bool }.

(** A response of this class: the status and the JSON body, which holds
    [retryAfter] in a 429 and [details] in a 400. *)
Record Response : Type :=
  { status : Z;
    error : string;
    retryAfter : option Z;
    details : option (list string) }.

Definition json (status : Z) (error : string) : Response :=
  {| status := status; error := error; retryAfter := None;
     details := None |}.

(** [handle].  Of the request it reads the address and the path (the rate
    limit key), the signed-in user ([checkAuthentication]) and the
    subscription ([checkSubscription]), as [AdvancedSecurity.Request] holds
    them; [errors] is the list this class's own [validateInput] collects
    for the request, which is not the list of the other class. *)
Definition handle (cfg : SecurityConfig) (now : Z)
  (req : AdvancedSecurity.Request) (errors : list string)
  (store : gmap string entry)
  : option Response * gmap string entry :=
  let rest :=
    if requireAuth cfg
       && negb (bool_decide (AdvancedSecurity.authUser req <> None))
    then Some (json 401 "Authentication required")
    else if requireSubscription cfg
            && negb (AdvancedSecurity.hasActiveSubscription req)
    then Some (json 403 "Active subscription required")
    else if validateInput cfg && negb (bool_decide (errors = []))
    then Some {| status := 400; error := "Invalid input";
                 retryAfter := None; details := Some errors |}
    else None in
  match rateLimit cfg with
  | Some rl =>
      let '(r, store') :=
        Security.checkRateLimit (Some rl) now
          (rateKey (AdvancedSecurity.clientIP req)
             (AdvancedSecurity.pathname req)) store in
      if negb (allowed r)
      then (Some {| status := 429; error := "Rate limit exceeded";
                    retryAfter := RateLimit.retryAfter r;
                    details := None |},
            store')
      else (rest, store')
  | None => (rest, store)
  end.

(** The status and the error text of a response of either class. *)
Definition statusAndError (r : option Response) : option (Z * string) :=
  option_map (fun resp => (status resp, error resp)) r.

End SecurityHandle.

(** The configuration of [AdvancedSecurityMiddleware] that asks what a
    [SecurityMiddleware] configuration asks, with or without 2FA. *)
Definition advancedOf (cfg : SecurityHandle.SecurityConfig)
  (require2FA logSecurityEvents : bool) : AdvancedSecurity.SecurityConfig :=
  {| AdvancedSecurity.requireAuth := SecurityHandle.requireAuth cfg;
     AdvancedSecurity.requireSubscription :=
       SecurityHandle.requireSubscription cfg;
     AdvancedSecurity.require2FA := require2FA;
     AdvancedSecurity.rateLimit := SecurityHandle.rateLimit cfg;
     AdvancedSecurity.validateInput := SecurityHandle.validateInput cfg;
     AdvancedSecurity.logSecurityEvents := logSecurityEvents |}.

(** The configuration [cfg] with another [require2FA]. *)
Definition with2FA (cfg : AdvancedSecurity.SecurityConfig) (b : bool)
  : AdvancedSecurity.SecurityConfig :=
  {| AdvancedSecurity.requireAuth := AdvancedSecurity.requireAuth cfg;
     AdvancedSecurity.requireSubscription :=
       AdvancedSecurity.requireSubscription cfg;
     AdvancedSecurity.require2FA := b;
     AdvancedSecurity.rateLimit := AdvancedSecurity.rateLimit cfg;
     AdvancedSecurity.validateInput := AdvancedSecurity.validateInput cfg;
     AdvancedSecurity.logSecurityEvents :=
       AdvancedSecurity.logSecurityEvents cfg |}.

(** Whether the rate limit step of [handle] turns the request down. *)
Definition rateLimited (cfg : AdvancedSecurity.SecurityConfig) (now : Z)
  (req : AdvancedSecurity.Request) (store : gmap string RateLimit.entry)
  : bool :=
  match AdvancedSecurity.rateLimit cfg with
  | Some rl =>
      negb (RateLimit.allowed
              (AdvancedSecurity.checkRateLimit (Some rl) now
                 (RateLimit.rateKey (AdvancedSecurity.clientIP req)
                    (AdvancedSecurity.pathname req)) store).1)
  | None => false
  end.

(** ** Regular expressions

    The patterns of the utilities are built from character classes,
    sequence, alternative and repetition; [matches] decides a whole-text
    match ([^...$]) by derivatives. *)

Module Regex.

Inductive regex : Type :=
| Void
| Eps
| Class (p : ascii -> bool)
| Cat (r s : regex)
| Alt (r s : regex)
| Star (r : regex).

(** [r+] and [r{2,}]. *)
Definition Plus (r : regex) : regex := Cat r (Star r).
Definition AtLeast2 (r : regex) : regex := Cat r (Cat r (Star r)).

Fixpoint nullable (r : regex) : bool :=
  match r with
  | Void => false
  | Eps => true
  | Class _ => false
  | Cat r s => nullable r && nullable s
  | Alt r s => nullable r || nullable s
  | Star _ => true
  end.

Fixpoint deriv (c : ascii) (r : regex) : regex :=
  match r with
  | Void => Void
  | Eps => Void
  | Class p => if p c then Eps else Void
  | Cat r s =>
      if nullable r then Alt (Cat (deriv c r) s) (deriv c s)
      else Cat (deriv c r) s
  | Alt r s => Alt (deriv c r) (deriv c s)
  | Star r => Cat (deriv c r) (Star r)
  end.

Definition matches (r : regex) (l : list ascii) : bool :=
  nullable (fold_left (fun r c => deriv c r) l r).

(** The texts a pattern stands for. *)
Inductive lang : regex -> list ascii -> Prop :=
| lang_eps : lang Eps []
| lang_class p c : p c = true -> lang (Class p) [c]
| lang_cat r s u v : lang r u -> lang s v -> lang (Cat r s) (u ++ v)
| lang_alt_l r s u : lang r u -> lang (Alt r s) u
| lang_alt_r r s u : lang s u -> lang (Alt r s) u
| lang_star_nil r : lang (Star r) []
| lang_star_cons r u v :
    lang r u -> lang (Star r) v -> lang (Star r) (u ++ v).

End Regex.

(** ** [SecurityUtils] and [AdvancedSecurityUtils] *)

Module SecurityUtils.
Import JS JSString.

(** [sanitizeInput], the same in both files: the characters [<], [>],
    the double quote, the apostrophe and [&] are removed, then the text is
    trimmed. *)
Definition isMarkup (c : ascii) : bool :=
  existsb (Ascii.eqb c) ["<"; ">"; "034"; "'"; "&"]%char.

Definition sanitizeInput (input : string) : string :=
  trim (string_of_list_ascii
          (List.filter (fun c => negb (isMarkup c))
             (list_ascii_of_string input))).

(** [/re/.test(s)] for a one-character class [re]. *)
Definition test (class : ascii -> bool) (s : string) : bool :=
  existsb class (list_ascii_of_string s).

Definition isLower (c : ascii) : bool :=
  let n := nat_of_ascii c in ((97 <=? n) && (n <=? 122))%nat.

Definition isUpper (c : ascii) : bool :=
  let n := nat_of_ascii c in ((65 <=? n) && (n <=? 90))%nat.

Definition isDigit (c : ascii) : bool :=
  let n := nat_of_ascii c in ((48 <=? n) && (n <=? 57))%nat.

Definition isSpecial (c : ascii) : bool :=
  existsb (Ascii.eqb c) (list_ascii_of_string "@$!%*?&").

Record strength : Type := { valid : bool; errors : list string }.

(** [errors.push(msg)] when [cond] holds. *)
Definition pushIf (cond : bool) (msg : string) (errors : list string)
  : list string :=
  if cond then errors ++ [msg] else errors.

Definition validatePasswordStrength (password : string) : strength :=
  let errors := [] in
  let errors :=
    pushIf (String.length password <? 8)%nat
      "Password must be at least 8 characters long" errors in
  let errors :=
    pushIf (negb (test isLower password))
      "Password must contain at least one lowercase letter" errors in
  let errors :=
    pushIf (negb (test isUpper password))
      "Password must contain at least one uppercase letter" errors in
  let errors :=
    pushIf (negb (test isDigit password))
      "Password must contain at least one number" errors in
  let errors :=
    pushIf (negb (test isSpecial password))
      "Password must contain at least one special character (@$!%*?&)"
      errors in
  {| valid := (length errors =? 0)%nat; errors := errors |}.

(** [/^[A-Za-z0-9._%+-]+@[A-Za-z0-9.-]+\.[A-Za-z]{2,}$/], the same in both
    files. *)
Definition isLetter (c : ascii) : bool := isUpper c || isLower c.

Definition isLocalChar (c : ascii) : bool :=
  isLetter c || isDigit c
  || existsb (Ascii.eqb c) (list_ascii_of_string "._%+-").

Definition isDomainChar (c : ascii) : bool :=
  isLetter c || isDigit c
  || existsb (Ascii.eqb c) (list_ascii_of_string ".-").

Definition emailRegex : Regex.regex :=
  Regex.Cat (Regex.Plus (Regex.Class isLocalChar))
    (Regex.Cat (Regex.Class (Ascii.eqb "@"))
       (Regex.Cat (Regex.Plus (Regex.Class isDomainChar))
          (Regex.Cat (Regex.Class (Ascii.eqb "."))
             (Regex.AtLeast2 (Regex.Class isLetter))))).

Definition validateEmail (email : string) : bool :=
  Regex.matches emailRegex (list_ascii_of_string email).

(** [buf.toString('base64')]. *)
Definition base64_digit (d : Z) : ascii :=
  nth (Z.to_nat d)
    (list_ascii_of_string
       "ABCDEFGHIJKLMNOPQRSTUVWXYZabcdefghijklmnopqrstuvwxyz0123456789+/")
    "="%char.

Fixpoint toBase64 (buf : list Z) : list ascii :=
  match buf with
  | [] => []
  | [a] =>
      [base64_digit (a / 4); base64_digit (a mod 4 * 16); "="; "="]%char
  | [a; b] =>
      [base64_digit (a / 4); base64_digit (a mod 4 * 16 + b / 16);
       base64_digit (b mod 16 * 4); "="%char]
  | a :: b :: c :: rest =>
      [base64_digit (a / 4); base64_digit (a mod 4 * 16 + b / 16);
       base64_digit (b mod 16 * 4 + c / 64); base64_digit (c mod 64)]
      ++ toBase64 rest
  end.

(** [Buffer.from(data)]: the UTF-8 bytes of a text (one byte below U+0080,
    two from U+0080 to U+00FF). *)
Definition utf8 (data : string) : list Z :=
  flat_map
    (fun c =>
       let n := Z.of_nat (nat_of_ascii c) in
       if n <? 128 then [n] else [192 + n / 64; 128 + n mod 64])
    (list_ascii_of_string data).

(** [SecurityUtils.hashData]: [Buffer.from(data).toString('base64')]. *)
Definition hashData (data : string) : string :=
  string_of_list_ascii (toBase64 (utf8 data)).

(** [/[^A-Z2-7]/]: what [generateTOTPSecret] removes is everything else. *)
Definition isBase32Char (c : ascii) : bool :=
  let n := nat_of_ascii c in
  ((65 <=? n) && (n <=? 90) || (50 <=? n) && (n <=? 55))%nat.

(** [generateTOTPSecret]; [raw] is what [crypto.randomBytes(20)] returns:
    [raw.toString('base64').replace(/[^A-Z2-7]/g, '').substring(0, 32)]. *)
Definition generateTOTPSecret (raw : list Z) : string :=
  string_of_list_ascii
    (firstn 32 (List.filter isBase32Char (toBase64 raw))).

End SecurityUtils.

(** A request for a vault page from a browser that passed 2FA, and a
    database in which its account has 2FA enabled and one active
    subscription. *)
Definition vaultRequest : MiddlewareMore.request :=
  {| MiddlewareMore.csrf_cookie := Some "7f1c"%string;
     MiddlewareMore.hdrs :=
       {| ClientIP.x_forwarded_for := Some "203.0.113.7, 10.0.0.1"%string;
          ClientIP.x_real_ip := None;
          ClientIP.cf_connecting_ip := None |};
     MiddlewareMore.pathname := "/vault/files";
     MiddlewareMore.method := "GET";
     MiddlewareMore.x_csrf_token := None;
     MiddlewareMore.two_factor_ok := Some "1"%string;
     MiddlewareMore.payment := None |}.

Definition subscribedWorld : MiddlewareMore.world :=
  {| MiddlewareMore.blacklist := {[ "198.51.100.9"%string := None ]};
     MiddlewareMore.user := Some "user-1"%string;
     MiddlewareMore.two_factor_auth :=
       {[ "user-1"%string :=
            {| TwoFactor.secret_key := "GEZDGNBVGY3TQOJQGEZDGNBVGY3TQOJQ";
               TwoFactor.backup_codes := [];
               TwoFactor.is_enabled := true |} ]};
     MiddlewareMore.subscriptions :=
       [ {| MiddlewareMore.sub_user := "user-1";
            MiddlewareMore.sub_status := "active";
            MiddlewareMore.sub_created_at := 1700000000000 |} ] |}.

(** The same request for another page. *)
Definition onPath (req : MiddlewareMore.request) (pathname : string)
  : MiddlewareMore.request :=
  {| MiddlewareMore.csrf_cookie := MiddlewareMore.csrf_cookie req;
     MiddlewareMore.hdrs := MiddlewareMore.hdrs req;
     MiddlewareMore.pathname := pathname;
     MiddlewareMore.method := MiddlewareMore.method req;
     MiddlewareMore.x_csrf_token := MiddlewareMore.x_csrf_token req;
     MiddlewareMore.two_factor_ok := MiddlewareMore.two_factor_ok req;
     MiddlewareMore.payment := MiddlewareMore.payment req |}.

(** The number of alphabet characters of a secret, in either case, and the
    number of times a character occurs in a text. *)
Definition alphabetChars (s : string) : nat :=
  length (List.filter inAlphabet (list_ascii_of_string (JS.toUpperCase s))).

Definition occurrences (c : ascii) (s : string) : nat :=
  length (List.filter (Ascii.eqb c) (list_ascii_of_string s)).

(** The state [st] with other lockout rows. *)
Definition withLockouts (st : EnhancedAuthMore.authState)
  (tbl : gmap string EnhancedAuth.lockout) : EnhancedAuthMore.authState :=
  {| EnhancedAuthMore.lockouts := tbl;
     EnhancedAuthMore.sessions := EnhancedAuthMore.sessions st;
     EnhancedAuthMore.agents := EnhancedAuthMore.agents st |}.

(** Reading a Base64 text back: four characters give up to three bytes. *)
Definition base64_index (c : ascii) : Z :=
  JS.indexOf
    "ABCDEFGHIJKLMNOPQRSTUVWXYZabcdefghijklmnopqrstuvwxyz0123456789+/" c.

Fixpoint fromBase64 (l : list ascii) : list Z :=
  match l with
  | w :: x :: y :: z :: rest =>
      let a := base64_index w in
      let b := base64_index x in
      let c := base64_index y in
      let d := base64_index z in
      if Ascii.eqb y "=" then [a * 4 + b / 16]
      else if Ascii.eqb z "="
      then [a * 4 + b / 16; b mod 16 * 16 + c / 4]
      else [a * 4 + b / 16; b mod 16 * 16 + c / 4; c mod 4 * 64 + d]
           ++ fromBase64 rest
  | _ => []
  end.

(** What [Buffer.from(hash, 'base64').toString()] gives for a hash of an
    ASCII text. *)
Definition readHash (hash : string) : string :=
  string_of_list_ascii
    (map (fun b => ascii_of_nat (Z.to_nat b))
       (fromBase64 (list_ascii_of_string hash))).

Definition isAscii (c : ascii) : bool := (nat_of_ascii c <? 128)%nat.

(** All characters of a text are in a class. *)
Definition allChars (p : ascii -> bool) (s : string) : Prop :=
  Forall (fun c => p c = true) (list_ascii_of_string s).

Definition isHexUpper (c : ascii) : bool :=
  existsb (Ascii.eqb c) (list_ascii_of_string "0123456789ABCDEF").

(** * Known answers *)

(** The test secret of RFC 6238, Appendix B. *)
Definition rfc_secret : string := "GEZDGNBVGY3TQOJQGEZDGNBVGY3TQOJQ".

(** Its key: the 20 characters [12345678901234567890]. *)
Definition rfc_key : list Z :=
  [49; 50; 51; 52; 53; 54; 55; 56; 57; 48;
   49; 50; 51; 52; 53; 54; 55; 56; 57; 48].

(** The test vectors of RFC 4648, section 10, without their padding. *)
Example rfc4648_vectors :
  RFC4648.decode "" = Some []
  /\ RFC4648.decode "MY" = Some [102]
  /\ RFC4648.decode "MZXQ" = Some [102; 111]
  /\ RFC4648.decode "MZXW6" = Some [102; 111; 111]
  /\ RFC4648.decode "MZXW6YQ" = Some [102; 111; 111; 98]
  /\ RFC4648.decode "MZXW6YTB" = Some [102; 111; 111; 98; 97]
  /\ RFC4648.decode "MZXW6YTBOI" = Some [102; 111; 111; 98; 97; 114]
  /\ RFC4648.decode rfc_secret = Some rfc_key
  /\ RFC4648.decode "MZXW6YTB0I" = None.
Proof. vm_compute. done. Qed.

Example base32_foobar :
  Base32.base32Encode [102; 111; 111; 98; 97; 114] = "MZXW6YTBOI"%string.
Proof. reflexivity. Qed.

Example base32_decode_padded :
  Base32.base32Decode "mzxw6 ytboi======"%string = [102; 111; 111; 98; 97; 114].
Proof. reflexivity. Qed.

(** SHA-1 of "abc" (FIPS 180-4) and HMAC-SHA1 test case 2 of RFC 2202
    (key "Jefe", data "what do ya want for nothing?"). *)
Example sha1_abc :
  Crypto.sha1 [97; 98; 99]
  = [169; 153; 62; 54; 71; 6; 129; 106; 186; 62; 37; 113; 120; 80; 194; 108;
     156; 208; 216; 157].
Proof. vm_compute. reflexivity. Qed.

Example hmac_sha1_rfc2202_2 :
  Crypto.hmac_sha1 [74; 101; 102; 101]
    [119; 104; 97; 116; 32; 100; 111; 32; 121; 97; 32; 119; 97; 110; 116; 32;
     102; 111; 114; 32; 110; 111; 116; 104; 105; 110; 103; 63]
  = [239; 252; 223; 106; 229; 235; 47; 162; 210; 116; 22; 213; 241; 132; 223;
     156; 37; 154; 124; 121].
Proof. vm_compute. reflexivity. Qed.

(** RFC 6238, Appendix B, SHA-1 rows (times 59, 1111111109 and 1111111111
    seconds), last six digits. *)
Example rfc6238_counter_1 :
  TOTP.generateCodeForCounter rfc_secret 1 = Some "287082"%string.
Proof. vm_compute. reflexivity. Qed.

Example rfc6238_counter_37037036 :
  TOTP.generateCodeForCounter rfc_secret 37037036 = Some "081804"%string.
Proof. vm_compute. reflexivity. Qed.

Example rfc6238_counter_37037037 :
  TOTP.generateCodeForCounter rfc_secret 37037037 = Some "050471"%string.
Proof. vm_compute. reflexivity. Qed.

Example rfc6238_time_59s :
  TOTP.generateCode 1700000000000 rfc_secret (Some 59000) = Some "287082"%string.
Proof. vm_compute. reflexivity. Qed.

(** * Rate limiter *)

Lemma ceil_div_nonneg a : 0 <= a -> 0 <= JS.ceil_div a 1000.
Proof.
  intros Ha. unfold JS.ceil_div.
  assert ((- a) / 1000 <= 0) by (apply Z.div_le_upper_bound; lia). lia.
Qed.

Lemma ceil_div_pos a : 0 < a -> 0 < JS.ceil_div a 1000.
Proof.
  intros Ha. unfold JS.ceil_div.
  assert ((- a) / 1000 < 0) by (apply Z.div_lt_upper_bound; lia). lia.
Qed.

Section RateLimiter.
Import JS RateLimit.

Variable cfg : option rateLimitConfig.
Variable key : string.

Let W := effectiveWindowMs cfg.
Let M := effectiveMaxRequests cfg.

(** The two middlewares count alike: same verdict, same retry hint, same
    store. *)
Lemma checkRateLimit_agree now (store : gmap string entry) :
  let a := AdvancedSecurity.checkRateLimit cfg now key store in
  let b := Security.checkRateLimit cfg now key store in
  allowed (fst a) = allowed (fst b)
  /\ retryAfter (fst a) = retryAfter (fst b)
  /\ snd a = snd b.
Proof.
  unfold AdvancedSecurity.checkRateLimit, Security.checkRateLimit.
  destruct (store !! key) as [e|]; simpl; [|done].
  destruct (now >? resetTime e); simpl; [done|].
  destruct (count e >=? effectiveMaxRequests cfg); simpl; done.
Qed.

Lemma runCalls_agree times : forall store : gmap string entry,
  map (fun r => (allowed r, retryAfter r))
    (runCalls (AdvancedSecurity.checkRateLimit cfg) key times store)
  = map (fun r => (allowed r, retryAfter r))
      (runCalls (Security.checkRateLimit cfg) key times store).
Proof.
  induction times as [|t ts IH]; intros store; simpl; [done|].
  destruct (checkRateLimit_agree t store) as (Ha & Hr & Hs).
  destruct (AdvancedSecurity.checkRateLimit cfg t key store) as [ra sa].
  destruct (Security.checkRateLimit cfg t key store) as [rb sb].
  simpl in *. subst sb. rewrite Ha, Hr, IH. done.
Qed.

(** First request for a key, or first request after the window elapsed. *)
Lemma checkRateLimit_fresh now (store : gmap string entry) :
  (store !! key = None
   \/ exists e, store !! key = Some e /\ resetTime e < now) ->
  AdvancedSecurity.checkRateLimit cfg now key store
  = ({| allowed := true; retryAfter := None; remaining := Some (M - 1) |},
     <[key := {| count := 1; resetTime := now + W |}]> store).
Proof.
  unfold AdvancedSecurity.checkRateLimit.
  intros [-> | (e & -> & Hlt)]; [done|].
  replace (now >? resetTime e) with true by (symmetry; apply Z.gtb_lt; lia).
  done.
Qed.

(** A request inside the window, below the limit. *)
Lemma checkRateLimit_count now (store : gmap string entry) c R :
  store !! key = Some {| count := c; resetTime := R |} ->
  now <= R -> c < M ->
  AdvancedSecurity.checkRateLimit cfg now key store
  = ({| allowed := true; retryAfter := None;
        remaining := Some (M - (c + 1)) |},
     <[key := {| count := c + 1; resetTime := R |}]> store).
Proof.
  unfold AdvancedSecurity.checkRateLimit. intros -> Hn Hc. simpl.
  replace (now >? R) with false by (symmetry; rewrite Z.gtb_ltb; apply Z.ltb_ge; lia).
  replace (c >=? effectiveMaxRequests cfg) with false
    by (symmetry; rewrite Z.geb_leb; apply Z.leb_gt; done).
  done.
Qed.

(** A request inside the window, at the limit. *)
Lemma checkRateLimit_reject now (store : gmap string entry) c R :
  store !! key = Some {| count := c; resetTime := R |} ->
  now <= R -> M <= c ->
  AdvancedSecurity.checkRateLimit cfg now key store
  = ({| allowed := false;
        retryAfter := Some (ceil_div (R - now) 1000);
        remaining := Some 0 |}, store).
Proof.
  unfold AdvancedSecurity.checkRateLimit. intros -> Hn Hc. simpl.
  replace (now >? R) with false by (symmetry; rewrite Z.gtb_ltb; apply Z.ltb_ge; lia).
  replace (c >=? effectiveMaxRequests cfg) with true
    by (symmetry; rewrite Z.geb_leb; apply Z.leb_le; done).
  done.
Qed.

(** Inside one window the [j]-th further call passes exactly when the
    counter has not reached the limit. *)
Lemma runCalls_in_window ts : forall (store : gmap string entry) c R,
  store !! key = Some {| count := c; resetTime := R |} ->
  Forall (fun t => t <= R) ts ->
  map allowed (runCalls (AdvancedSecurity.checkRateLimit cfg) key ts store)
  = map (fun j => c + Z.of_nat j <? M) (seq 0 (length ts)).
Proof.
  induction ts as [|t ts IH]; intros store c R Hs Hts; [done|].
  inversion Hts as [|? ? Ht Hts']; subst.
  cbn [runCalls length seq map].
  destruct (Z.lt_ge_cases c M) as [Hc|Hc].
  - rewrite (checkRateLimit_count t store c R Hs Ht Hc).
    cbn [map allowed]. f_equal.
    + symmetry. apply Z.ltb_lt. lia.
    + rewrite (IH _ (c + 1) R); [|by rewrite lookup_insert_eq|done].
      rewrite <- seq_shift, map_map. apply map_ext. intros j.
      f_equal. lia.
  - rewrite (checkRateLimit_reject t store c R Hs Ht Hc).
    cbn [map allowed]. f_equal.
    + symmetry. apply Z.ltb_ge. lia.
    + rewrite (IH _ c R Hs Hts').
      rewrite <- seq_shift, map_map. apply map_ext. intros j.
      transitivity false; [|symmetry]; apply Z.ltb_ge; lia.
Qed.

End RateLimiter.

(** C4 (amended).  For every rate-limit key and a limit [maxRequests >= 1]:
    starting with a first request at [t0] (no entry for the key, or the
    previous window elapsed), of the calls made while [now <= resetTime]
    exactly the first [maxRequests] are allowed, in both middlewares; a call
    at the limit inside the window is rejected, leaves the store unchanged
    and reports [retryAfter = ceil((resetTime - now) / 1000)], which is never
    negative and is strictly positive when [now < resetTime]; a call after
    the window elapsed ([now > resetTime]) is allowed and resets the entry to
    [count = 1], [resetTime = now + windowMs]. *)
Theorem C4_rate_limit_window
  (cfg : option RateLimit.rateLimitConfig) (key : string)
  (store : gmap string RateLimit.entry) (t0 : Z) (ts : list Z) :
  let W := RateLimit.effectiveWindowMs cfg in
  let M := RateLimit.effectiveMaxRequests cfg in
  1 <= M ->
  (store !! key = None
   \/ exists e, store !! key = Some e /\ RateLimit.resetTime e < t0) ->
  Forall (fun t => t <= t0 + W) ts ->
  (map RateLimit.allowed
     (runCalls (Security.checkRateLimit cfg) key (t0 :: ts) store)
   = map (fun j => Z.of_nat j <? M) (seq 0 (S (length ts)))
   /\ map RateLimit.allowed
        (runCalls (AdvancedSecurity.checkRateLimit cfg) key (t0 :: ts) store)
      = map (fun j => Z.of_nat j <? M) (seq 0 (S (length ts))))
  /\ (forall now (st : gmap string RateLimit.entry) c R,
        st !! key = Some {| RateLimit.count := c; RateLimit.resetTime := R |} ->
        now <= R -> M <= c ->
        let retry := JS.ceil_div (R - now) 1000 in
        let a := AdvancedSecurity.checkRateLimit cfg now key st in
        let b := Security.checkRateLimit cfg now key st in
        RateLimit.allowed (fst a) = false /\ RateLimit.allowed (fst b) = false
        /\ RateLimit.retryAfter (fst a) = Some retry
        /\ RateLimit.retryAfter (fst b) = Some retry
        /\ snd a = st /\ snd b = st
        /\ 0 <= retry /\ (now < R -> 0 < retry))
  /\ (forall now (st : gmap string RateLimit.entry) e,
        st !! key = Some e -> RateLimit.resetTime e < now ->
        let fresh :=
          <[key := {| RateLimit.count := 1;
                      RateLimit.resetTime := now + W |}]> st in
        let a := AdvancedSecurity.checkRateLimit cfg now key st in
        let b := Security.checkRateLimit cfg now key st in
        RateLimit.allowed (fst a) = true /\ RateLimit.allowed (fst b) = true
        /\ snd a = fresh /\ snd b = fresh).
Proof.
  intros W M HM Hfresh Hts.
  assert (Hadv :
    map RateLimit.allowed
      (runCalls (AdvancedSecurity.checkRateLimit cfg) key (t0 :: ts) store)
    = map (fun j => Z.of_nat j <? M) (seq 0 (S (length ts)))).
  { cbn [runCalls].
    rewrite (checkRateLimit_fresh cfg key t0 store Hfresh).
    cbn [map RateLimit.allowed length seq]. f_equal.
    - symmetry. apply Z.ltb_lt. fold M. lia.
    - rewrite (runCalls_in_window cfg key ts _ 1 (t0 + W));
        [|by rewrite lookup_insert_eq|done].
      rewrite <- seq_shift, map_map. apply map_ext. intros j.
      fold M. f_equal. lia. }
  split; [split; [|exact Hadv]|split].
  - rewrite <- Hadv.
    pose proof (runCalls_agree cfg key (t0 :: ts) store) as Hag.
    apply (f_equal (map fst)) in Hag. rewrite !map_map in Hag.
    simpl in Hag. symmetry. exact Hag.
  - intros now st c R Hst Hn Hc. cbv zeta.
    destruct (checkRateLimit_agree cfg key now st) as (Ha & Hr & Hs).
    rewrite <- Ha, <- Hr, <- Hs.
    rewrite (checkRateLimit_reject cfg key now st c R Hst Hn Hc). simpl.
    split_and!; try done.
    + apply ceil_div_nonneg. lia.
    + intros Hlt. apply ceil_div_pos. lia.
  - intros now st e Hst He. cbv zeta.
    destruct (checkRateLimit_agree cfg key now st) as (Ha & _ & Hs).
    rewrite <- Ha, <- Hs.
    rewrite (checkRateLimit_fresh cfg key now st) by (right; eauto).
    simpl. done.
Qed.

(** Three requests a minute: of five calls inside the window three pass. *)
Lemma C4_rate_limit_window_witness :
  map RateLimit.allowed
    (runCalls
       (Security.checkRateLimit
          (Some {| RateLimit.windowMs := Some 60000;
                   RateLimit.maxRequests := Some 3 |}))
       "203.0.113.7:/api/2fa/verify"
       [1700000000000; 1700000001000; 1700000002000; 1700000003000;
        1700000060000] ∅)
  = [true; true; true; false; false].
Proof.
  refine (proj1 (proj1 (C4_rate_limit_window
    (Some {| RateLimit.windowMs := Some 60000;
             RateLimit.maxRequests := Some 3 |})
    "203.0.113.7:/api/2fa/verify" ∅ 1700000000000
    [1700000001000; 1700000002000; 1700000003000; 1700000060000]
    _ _ _))).
  - vm_compute. discriminate.
  - left. reflexivity.
  - repeat constructor; vm_compute; discriminate.
Defined.

(** C4 (as stated) fails at the last instant of the window: with a limit of
    one request per second, the second call, made exactly at [resetTime], is
    still inside the window and rejected, and its [retryAfter] is 0. *)
Lemma C4_retry_after_zero_at_window_end :
  map (fun r => (RateLimit.allowed r, RateLimit.retryAfter r))
    (runCalls
       (Security.checkRateLimit
          (Some {| RateLimit.windowMs := Some 1000;
                   RateLimit.maxRequests := Some 1 |}))
       "203.0.113.7:/api/2fa/verify"
       [1700000000000; 1700000001000] ∅)
  = [(true, None); (false, Some 0)].
Proof. vm_compute. reflexivity. Qed.

(** * Account lockout *)

Section Lockout.
Import JS EnhancedAuth.

Implicit Types (tbl : gmap string lockout) (userId ip : string).

Lemma num_or_zero (o : option Z) :
  num_or o 0 = match o with Some v => v | None => 0 end.
Proof.
  destruct o as [v|]; simpl; [|done].
  destruct (Z.eqb_spec v 0); congruence.
Qed.

Lemma recordFailedAttempt_row now stamp userId ip tbl :
  (recordFailedAttempt now stamp userId ip tbl).1 !! userId
  = Some {| failed_attempts := attemptsBefore tbl userId + 1;
            locked_until :=
              if 5 <=? attemptsBefore tbl userId + 1
              then Some (now + 15 * 60 * 1000) else None;
            ip_address := ip;
            last_attempt := stamp |}.
Proof.
  unfold recordFailedAttempt, attemptsBefore. cbn [fst].
  rewrite lookup_insert_eq, num_or_zero, Z.geb_leb.
  destruct (tbl !! userId) as [r|]; done.
Qed.

Lemma recordFailedAttempt_other now stamp userId ip tbl other :
  other <> userId ->
  (recordFailedAttempt now stamp userId ip tbl).1 !! other = tbl !! other.
Proof. intros Hne. simpl. by rewrite lookup_insert_ne. Qed.

Lemma checkAccountLockout_locked now userId tbl r L :
  tbl !! userId = Some r -> locked_until r = Some L -> now < L ->
  checkAccountLockout now userId tbl
  = ({| locked := true; remainingTime := L - now;
        failedAttempts := failed_attempts r |}, tbl).
Proof.
  intros Hr HL Hlt. unfold checkAccountLockout. rewrite Hr, HL. simpl.
  replace (now <? L) with true by (symmetry; apply Z.ltb_lt; done). done.
Qed.

Lemma checkAccountLockout_expired now userId tbl r L :
  tbl !! userId = Some r -> locked_until r = Some L -> L <= now ->
  checkAccountLockout now userId tbl
  = ({| locked := false; remainingTime := 0; failedAttempts := 0 |},
     delete userId tbl).
Proof.
  intros Hr HL Hle. unfold checkAccountLockout. rewrite Hr, HL. simpl.
  replace (now <? L) with false by (symmetry; apply Z.ltb_ge; done). done.
Qed.

(** A row that was never locked ([locked_until] is [null]) reads as a
    deadline at the epoch, so any check at a non-negative instant deletes
    it. *)
Lemma checkAccountLockout_unlocked_row now userId tbl r :
  tbl !! userId = Some r -> locked_until r = None -> 0 <= now ->
  checkAccountLockout now userId tbl
  = ({| locked := false; remainingTime := 0; failedAttempts := 0 |},
     delete userId tbl).
Proof.
  intros Hr HL Hle. unfold checkAccountLockout. rewrite Hr, HL. simpl.
  replace (now <? 0) with false by (symmetry; apply Z.ltb_ge; done). done.
Qed.

End Lockout.

(** C6.  [recordFailedAttempt] writes a row whose [failed_attempts] is the
    previous count plus one (a missing row counts 0), whose [locked_until] is
    [now + 15 minutes] exactly when the new count has reached 5 and [null]
    otherwise, and whose [last_attempt] and [ip_address] are the ones of this
    attempt; the event it logs carries the new count.  [checkAccountLockout]
    on a row with a deadline [L] answers [locked] with [L - now] remaining
    and leaves the table alone while [now < L], and deletes the row and
    answers not locked once [L <= now]. *)
Theorem C6_record_and_check_lockout
  (now stamp : Z) (userId ip : string)
  (tbl : gmap string EnhancedAuth.lockout) :
  let n := attemptsBefore tbl userId + 1 in
  let tbl' := (EnhancedAuth.recordFailedAttempt now stamp userId ip tbl).1 in
  (exists row,
      tbl' !! userId = Some row
      /\ EnhancedAuth.failed_attempts row = n
      /\ (5 <= n <->
          EnhancedAuth.locked_until row = Some (now + 15 * 60 * 1000))
      /\ (n < 5 <-> EnhancedAuth.locked_until row = None)
      /\ EnhancedAuth.last_attempt row = stamp
      /\ EnhancedAuth.ip_address row = ip)
  /\ EnhancedAuth.ev_failed_attempts
       (EnhancedAuth.recordFailedAttempt now stamp userId ip tbl).2 = n
  /\ (forall t (r : EnhancedAuth.lockout) L,
        tbl !! userId = Some r -> EnhancedAuth.locked_until r = Some L ->
        (t < L ->
         EnhancedAuth.checkAccountLockout t userId tbl
         = ({| EnhancedAuth.locked := true;
               EnhancedAuth.remainingTime := L - t;
               EnhancedAuth.failedAttempts :=
                 EnhancedAuth.failed_attempts r |}, tbl))
        /\ (L <= t ->
            EnhancedAuth.checkAccountLockout t userId tbl
            = ({| EnhancedAuth.locked := false;
                  EnhancedAuth.remainingTime := 0;
                  EnhancedAuth.failedAttempts := 0 |}, delete userId tbl))).
Proof.
  intros n tbl'. split_and!.
  - eexists. split; [apply recordFailedAttempt_row|]. simpl. fold n.
    destruct (Z.leb_spec 5 n); split_and!; try done; split; intros; try lia;
      try congruence; try discriminate.
  - unfold EnhancedAuth.recordFailedAttempt. simpl.
    rewrite num_or_zero. unfold n, attemptsBefore.
    destruct (tbl !! userId); done.
  - intros t r L Hr HL. split; intros Ht.
    + by apply (checkAccountLockout_locked t userId tbl r L).
    + by apply (checkAccountLockout_expired t userId tbl r L).
Qed.

(** The fifth failed attempt locks the account for 15 minutes; a check one
    minute later reports the 14 minutes that remain. *)
Lemma C6_record_and_check_lockout_witness :
  EnhancedAuth.checkAccountLockout 1700000060000 "user-1"
    {[ "user-1"%string := lockedRow ]}
  = ({| EnhancedAuth.locked := true;
        EnhancedAuth.remainingTime := 1700000900000 - 1700000060000;
        EnhancedAuth.failedAttempts := 5 |},
     {[ "user-1"%string := lockedRow ]}).
Proof.
  refine (proj1 (proj2 (proj2 (C6_record_and_check_lockout 0 0 "user-1" ""
    {[ "user-1"%string := lockedRow ]}))
    1700000060000 lockedRow 1700000900000 _ _) _).
  - apply lookup_singleton_eq.
  - reflexivity.
  - reflexivity.
Defined.

Example five_failures_lock :
  let fail t tbl :=
    (EnhancedAuth.recordFailedAttempt t t "user-1" "203.0.113.7" tbl).1 in
  EnhancedAuth.locked_until
    <$> fail 1700000004000 (fail 1700000003000 (fail 1700000002000
          (fail 1700000001000 (fail 1700000000000 ∅)))) !! "user-1"
  = Some (Some (1700000004000 + 900000)).
Proof. vm_compute. reflexivity. Qed.

(** C7 (the code at the failing input).  After three failed attempts the
    row counts 3 and carries no deadline; a [checkAccountLockout] one minute
    later, with no successful login and no lockout to expire, deletes the
    row, and the next failed attempt starts again at 1. *)
Theorem C7_check_deletes_unlocked_row :
  let fail t tbl :=
    (EnhancedAuth.recordFailedAttempt t t "user-1" "203.0.113.7" tbl).1 in
  let tbl3 := fail 1700000002000 (fail 1700000001000 (fail 1700000000000 ∅)) in
  let checked := EnhancedAuth.checkAccountLockout 1700000060000 "user-1" tbl3 in
  (EnhancedAuth.failed_attempts <$> tbl3 !! "user-1" = Some 3
   /\ EnhancedAuth.locked_until <$> tbl3 !! "user-1" = Some None)
  /\ checked.1 = {| EnhancedAuth.locked := false;
                    EnhancedAuth.remainingTime := 0;
                    EnhancedAuth.failedAttempts := 0 |}
  /\ checked.2 !! "user-1" = None
  /\ EnhancedAuth.failed_attempts
       <$> fail 1700000061000 checked.2 !! "user-1" = Some 1.
Proof. vm_compute. done. Qed.

(** * Session cap *)

Section SessionCap.
Import EnhancedAuth.

(** What [ORDER BY last_activity DESC] promises, whatever the tie-break. *)
Variable orderDesc : list session -> list session.
Hypothesis orderDesc_perm : forall l, Permutation (orderDesc l) l.
Hypothesis orderDesc_sorted : forall l,
  StronglySorted (fun a b => last_activity b <= last_activity a) (orderDesc l).

Implicit Types (db : list session) (s k : session) (ids : list Z).

Lemma existsb_eqb_In ids (x : Z) : existsb (Z.eqb x) ids = true <-> In x ids.
Proof.
  rewrite existsb_exists. split.
  - intros (y & Hy & Heq). apply Z.eqb_eq in Heq. by subst.
  - intros Hx. exists x. split; [done|apply Z.eqb_refl].
Qed.

Lemma filter_perm_length {A} (f : A -> bool) (l l' : list A) :
  Permutation l l' -> length (List.filter f l) = length (List.filter f l').
Proof.
  induction 1 as [|x l l' _ IH|x y l|l l' l'' _ IH1 _ IH2]; simpl.
  - done.
  - destruct (f x); simpl; congruence.
  - destruct (f x), (f y); done.
  - congruence.
Qed.

Lemma filter_and {A} (f g : A -> bool) (l : list A) :
  List.filter (fun x => f x && g x) l = List.filter g (List.filter f l).
Proof.
  induction l as [|x l IH]; simpl; [done|].
  destruct (f x); simpl; [|done]. destruct (g x); by rewrite IH.
Qed.

Lemma filter_none {A} (f : A -> bool) (l : list A) :
  (forall x, In x l -> f x = false) -> List.filter f l = [].
Proof.
  induction l as [|x l IH]; simpl; intros H; [done|].
  rewrite (H x) by auto. apply IH. auto.
Qed.

Lemma NoDup_map_inj {A B} (f : A -> B) (l : list A) x y :
  NoDup (map f l) -> In x l -> In y l -> f x = f y -> x = y.
Proof.
  induction l as [|a l IH]; simpl; [done|].
  intros Hnd [->|Hx] [->|Hy] Heq; try done.
  - apply NoDup_cons in Hnd as [Hnotin _]. exfalso. apply Hnotin.
    rewrite list_elem_of_In, Heq. by apply in_map.
  - apply NoDup_cons in Hnd as [Hnotin _]. exfalso. apply Hnotin.
    rewrite list_elem_of_In, <- Heq. by apply in_map.
  - apply NoDup_cons in Hnd as [_ Hnd]. by apply IH.
Qed.

(** After the update the active rows of the account are the ones whose id
    was not listed. *)
Lemma filter_terminate now userId ids db :
  List.filter (activeOf userId) (map (terminate now ids) db)
  = List.filter (fun s => activeOf userId s && negb (existsb (Z.eqb (id s)) ids))
      db.
Proof.
  induction db as [|s db IH]; simpl; [done|].
  rewrite IH. unfold terminate.
  destruct (existsb (Z.eqb (id s)) ids); simpl.
  - unfold activeOf at 1. simpl. by rewrite !andb_false_r.
  - by rewrite andb_true_r.
Qed.

Lemma map_id_terminate now ids db :
  map id (map (terminate now ids) db) = map id db.
Proof.
  rewrite map_map. apply map_ext. intros s. unfold terminate.
  by destruct (existsb _ _).
Qed.

Section Ordered.
Variables (userId : string) (db : list session) (keep : nat).
Hypothesis ids_unique : NoDup (map id db).

Let A := List.filter (activeOf userId) db.
Let S := orderDesc A.
Let K := firstn keep S.
Let T := skipn keep S.

Lemma S_split : S = K ++ T.
Proof. symmetry. apply firstn_skipn. Qed.

Lemma S_ids_unique : NoDup (map id S).
Proof.
  assert (NoDup (map id A)) as HA.
  { subst A. clear -ids_unique. induction db as [|s l IH]; simpl; [constructor|].
    apply NoDup_cons in ids_unique as [Hs Hl].
    destruct (activeOf userId s); simpl; [|by apply IH].
    apply NoDup_cons. split; [|by apply IH].
    intros Hin. apply Hs. rewrite list_elem_of_In in *.
    apply in_map_iff in Hin as (x & Hx & Hin). apply filter_In in Hin as [Hin _].
    rewrite <- Hx. by apply in_map. }
  assert (map id S ≡ₚ map id A) as -> by apply Permutation_map, orderDesc_perm.
  exact HA.
Qed.

Lemma In_S s : In s S <-> In s db /\ activeOf userId s = true.
Proof.
  rewrite <- filter_In. split; apply Permutation_in;
    [apply orderDesc_perm | symmetry; apply orderDesc_perm].
Qed.

(** A row of [S] is listed for termination exactly when it lies past the
    first [keep]. *)
Lemma listed_iff_in_T s :
  In s S -> (existsb (Z.eqb (id s)) (map id T) = true <-> In s T).
Proof.
  intros Hs. rewrite existsb_eqb_In. split; [|apply in_map].
  intros Hin. apply in_map_iff in Hin as (s' & Heq & Hs').
  assert (s' = s) as <-; [|done].
  apply (NoDup_map_inj id S); [apply S_ids_unique| |done|done].
  rewrite S_split. apply in_or_app. by right.
Qed.

Lemma kept_not_listed s : In s K -> existsb (Z.eqb (id s)) (map id T) = false.
Proof.
  intros Hs. apply not_true_is_false. intros Hl.
  apply listed_iff_in_T in Hl; [|rewrite S_split; apply in_or_app; by left].
  pose proof S_ids_unique as Hnd. rewrite S_split, map_app in Hnd.
  apply NoDup_app in Hnd as (_ & Hdisj & _).
  apply (Hdisj (id s)); rewrite list_elem_of_In; by apply in_map.
Qed.

Lemma active_after_terminate now :
  length (List.filter (activeOf userId) (map (terminate now (map id T)) db))
  = length K.
Proof.
  rewrite filter_terminate, filter_and. fold A.
  rewrite (filter_perm_length _ A S) by (symmetry; apply orderDesc_perm).
  rewrite S_split at 1. rewrite List.filter_app, length_app.
  replace (List.filter _ K) with K; cycle 1.
  { symmetry. apply forallb_filter_id. apply forallb_forall. intros s Hs.
    by rewrite kept_not_listed. }
  rewrite filter_none; [simpl; lia|].
  intros s Hs. apply negb_false_iff, listed_iff_in_T; [|done].
  rewrite S_split. apply in_or_app. by right.
Qed.

Lemma terminated_not_more_recent s k :
  In s T -> In k K -> last_activity s <= last_activity k.
Proof.
  intros Hs Hk. pose proof (orderDesc_sorted A) as Hsorted.
  fold S in Hsorted. rewrite S_split in Hsorted.
  apply (StronglySorted_app_1_elem_of _ K T k s Hsorted);
    by apply list_elem_of_In.
Qed.

End Ordered.

Lemma orderDesc_length l : length (orderDesc l) = length l.
Proof. apply Permutation_length, orderDesc_perm. Qed.

Lemma In_activeIds userId db x :
  In x (activeIds userId db)
  <-> exists s, In s db /\ activeOf userId s = true /\ id s = x.
Proof.
  unfold activeIds. rewrite in_map_iff. split.
  - intros (s & Hx & Hs). apply filter_In in Hs as [? ?]. eauto.
  - intros (s & Hs & Ha & Hx). exists s. split; [done|]. by apply filter_In.
Qed.

End SessionCap.

(** The insertion sort is such an ordering. *)
Lemma insertDesc_perm s l :
  Permutation (EnhancedAuth.insertDesc s l) (s :: l).
Proof.
  induction l as [|x l IH]; simpl; [done|].
  destruct (_ <=? _); [done|]. rewrite IH. apply perm_swap.
Qed.

Lemma sortDesc_perm l : Permutation (EnhancedAuth.sortDesc l) l.
Proof.
  induction l as [|x l IH]; simpl; [done|].
  rewrite insertDesc_perm. by constructor.
Qed.

Lemma insertDesc_sorted s l :
  StronglySorted
    (fun a b => EnhancedAuth.last_activity b <= EnhancedAuth.last_activity a) l ->
  StronglySorted
    (fun a b => EnhancedAuth.last_activity b <= EnhancedAuth.last_activity a)
    (EnhancedAuth.insertDesc s l).
Proof.
  induction 1 as [|x l Hl IH Hx]; simpl; [by repeat constructor|].
  destruct (Z.leb_spec (EnhancedAuth.last_activity x)
              (EnhancedAuth.last_activity s)) as [Hle|Hlt].
  - constructor; [by constructor|]. constructor; [done|].
    eapply Forall_impl; [exact Hx|]. simpl. intros; lia.
  - constructor; [done|].
    rewrite (insertDesc_perm s l). constructor; [lia|done].
Qed.

Lemma sortDesc_sorted l :
  StronglySorted
    (fun a b => EnhancedAuth.last_activity b <= EnhancedAuth.last_activity a)
    (EnhancedAuth.sortDesc l).
Proof.
  induction l as [|x l IH]; simpl; [constructor|]. by apply insertDesc_sorted.
Qed.

(** C5.  Whatever order the database breaks ties in, after the "check
    concurrent sessions" step of [checkAuth] at most 5 sessions of the
    account are active; when more than 5 were active (a 6th session was just
    added) exactly 5 are active afterwards; every session the step
    deactivated was active no later than every session it left active (the
    5 most recently active stay); no session becomes active and no row is
    added or removed.  Session ids are the table's primary key. *)
Theorem C5_session_cap
  (orderDesc : list EnhancedAuth.session -> list EnhancedAuth.session)
  (now : Z) (userId : string) (db : list EnhancedAuth.session) :
  (forall l, Permutation (orderDesc l) l) ->
  (forall l,
      StronglySorted
        (fun a b => EnhancedAuth.last_activity b <= EnhancedAuth.last_activity a)
        (orderDesc l)) ->
  NoDup (map EnhancedAuth.id db) ->
  let db' := EnhancedAuth.checkConcurrentSessions orderDesc now userId db in
  (EnhancedAuth.getActiveSessionCount userId db' <= 5)%nat
  /\ ((5 < EnhancedAuth.getActiveSessionCount userId db)%nat ->
      EnhancedAuth.getActiveSessionCount userId db' = 5%nat)
  /\ (forall s k,
        In s db -> In k db ->
        EnhancedAuth.activeOf userId s = true ->
        EnhancedAuth.activeOf userId k = true ->
        ~ In (EnhancedAuth.id s) (activeIds userId db') ->
        In (EnhancedAuth.id k) (activeIds userId db') ->
        EnhancedAuth.last_activity s <= EnhancedAuth.last_activity k)
  /\ (forall x, In x (activeIds userId db') -> In x (activeIds userId db))
  /\ map EnhancedAuth.id db' = map EnhancedAuth.id db.
Proof.
  intros Hperm Hsorted Hnd db'.
  unfold EnhancedAuth.checkConcurrentSessions,
    EnhancedAuth.SESSION_CONFIG_maxConcurrentSessions in db'.
  unfold EnhancedAuth.getActiveSessionCount in *.
  destruct (Nat.ltb_spec 5
              (length (List.filter (EnhancedAuth.activeOf userId) db)))
    as [Hmore|Hfew]; subst db'.
  - unfold EnhancedAuth.terminateOldestSessions.
    rewrite (orderDesc_length orderDesc Hperm).
    destruct (Nat.ltb_spec 5
                (length (List.filter (EnhancedAuth.activeOf userId) db)))
      as [_|?]; [|lia].
    set (S := orderDesc (List.filter (EnhancedAuth.activeOf userId) db)).
    set (T := skipn 5 S).
    assert (Hcount :
      length (List.filter (EnhancedAuth.activeOf userId)
                (map (EnhancedAuth.terminate now (map EnhancedAuth.id T)) db))
      = 5%nat).
    { unfold T, S.
      rewrite (active_after_terminate orderDesc Hperm userId db 5 Hnd now).
      rewrite length_take, (orderDesc_length orderDesc Hperm). lia. }
    split_and!.
    + lia.
    + done.
    + intros s k Hs Hk Has Hak Hoff Hon.
      unfold activeIds in Hoff, Hon. rewrite filter_terminate in Hoff, Hon.
      assert (In s S) as HsS by (apply In_S; done).
      assert (In k S) as HkS by (apply In_S; done).
      assert (In s T) as HsT.
      { apply (listed_iff_in_T orderDesc Hperm userId db 5 Hnd s HsS).
        apply not_false_iff_true. intros Hl. fold S T in Hl. apply Hoff.
        apply in_map, filter_In. by rewrite Has, Hl. }
      assert (In k (firstn 5 S)) as HkK.
      { apply in_map_iff in Hon as (k' & Hid & Hk').
        apply filter_In in Hk' as [Hk'db Hk'].
        apply andb_true_iff in Hk' as [Hk'a Hk'l].
        assert (k' = k) as ->
          by (apply (NoDup_map_inj EnhancedAuth.id db); done).
        rewrite <- (firstn_skipn 5 S) in HkS.
        apply in_app_or in HkS as [?|HkT]; [done|].
        apply (listed_iff_in_T orderDesc Hperm userId db 5 Hnd) in HkT;
          [|by apply In_S].
        fold S T in HkT. rewrite HkT in Hk'l. done. }
      by apply (terminated_not_more_recent orderDesc Hsorted userId db 5).
    + intros x. rewrite !In_activeIds.
      intros (s & Hs & Ha & Hx).
      apply in_map_iff in Hs as (s0 & Hs0 & Hin). exists s0.
      unfold EnhancedAuth.terminate in Hs0.
      destruct (existsb _ _); subst s; [|done].
      unfold EnhancedAuth.activeOf in Ha. simpl in Ha.
      by rewrite andb_false_r in Ha.
    + apply map_id_terminate.
  - split_and!; try done; try lia.
    intros s k Hs _ Has _ Hoff _. exfalso. apply Hoff.
    apply In_activeIds. eauto.
Qed.

(** With six active sessions the step leaves five, and the one it
    deactivates is session 2, the least recently active. *)
Lemma C5_session_cap_witness :
  EnhancedAuth.getActiveSessionCount "user-1"
    (EnhancedAuth.checkConcurrentSessions EnhancedAuth.sortDesc 1700000700000
       "user-1" six_sessions) = 5%nat.
Proof.
  refine (proj1 (proj2 (C5_session_cap EnhancedAuth.sortDesc 1700000700000
    "user-1" six_sessions sortDesc_perm sortDesc_sorted _)) _).
  - apply (bool_decide_unpack _). vm_compute. exact I.
  - vm_compute. lia.
Defined.

Example six_sessions_after :
  activeIds "user-1"
    (EnhancedAuth.checkConcurrentSessions EnhancedAuth.sortDesc 1700000700000
       "user-1" six_sessions) = [1; 4; 5; 6; 7].
Proof. vm_compute. reflexivity. Qed.

(** * Backup codes *)

Section BackupCodes.
Import JS TOTP BackupRoute.

Lemma string_of_list_ascii_inj l l' :
  string_of_list_ascii l = string_of_list_ascii l' -> l = l'.
Proof.
  intros H. apply (f_equal list_ascii_of_string) in H.
  by rewrite !list_ascii_of_string_of_list_ascii in H.
Qed.

Lemma length_string_of_list_ascii l :
  String.length (string_of_list_ascii l) = length l.
Proof. induction l as [|c l IH]; simpl; congruence. Qed.

Lemma upper_upper_char c : upper_char (upper_char c) = upper_char c.
Proof. destruct c as [[] [] [] [] [] [] [] []]; reflexivity. Qed.

Lemma upper_lower_char c : upper_char (lower_char c) = upper_char c.
Proof. destruct c as [[] [] [] [] [] [] [] []]; reflexivity. Qed.

Lemma is_space_upper_char c : is_space (upper_char c) = is_space c.
Proof. destruct c as [[] [] [] [] [] [] [] []]; reflexivity. Qed.

Lemma upper_chars_idem c : flat_map upper_chars (upper_chars c) = upper_chars c.
Proof. destruct c as [[] [] [] [] [] [] [] []]; reflexivity. Qed.

Lemma upper_chars_lower c : upper_chars (lower_char c) = upper_chars c.
Proof. destruct c as [[] [] [] [] [] [] [] []]; reflexivity. Qed.

Lemma upper_chars_strip c :
  List.filter (fun d => negb (is_space d)) (upper_chars c)
  = if is_space c then [] else upper_chars c.
Proof. destruct c as [[] [] [] [] [] [] [] []]; reflexivity. Qed.

Lemma toUpperCase_chars s :
  list_ascii_of_string (toUpperCase s)
  = flat_map upper_chars (list_ascii_of_string s).
Proof. unfold toUpperCase. by rewrite list_ascii_of_string_of_list_ascii. Qed.

(** Where every character is its own upper-case form, so is the text. *)
Lemma flat_map_upper_fixed l :
  Forall (fun c => upper_chars c = [c]) l -> flat_map upper_chars l = l.
Proof.
  induction 1 as [|c l Hc _ IH]; [done|]. cbn [flat_map]. by rewrite Hc, IH.
Qed.

Lemma toUpperCase_idem s : toUpperCase (toUpperCase s) = toUpperCase s.
Proof.
  unfold toUpperCase at 1. rewrite toUpperCase_chars. unfold toUpperCase.
  f_equal. induction (list_ascii_of_string s) as [|c l IH]; [done|].
  cbn [flat_map]. by rewrite flat_map_app, IH, upper_chars_idem.
Qed.

Lemma toUpperCase_lower s : toUpperCase (toLowerCase s) = toUpperCase s.
Proof.
  unfold toUpperCase, toLowerCase.
  rewrite list_ascii_of_string_of_list_ascii. f_equal.
  induction (list_ascii_of_string s) as [|c l IH]; [done|].
  cbn [map flat_map]. by rewrite IH, upper_chars_lower.
Qed.

Lemma filter_map_comm {A} (f : A -> A) (p : A -> bool) (l : list A) :
  (forall x, p (f x) = p x) ->
  List.filter p (map f l) = map f (List.filter p l).
Proof.
  intros H. induction l as [|x l IH]; simpl; [done|].
  rewrite H. destruct (p x); simpl; by rewrite IH.
Qed.

(** Upper-casing and stripping white space commute. *)
Lemma strip_upper s :
  strip_spaces (toUpperCase s) = toUpperCase (strip_spaces s).
Proof.
  unfold strip_spaces, toUpperCase.
  rewrite !list_ascii_of_string_of_list_ascii. f_equal.
  induction (list_ascii_of_string s) as [|c l IH]; [done|].
  cbn [flat_map List.filter]. rewrite List.filter_app, IH, upper_chars_strip.
  by destruct (is_space c).
Qed.

Lemma strip_spaces_idem s : strip_spaces (strip_spaces s) = strip_spaces s.
Proof.
  unfold strip_spaces. rewrite list_ascii_of_string_of_list_ascii. f_equal.
  rewrite <- filter_and. apply List.filter_ext. intros c. by rewrite andb_diag.
Qed.

Lemma includes_In l x : includes l x = true <-> In x l.
Proof.
  unfold includes. rewrite existsb_exists. split.
  - intros (y & Hy & Heq). apply String.eqb_eq in Heq. by subst.
  - intros Hx. exists x. split; [done|apply String.eqb_refl].
Qed.

Lemma In_removeUsed code stored c :
  In c (removeUsed code stored) <-> In c stored /\ c <> toUpperCase code.
Proof.
  unfold removeUsed. rewrite filter_In, negb_true_iff.
  by rewrite String.eqb_neq.
Qed.

End BackupCodes.

Lemma normalized_in submitted stored :
  TOTP.verifyBackupCode submitted stored = true ->
  In (JS.strip_spaces (JS.toUpperCase submitted)) stored.
Proof. apply includes_In. Qed.

Lemma verify_after_removal submitted stored :
  noSpaces submitted ->
  TOTP.verifyBackupCode submitted (BackupRoute.removeUsed submitted stored)
  = false.
Proof.
  intros Hns. unfold TOTP.verifyBackupCode. apply not_true_is_false.
  rewrite includes_In, In_removeUsed, strip_upper, Hns. intros [_ Hne]. done.
Qed.

(** A text whose upper-case form has no white space has none itself. *)
Lemma upper_chars_no_space c :
  forallb (fun d => negb (JS.is_space d)) (JS.upper_chars c)
  = negb (JS.is_space c).
Proof. destruct c as [[] [] [] [] [] [] [] []]; reflexivity. Qed.

Lemma filter_fixed_forallb {A} (f : A -> bool) (l : list A) :
  List.filter f l = l <-> forallb f l = true.
Proof.
  induction l as [|x l IH]; simpl; [done|].
  destruct (f x) eqn:Hx; simpl.
  - rewrite <- IH. split; [by intros [= ->]|by intros ->].
  - split; [|done]. intros H.
    pose proof (List.filter_length_le f l) as Hle.
    apply (f_equal (@length A)) in H. simpl in H. lia.
Qed.

Lemma noSpaces_forallb s :
  noSpaces s
  <-> forallb (fun c => negb (JS.is_space c)) (list_ascii_of_string s) = true.
Proof.
  unfold noSpaces, JS.strip_spaces. rewrite <- filter_fixed_forallb. split.
  - intros H. apply (f_equal list_ascii_of_string) in H.
    by rewrite list_ascii_of_string_of_list_ascii in H.
  - intros ->. apply string_of_list_ascii_of_string.
Qed.

Lemma noSpaces_upper s : noSpaces (JS.toUpperCase s) -> noSpaces s.
Proof.
  rewrite !noSpaces_forallb, toUpperCase_chars.
  induction (list_ascii_of_string s) as [|c l IH]; [done|].
  cbn [flat_map forallb]. rewrite forallb_app, upper_chars_no_space.
  intros [-> H]%andb_true_iff. by apply IH.
Qed.

Lemma filter_full_length {A} (f : A -> bool) (l : list A) :
  length (List.filter f l) = length l -> List.filter f l = l.
Proof.
  induction l as [|x l IH]; simpl; [done|].
  pose proof (List.filter_length_le f l).
  destruct (f x); simpl; intros H'; [f_equal; apply IH|]; lia.
Qed.

(** An accepted submission that is as long as the stored codes, and whose
    upper-case form is as long as itself, holds no white space. *)
Lemma accepted_same_length code stored n :
  Forall (fun c => String.length c = n) stored ->
  String.length code = n ->
  String.length (JS.toUpperCase code) = String.length code ->
  TOTP.verifyBackupCode code stored = true -> noSpaces code.
Proof.
  intros Hstored Hlen Hup Hv. apply noSpaces_upper.
  apply normalized_in in Hv. rewrite Forall_forall in Hstored.
  apply list_elem_of_In, Hstored in Hv.
  unfold noSpaces, JS.strip_spaces in *.
  rewrite length_string_of_list_ascii in Hv.
  rewrite filter_full_length.
  - apply string_of_list_ascii_of_string.
  - rewrite Hv, <- Hlen, <- Hup, <- length_string_of_list_ascii.
    by rewrite string_of_list_ascii_of_string.
Qed.

(** Upper-casing keeps the length of a text without U+00DF. *)
Lemma toUpperCase_length s :
  Forall (fun c => nat_of_ascii c <> 223%nat) (list_ascii_of_string s) ->
  String.length (JS.toUpperCase s) = String.length s.
Proof.
  intros Hs. unfold JS.toUpperCase.
  rewrite length_string_of_list_ascii.
  rewrite <- (string_of_list_ascii_of_string s) at 2.
  rewrite length_string_of_list_ascii.
  induction Hs as [|c l Hc _ IH]; [done|].
  cbn [flat_map]. rewrite length_app, IH. unfold JS.upper_chars.
  by destruct (Nat.eqb_spec (nat_of_ascii c) 223).
Qed.

(** C8 (amended).  [verifyBackupCode] accepts a submission exactly when its
    upper-case form with all white space stripped is one of the stored codes
    (for a submission whose capitals lie in the modelled range), so it does
    not tell submissions apart that differ in case or white space; and when
    the submission holds no white space, the caller's removal (dropping the
    entries equal to the upper-cased submission) makes a second submission
    of the same code fail. *)
Theorem C8_backup_code_single_use (submitted : string) (stored : list string) :
  (JS.capitalsInRange submitted ->
   (TOTP.verifyBackupCode submitted stored = true
    <-> In (JS.strip_spaces (JS.toUpperCase submitted)) stored))
  /\ TOTP.verifyBackupCode (JS.toLowerCase submitted) stored
     = TOTP.verifyBackupCode submitted stored
  /\ TOTP.verifyBackupCode (JS.toUpperCase submitted) stored
     = TOTP.verifyBackupCode submitted stored
  /\ TOTP.verifyBackupCode (JS.strip_spaces submitted) stored
     = TOTP.verifyBackupCode submitted stored
  /\ (noSpaces submitted ->
      TOTP.verifyBackupCode submitted
        (BackupRoute.removeUsed submitted stored) = false).
Proof.
  unfold TOTP.verifyBackupCode. split_and!.
  - intros _. apply includes_In.
  - by rewrite toUpperCase_lower.
  - by rewrite toUpperCase_idem.
  - by rewrite !strip_upper, strip_spaces_idem.
  - apply verify_after_removal.
Qed.

Lemma C8_backup_code_single_use_witness :
  TOTP.verifyBackupCode "a1b2c3d4"
    (BackupRoute.removeUsed "a1b2c3d4" ["0F9E8D7C"; "A1B2C3D4"]%string)
  = false.
Proof.
  refine (proj2 (proj2 (proj2 (proj2 (C8_backup_code_single_use "a1b2c3d4"
    ["0F9E8D7C"; "A1B2C3D4"]%string)))) _).
  vm_compute. reflexivity.
Defined.

(** C8 (as stated) fails for a submission with white space in it: the
    verification strips the space and matches, the removal compares with the
    unstripped text and removes nothing, and the same submission is accepted
    again. *)
Lemma C8_backup_code_reused :
  TOTP.verifyBackupCode "a1b2 c3d4" ["0F9E8D7C"; "A1B2C3D4"]%string = true
  /\ BackupRoute.removeUsed "a1b2 c3d4" ["0F9E8D7C"; "A1B2C3D4"]%string
     = ["0F9E8D7C"; "A1B2C3D4"]%string
  /\ TOTP.verifyBackupCode "a1b2 c3d4"
       (BackupRoute.removeUsed "a1b2 c3d4" ["0F9E8D7C"; "A1B2C3D4"]%string)
     = true.
Proof. vm_compute. done. Qed.

(** In the route the length guard closes the hole when upper-casing keeps
    the length of the submission, as it does for every text without U+00DF:
    an accepted submission then has 8 characters like the stored code it
    matched, so it holds no white space, and the same request is answered
    "not valid" the second time. *)
Lemma backup_route_single_use user code stored :
  Forall (fun c => String.length c = 8%nat) stored ->
  String.length (JS.toUpperCase code) = String.length code ->
  (BackupRoute.POST (Some user) (Some code) (Some stored)).1
  = BackupRoute.Valid200 ->
  (BackupRoute.POST (Some user) (Some code)
     (BackupRoute.POST (Some user) (Some code) (Some stored)).2).1
  = BackupRoute.NotValid200.
Proof.
  intros Hstored Hup. unfold BackupRoute.POST.
  destruct (Nat.eqb_spec (String.length code) 8) as [Hlen|]; [|done].
  cbn [negb]. destruct (TOTP.verifyBackupCode code stored) eqn:Hv; [|done].
  intros _. cbn [negb fst snd].
  destruct (Nat.eqb_spec (String.length code) 8) as [_|]; [|done].
  cbn [negb].
  rewrite (verify_after_removal code stored
             (accepted_same_length code stored 8 Hstored Hlen Hup Hv)).
  done.
Qed.

(** Without that, the guard does not help: U+00DF and a no-break space
    followed by six characters are 8 characters, accepted for the stored
    code that starts with [SS], left in the store by the removal and
    accepted again. *)
Example backup_route_reuse_eszett :
  let code := String "223" (String "160" "ABCDEF") in
  String.length code = 8%nat
  /\ BackupRoute.POST (Some "user-1"%string) (Some code)
       (Some ["SSABCDEF"%string])
     = (BackupRoute.Valid200, Some ["SSABCDEF"%string])
  /\ (BackupRoute.POST (Some "user-1"%string) (Some code)
        (BackupRoute.POST (Some "user-1"%string) (Some code)
           (Some ["SSABCDEF"%string])).2).1
     = BackupRoute.Valid200.
Proof. vm_compute. done. Qed.

(** * The two-factor step *)

Lemma handle_ignores_marker cfg req cookie code :
  AdvancedSecurity.handleAfterRateLimit cfg (withMarker req cookie code)
  = AdvancedSecurity.handleAfterRateLimit cfg req.
Proof. reflexivity. Qed.

(** C9 (amended).  On a configuration that demands authentication and 2FA,
    the two-factor step of [AdvancedSecurityMiddleware.handle] denies with 403
    exactly the signed-in accounts that have no enabled TOTP credential; an
    account with an enabled credential passes the step, whatever marker
    cookie or code its request carries (the pipeline goes on with the
    subscription step).  The "2FA satisfied" marker is enforced by
    [middleware] instead: on a path under /vault/, /account or /settings a
    signed-in account with an enabled credential is redirected to
    /two-factor-auth unless the cookie [two_factor_ok] is "1", and goes on
    when it is. *)
Theorem C9_two_factor_step
  (cfg : AdvancedSecurity.SecurityConfig) (req : AdvancedSecurity.Request)
  (user : string) :
  AdvancedSecurity.requireAuth cfg = true ->
  AdvancedSecurity.require2FA cfg = true ->
  AdvancedSecurity.authUser req = Some user ->
  (AdvancedSecurity.twoFactorEnabled req = false ->
   AdvancedSecurity.handleAfterRateLimit cfg req
   = (Some {| AdvancedSecurity.status := 403;
              AdvancedSecurity.error := "Two-factor authentication required" |},
      ["2fa_required"%string]))
  /\ (AdvancedSecurity.twoFactorEnabled req = true ->
      forall cookie code,
        AdvancedSecurity.handleAfterRateLimit cfg (withMarker req cookie code)
        = AdvancedSecurity.handleAfterAuth cfg req)
  /\ (forall pathname cookie,
        Middleware.startsWith pathname "/vault/"
        || Middleware.startsWith pathname "/account"
        || Middleware.startsWith pathname "/settings" = true ->
        Middleware.twoFactorEnforcement pathname (Some user) (Some true) cookie
        = if bool_decide (cookie = Some "1"%string)
          then Middleware.Continue
          else Middleware.Redirect "/two-factor-auth").
Proof.
  intros Hauth H2fa Huser. split_and!.
  - intros Hoff. unfold AdvancedSecurity.handleAfterRateLimit.
    by rewrite Hauth, Huser, H2fa, Hoff.
  - intros Hon cookie code. rewrite handle_ignores_marker.
    unfold AdvancedSecurity.handleAfterRateLimit.
    by rewrite Hauth, Huser, H2fa, Hon.
  - intros pathname cookie Hpath. unfold Middleware.twoFactorEnforcement.
    rewrite Hpath. by destruct (bool_decide _).
Qed.

Lemma C9_two_factor_step_witness :
  AdvancedSecurity.handleAfterRateLimit adminConfig
    (withMarker unverifiedRequest (Some "1"%string) None)
  = AdvancedSecurity.handleAfterAuth adminConfig unverifiedRequest.
Proof.
  refine (proj1 (proj2 (C9_two_factor_step adminConfig unverifiedRequest
    "user-1" _ _ _)) _ (Some "1"%string) None); reflexivity.
Defined.

(** C9 (as stated) fails in [handle]: with the guide's admin configuration a
    request of an account with an enabled credential, carrying neither the
    marker nor a code, is not denied; it passes every step and is logged as a
    successful access. *)
Lemma C9_enabled_account_passes_without_marker :
  AdvancedSecurity.cookieTwoFactorOk unverifiedRequest = None
  /\ AdvancedSecurity.submittedCode unverifiedRequest = None
  /\ AdvancedSecurity.twoFactorEnabled unverifiedRequest = true
  /\ (AdvancedSecurity.handle adminConfig 1700000000000 unverifiedRequest ∅).1
     = (None, ["successful_access"%string]).
Proof. vm_compute. done. Qed.

(** * The time argument of generateCode *)

Lemma counterOf_div ms : TOTP.counterOf ms = ms / 30000.
Proof.
  unfold TOTP.counterOf, JS.floor, TOTP.PERIOD. cbn. by rewrite !Z.mul_1_r.
Qed.

(** A counter below zero does not fit the unsigned 8-byte buffer. *)
Lemma generateCodeForCounter_negative secret counter :
  counter < 0 -> TOTP.generateCodeForCounter secret counter = None.
Proof.
  intros Hc. unfold TOTP.generateCodeForCounter, TOTP.writeBigUInt64BE.
  by replace (0 <=? counter) with false by (symmetry; apply Z.leb_gt; lia).
Qed.

(** C10 (amended).  [generateCode] reads its time argument in milliseconds:
    for every [time] above 0 and below 2^53 the counter is
    [floor(time / 1000 / 30)]; a negative [time] makes the call throw; a
    [time] of 0 is falsy and the call is the same as one without a time, on
    the current clock.  The code of the epoch's own time step (counter 0) is
    still what every [time] from 1 to 29999 returns. *)
Theorem C10_generateCode_time (clock : Z) (secret : string) (time : Z) :
  0 <= clock < 2 ^ 53 ->
  (0 < time < 2 ^ 53 ->
   TOTP.generateCode clock secret (Some time)
   = TOTP.generateCodeForCounter secret (time / 30000))
  /\ (time < 0 -> TOTP.generateCode clock secret (Some time) = None)
  /\ TOTP.generateCode clock secret (Some 0)
     = TOTP.generateCode clock secret None
  /\ TOTP.generateCode clock secret (Some 0)
     = TOTP.generateCodeForCounter secret (clock / 30000)
  /\ (0 < time < 30000 ->
      TOTP.generateCode clock secret (Some time)
      = TOTP.generateCodeForCounter secret 0).
Proof.
  intros _. unfold TOTP.generateCode. rewrite !counterOf_div. split_and!.
  - intros Hne. simpl. destruct (Z.eqb_spec time 0); [lia|done].
  - intros Hneg. simpl. destruct (Z.eqb_spec time 0); [lia|].
    apply generateCodeForCounter_negative.
    apply Z.div_lt_upper_bound; lia.
  - done.
  - done.
  - intros Ht. simpl. destruct (Z.eqb_spec time 0); [lia|].
    by rewrite Z.div_small by lia.
Qed.

Lemma C10_generateCode_time_witness :
  TOTP.generateCode 1700000000000 rfc_secret (Some 59000)
  = TOTP.generateCodeForCounter rfc_secret (59000 / 30000).
Proof.
  refine (proj1 (C10_generateCode_time 1700000000000 rfc_secret 59000 _) _).
  - split; [discriminate|reflexivity].
  - split; reflexivity.
Defined.

(** C10 (as stated) fails in its last clause: the code of the Unix epoch's
    time step is reached through [generateCode] with a time of one
    millisecond, while a time of 0 returns the code of the current clock. *)
Lemma C10_epoch_code_reachable :
  TOTP.generateCode 1700000000000 rfc_secret (Some 1)
  = TOTP.generateCodeForCounter rfc_secret 0
  /\ TOTP.generateCodeForCounter rfc_secret 0 = Some "755224"%string
  /\ TOTP.generateCode 1700000000000 rfc_secret (Some 0)
     = Some "921300"%string.
Proof. vm_compute. done. Qed.

(** * Arithmetic of the 32-bit operators *)

Section Int32.
Import JS.

Lemma ToInt32_range x : - 2 ^ 31 <= ToInt32 x < 2 ^ 31.
Proof. unfold ToInt32. pose proof (Z.mod_pos_bound (x + 2 ^ 31) (2 ^ 32)). lia. Qed.

Lemma ToInt32_small x : - 2 ^ 31 <= x < 2 ^ 31 -> ToInt32 x = x.
Proof. intros H. unfold ToInt32. rewrite Z.mod_small; lia. Qed.

Lemma ToInt32_mod x : ToInt32 x mod 2 ^ 32 = x mod 2 ^ 32.
Proof.
  unfold ToInt32. rewrite Zminus_mod_idemp_l. f_equal. lia.
Qed.

Lemma ToUint32_small x : 0 <= x < 2 ^ 32 -> ToUint32 x = x.
Proof. intros H. unfold ToUint32. by rewrite Z.mod_small. Qed.

Lemma mod_mod_pow2 x w : 0 <= w <= 32 -> (x mod 2 ^ 32) mod 2 ^ w = x mod 2 ^ w.
Proof.
  intros Hw. apply Z.mod_mod_divide.
  exists (2 ^ (32 - w)). rewrite <- Z.pow_add_r by lia. f_equal. lia.
Qed.

Lemma mod32_mod_pow2 a b w :
  0 <= w <= 32 -> a mod 2 ^ 32 = b mod 2 ^ 32 -> a mod 2 ^ w = b mod 2 ^ w.
Proof.
  intros Hw Hab. by rewrite <- (mod_mod_pow2 a), <- (mod_mod_pow2 b), Hab.
Qed.

(** Bits [s .. s+w-1] of a number depend on its low 32 bits only. *)
Lemma div_mod_pow2_cong a b s w :
  0 <= s -> 0 <= w -> s + w <= 32 -> a mod 2 ^ 32 = b mod 2 ^ 32 ->
  (a / 2 ^ s) mod 2 ^ w = (b / 2 ^ s) mod 2 ^ w.
Proof.
  intros Hs Hw Hsw Hab.
  assert (H : forall x, (x / 2 ^ s) mod 2 ^ w = (x mod 2 ^ (s + w)) / 2 ^ s).
  { intros x. rewrite Z.pow_add_r by lia. rewrite Z.rem_mul_r by lia.
    rewrite (Z.mul_comm (2 ^ s)), Z.div_add by lia.
    rewrite (Z.div_small (x mod 2 ^ s)) by (apply Z.mod_pos_bound; lia).
    done. }
  rewrite !H. f_equal. apply mod32_mod_pow2; [lia|done].
Qed.

Lemma land_shifted_low a b n :
  0 <= n -> 0 <= b < 2 ^ n -> Z.land (a * 2 ^ n) b = 0.
Proof.
  intros Hn Hb. apply Z.bits_inj'. intros i Hi.
  rewrite Z.land_spec, Z.bits_0.
  destruct (Z.lt_ge_cases i n) as [Hlt|Hge].
  - by rewrite Z.mul_pow2_bits_low.
  - destruct (Z.eq_dec b 0) as [->|Hne]; [by rewrite Z.bits_0, andb_false_r|].
    rewrite (Z.bits_above_log2 b i), andb_false_r; [done|lia|].
    apply Z.log2_lt_pow2; [lia|].
    apply Z.lt_le_trans with (2 ^ n); [lia|]. apply Z.pow_le_mono_r; lia.
Qed.

Lemma lor_shifted_low a b n :
  0 <= n -> 0 <= b < 2 ^ n -> Z.lor (a * 2 ^ n) b = a * 2 ^ n + b.
Proof.
  intros Hn Hb. pose proof (land_shifted_low a b n Hn Hb) as H0.
  by rewrite <- (Z.lxor_lor _ _ H0), (Z.add_nocarry_lxor _ _ H0).
Qed.

(** [x & (2^w - 1)] keeps the low [w] bits. *)
Lemma band_ones x w :
  0 <= w <= 31 -> band x (2 ^ w - 1) = x mod 2 ^ w.
Proof.
  intros Hw. unfold band.
  assert (2 ^ w <= 2 ^ 31) by (apply Z.pow_le_mono_r; lia).
  assert (0 < 2 ^ w) by (apply Z.pow_pos_nonneg; lia).
  rewrite (ToInt32_small (2 ^ w - 1)) by lia.
  replace (2 ^ w - 1) with (Z.ones w) by (rewrite Z.ones_equiv; lia).
  rewrite Z.land_ones by lia.
  apply mod32_mod_pow2; [lia|apply ToInt32_mod].
Qed.

(** [v << k] is [v * 2^k] up to the low 32 bits. *)
Lemma shl_mod v k :
  0 <= k < 32 -> shl v k mod 2 ^ 32 = (v * 2 ^ k) mod 2 ^ 32.
Proof.
  intros Hk. unfold shl. rewrite (ToUint32_small k) by lia.
  rewrite (Z.mod_small k 32) by lia. rewrite Z.shiftl_mul_pow2 by lia.
  rewrite ToInt32_mod. rewrite <- Zmult_mod_idemp_l, ToInt32_mod.
  by rewrite Zmult_mod_idemp_l.
Qed.

Lemma shl_small v k :
  0 <= k < 32 -> 0 <= v -> v * 2 ^ k < 2 ^ 31 -> shl v k = v * 2 ^ k.
Proof.
  intros Hk Hv Hlt. unfold shl. rewrite (ToUint32_small k) by lia.
  rewrite (Z.mod_small k 32) by lia. rewrite Z.shiftl_mul_pow2 by lia.
  assert (0 < 2 ^ k) by (apply Z.pow_pos_nonneg; lia).
  assert (v <= v * 2 ^ k) by nia.
  rewrite (ToInt32_small v) by lia. apply ToInt32_small. nia.
Qed.

(** [(v << k) | d] appends the [k] bits [d] to [v], up to the low 32 bits. *)
Lemma shl_bor_mod v k d :
  0 <= k < 32 -> 0 <= d < 2 ^ k ->
  bor (shl v k) d mod 2 ^ 32 = (v * 2 ^ k + d) mod 2 ^ 32.
Proof.
  intros Hk Hd. unfold bor.
  assert (2 ^ k <= 2 ^ 31) by (apply Z.pow_le_mono_r; lia).
  rewrite (ToInt32_small d) by lia.
  rewrite (ToInt32_small (shl v k)) by apply ToInt32_range.
  assert (Hlow : shl v k mod 2 ^ k = 0).
  { rewrite (mod32_mod_pow2 _ (v * 2 ^ k) k); [|lia|by apply shl_mod].
    apply Z.mod_mul. lia. }
  apply Z.div_exact in Hlow; [|lia].
  rewrite Hlow at 1. rewrite (Z.mul_comm (2 ^ k)), lor_shifted_low by lia.
  rewrite (Z.mul_comm _ (2 ^ k)), <- Hlow.
  by rewrite <- Zplus_mod_idemp_l, shl_mod, Zplus_mod_idemp_l by lia.
Qed.

(** [(v >>> s) & (2^w - 1)] reads bits [s .. s+w-1] of any number that
    agrees with [v] on the low 32 bits. *)
Lemma ushr_band v x s w :
  0 <= s < 32 -> 0 <= w <= 31 -> s + w <= 32 ->
  v mod 2 ^ 32 = x mod 2 ^ 32 ->
  band (ushr v s) (2 ^ w - 1) = (x / 2 ^ s) mod 2 ^ w.
Proof.
  intros Hs Hw Hsw Hvx. rewrite band_ones by lia. unfold ushr.
  rewrite (ToUint32_small s) by lia. rewrite (Z.mod_small s 32) by lia.
  rewrite Z.shiftr_div_pow2 by lia. unfold ToUint32.
  apply div_mod_pow2_cong; try lia. rewrite Z.mod_mod by lia. done.
Qed.

End Int32.

(** * Base32 round trip *)

Section Base32Facts.
Import JS Base32.

Lemma be_word_snoc l b : Crypto.be_word (l ++ [b]) = Crypto.be_word l * 256 + b.
Proof. unfold Crypto.be_word. by rewrite fold_left_app. Qed.

Lemma idx_word_snoc cs c :
  idx_word (cs ++ [c]) = idx_word cs * 32 + indexOf BASE32_ALPHABET c.
Proof. unfold idx_word. by rewrite fold_left_app. Qed.

Lemma alphabet_facts i :
  0 <= i < 32 ->
  indexOf BASE32_ALPHABET (alphabet_at i) = i
  /\ upper_char (alphabet_at i) = alphabet_at i
  /\ Ascii.eqb (alphabet_at i) "="%char = false.
Proof.
  intros Hi.
  assert (exists n : nat, (n < 32)%nat /\ i = Z.of_nat n) as (n & Hn & ->)
    by (exists (Z.to_nat i); lia).
  do 32 (destruct n as [|n]; [vm_compute; done|]). lia.
Qed.

Lemma indexOf_from_range l c i :
  indexOf_from i l c = -1
  \/ i <= indexOf_from i l c < i + Z.of_nat (length l).
Proof.
  revert i. induction l as [|d l IH]; intros i; simpl; [by left|].
  destruct (Ascii.eqb d c); [right; lia|].
  destruct (IH (i + 1)) as [->|?]; [by left|right; lia].
Qed.

Lemma indexOf_range c :
  indexOf BASE32_ALPHABET c = -1 \/ 0 <= indexOf BASE32_ALPHABET c < 32.
Proof. apply (indexOf_from_range (list_ascii_of_string BASE32_ALPHABET) c 0). Qed.

Lemma pow2_pos n : 0 <= n -> 0 < 2 ^ n.
Proof. intros. apply Z.pow_pos_nonneg; lia. Qed.

(** Writing [w] more bits of [X]: the digits above bit [k + w], then the
    [w] bits from bit [k], are the digits above bit [k]. *)
Lemma digits_extend X k w :
  0 <= k -> 0 <= w ->
  X / 2 ^ (k + w) * 2 ^ w + (X / 2 ^ k) mod 2 ^ w = X / 2 ^ k.
Proof.
  intros Hk Hw. pose proof (pow2_pos k Hk). pose proof (pow2_pos w Hw).
  rewrite Z.pow_add_r by lia. rewrite <- Z.div_div by lia.
  pose proof (Z.div_mod (X / 2 ^ k) (2 ^ w)). lia.
Qed.

Lemma encode_while_spec X fuel : forall value bits out,
  value mod 2 ^ 32 = X mod 2 ^ 32 ->
  0 <= bits <= 12 -> bits <= Z.of_nat fuel + 4 ->
  idx_word out = X / 2 ^ bits -> Forall validChar out ->
  exists bits' out',
    encode_while fuel value bits out = (bits', out')
    /\ 0 <= bits' < 5
    /\ idx_word out' = X / 2 ^ bits'
    /\ 5 * Z.of_nat (length out') + bits' = 5 * Z.of_nat (length out) + bits
    /\ Forall validChar out'.
Proof.
  induction fuel as [|fuel IH]; intros value bits out Hv Hb Hf Hidx Hvalid.
  - exists bits, out. simpl. split_and!; try done; lia.
  - cbn [encode_while]. destruct (Z.leb_spec 5 bits) as [H5|H5].
    + set (i := band (ushr value (bits - 5)) 31).
      assert (Hi : i = (X / 2 ^ (bits - 5)) mod 2 ^ 5)
        by (apply (ushr_band value X (bits - 5) 5); try lia; done).
      assert (0 <= i < 32)
        by (rewrite Hi; apply (Z.mod_pos_bound _ (2 ^ 5)); lia).
      destruct (alphabet_facts i) as (Hidx_i & _ & _); [done|].
      destruct (IH value (bits - 5) (out ++ [alphabet_at i]))
        as (bits' & out' & Heq & Hb' & Hidx' & Hlen & Hvalid'); try lia; try done.
      * rewrite idx_word_snoc, Hidx_i, Hidx, Hi.
        replace bits with ((bits - 5) + 5) at 1 by lia.
        apply (digits_extend X (bits - 5) 5); lia.
      * apply Forall_app. split; [done|]. constructor; [|constructor].
        by exists i.
      * exists bits', out'. rewrite length_app in Hlen. cbn [length] in Hlen.
        split_and!; try done; lia.
    + exists bits, out. split_and!; try done; lia.
Qed.

Lemma shift_in X k d w :
  0 <= k -> 0 <= w -> 0 <= d < 2 ^ w ->
  (X * 2 ^ w + d) / 2 ^ (k + w) = X / 2 ^ k.
Proof.
  intros Hk Hw Hd. pose proof (pow2_pos k Hk). pose proof (pow2_pos w Hw).
  rewrite Z.add_comm, Z.pow_add_r, (Z.mul_comm (2 ^ k)) by lia.
  rewrite <- Z.div_div by lia. f_equal.
  rewrite Z.div_add, Z.div_small by lia. done.
Qed.

Lemma append_mod v X k d :
  v mod 2 ^ 32 = X mod 2 ^ 32 ->
  (v * 2 ^ k + d) mod 2 ^ 32 = (X * 2 ^ k + d) mod 2 ^ 32.
Proof.
  intros Hv.
  rewrite <- Zplus_mod_idemp_l, <- Zmult_mod_idemp_l, Hv.
  by rewrite Zmult_mod_idemp_l, Zplus_mod_idemp_l.
Qed.

Lemma encode_step_inv p st byte :
  enc_inv p st -> is_byte byte -> enc_inv (p ++ [byte]) (encode_step st byte).
Proof.
  destruct st as [[bits value] out].
  intros (Hb & Hv & Hidx & Hlen & Hvalid) Hbyte. unfold encode_step.
  set (value' := bor (shl value 8) byte).
  assert (Hv' : value' mod 2 ^ 32 = Crypto.be_word (p ++ [byte]) mod 2 ^ 32).
  { unfold value'. rewrite shl_bor_mod by (unfold is_byte in Hbyte; lia).
    rewrite be_word_snoc. by apply append_mod. }
  destruct (encode_while_spec (Crypto.be_word (p ++ [byte]))
              (Z.to_nat (bits + 8)) value' (bits + 8) out)
    as (bits' & out' & Heq & Hb' & Hidx' & Hlen' & Hvalid'); try lia; try done.
  - rewrite Hidx, be_word_snoc. symmetry.
    apply (shift_in _ bits byte 8); unfold is_byte in Hbyte; lia.
  - rewrite Heq. unfold enc_inv. rewrite length_app. cbn [length].
    split_and!; try done; lia.
Qed.

Lemma encode_fold_inv bs : forall p st,
  enc_inv p st -> Forall is_byte bs ->
  enc_inv (p ++ bs) (fold_left encode_step bs st).
Proof.
  induction bs as [|b bs IH]; intros p st Hinv Hbs; simpl.
  - by rewrite app_nil_r.
  - inversion Hbs; subst.
    replace (p ++ b :: bs) with ((p ++ [b]) ++ bs) by by rewrite <- app_assoc.
    apply IH; [|done]. by apply encode_step_inv.
Qed.

Lemma final_digit X bits :
  0 < bits < 5 ->
  X / 2 ^ bits * 32 + (X * 2 ^ (5 - bits)) mod 32 = X * 2 ^ (5 - bits).
Proof.
  intros Hb. pose proof (pow2_pos bits). pose proof (pow2_pos (5 - bits)).
  assert (H32 : 32 = 2 ^ bits * 2 ^ (5 - bits))
    by (rewrite <- Z.pow_add_r by lia; by replace (bits + (5 - bits)) with 5 by lia).
  assert (Hq : X / 2 ^ bits = X * 2 ^ (5 - bits) / 32)
    by (rewrite H32, Z.div_mul_cancel_r by lia; done).
  rewrite Hq. pose proof (Z.div_mod (X * 2 ^ (5 - bits)) 32). lia.
Qed.

(** What [base32Encode] writes: the bytes as one big-endian number, padded
    with [pad < 5] zero bits to whole digits. *)
Lemma base32Encode_spec b :
  Forall is_byte b ->
  exists out pad,
    base32Encode b = string_of_list_ascii out
    /\ 0 <= pad < 5
    /\ idx_word out = Crypto.be_word b * 2 ^ pad
    /\ 5 * Z.of_nat (length out) = 8 * Z.of_nat (length b) + pad
    /\ Forall validChar out.
Proof.
  intros Hb. unfold base32Encode.
  assert (Hinit : enc_inv [] (0, 0, [])) by (unfold enc_inv; done).
  pose proof (encode_fold_inv b [] _ Hinit Hb) as Hinv. simpl in Hinv.
  destruct (fold_left encode_step b (0, 0, [])) as [[bits value] out].
  destruct Hinv as (Hbits & Hv & Hidx & Hlen & Hvalid).
  destruct (Z.ltb_spec 0 bits) as [Hpos|Hzero].
  - set (i := band (shl value (5 - bits)) 31).
    assert (Hi : i = (Crypto.be_word b * 2 ^ (5 - bits)) mod 2 ^ 5).
    { unfold i. rewrite (band_ones _ 5) by lia.
      apply mod32_mod_pow2; [lia|]. rewrite shl_mod by lia.
      rewrite <- Zmult_mod_idemp_l, Hv. by rewrite Zmult_mod_idemp_l. }
    assert (0 <= i < 32)
      by (rewrite Hi; apply (Z.mod_pos_bound _ (2 ^ 5)); lia).
    destruct (alphabet_facts i) as (Hidx_i & _ & _); [done|].
    exists (out ++ [alphabet_at i]), (5 - bits).
    rewrite length_app. cbn [length]. split_and!; try done; try lia.
    + rewrite idx_word_snoc, Hidx_i, Hidx, Hi. apply final_digit. lia.
    + apply Forall_app. split; [done|]. constructor; [|constructor].
      by exists i.
  - assert (bits = 0) as -> by lia. exists out, 0.
    rewrite Z.div_1_r in Hidx. split_and!; try done; lia.
Qed.

Lemma validChar_indexOf c :
  validChar c -> 0 <= indexOf BASE32_ALPHABET c < 32.
Proof.
  intros (i & Hi & ->). destruct (alphabet_facts i Hi) as (-> & _). done.
Qed.

Lemma decode_step_invalid st c :
  inAlphabet c = false -> decode_step st c = st.
Proof.
  unfold inAlphabet, decode_step. intros H%negb_false_iff.
  destruct st as [[bits value] bytes]. by rewrite H.
Qed.

Lemma decode_step_inv cs st c :
  dec_inv cs st -> validChar c -> dec_inv (cs ++ [c]) (decode_step st c).
Proof.
  destruct st as [[bits value] bytes].
  intros (Hb & Hv & Hw & Hlen & Hbytes) Hc.
  pose proof (validChar_indexOf c Hc) as Hi.
  unfold decode_step.
  destruct (Z.eqb_spec (indexOf BASE32_ALPHABET c) (-1)) as [E|_]; [lia|].
  set (idx := indexOf BASE32_ALPHABET c) in *.
  set (value' := bor (shl value 5) idx).
  assert (Hv' : value' mod 2 ^ 32 = idx_word (cs ++ [c]) mod 2 ^ 32).
  { unfold value'. rewrite shl_bor_mod by lia.
    rewrite idx_word_snoc. by apply append_mod. }
  assert (Hw' : Crypto.be_word bytes = idx_word (cs ++ [c]) / 2 ^ (bits + 5)).
  { rewrite Hw, idx_word_snoc. symmetry. apply (shift_in _ bits idx 5); lia. }
  destruct (Z.leb_spec 8 (bits + 5)) as [H8|H8]; unfold dec_inv.
  - set (byte := band (ushr value' (bits + 5 - 8)) 255).
    assert (Hbyte : byte = (idx_word (cs ++ [c]) / 2 ^ (bits + 5 - 8)) mod 2 ^ 8)
      by (apply (ushr_band value' _ (bits + 5 - 8) 8); try lia; done).
    rewrite !length_app. cbn [length]. split_and!; try lia; try done.
    + rewrite be_word_snoc, Hw', Hbyte.
      replace (bits + 5) with ((bits + 5 - 8) + 8) at 1 by lia.
      apply (digits_extend _ (bits + 5 - 8) 8); lia.
    + apply Forall_app. split; [done|]. constructor; [|constructor].
      rewrite Hbyte. apply (Z.mod_pos_bound _ (2 ^ 8)). lia.
  - rewrite !length_app. cbn [length]. split_and!; try lia; try done.
Qed.

Lemma decode_fold_inv cs' : forall cs st,
  dec_inv cs st -> Forall validChar cs' ->
  dec_inv (cs ++ cs') (fold_left decode_step cs' st).
Proof.
  induction cs' as [|c cs' IH]; intros cs st Hinv Hcs; simpl.
  - by rewrite app_nil_r.
  - inversion Hcs; subst.
    replace (cs ++ c :: cs') with ((cs ++ [c]) ++ cs') by by rewrite <- app_assoc.
    apply IH; [|done]. by apply decode_step_inv.
Qed.

(** Characters outside the alphabet leave no trace. *)
Lemma decode_fold_filter l : forall st,
  fold_left decode_step l st
  = fold_left decode_step (List.filter inAlphabet l) st.
Proof.
  induction l as [|c l IH]; intros st; simpl; [done|].
  destruct (inAlphabet c) eqn:E; simpl; [apply IH|].
  rewrite decode_step_invalid by done. apply IH.
Qed.

Lemma be_word_nonneg l : Forall is_byte l -> 0 <= Crypto.be_word l.
Proof.
  induction l as [|x l IH] using rev_ind; intros Hl; [done|].
  apply Forall_app in Hl as [Hl Hx]. inversion Hx; subst.
  rewrite be_word_snoc. unfold is_byte in *. specialize (IH Hl). lia.
Qed.

(** Two buffers of the same length with the same big-endian value are the
    same buffer. *)
Lemma be_word_inj l : forall l',
  length l = length l' -> Forall is_byte l -> Forall is_byte l' ->
  Crypto.be_word l = Crypto.be_word l' -> l = l'.
Proof.
  induction l as [|x l IH] using rev_ind; intros l' Hlen Hl Hl' Heq.
  - destruct l'; [done|discriminate].
  - destruct l' as [|y l' _] using rev_ind.
    { rewrite length_app in Hlen. simpl in Hlen. lia. }
    rewrite !length_app in Hlen. cbn [length] in Hlen.
    apply Forall_app in Hl as [Hl Hx]. apply Forall_app in Hl' as [Hl' Hy].
    inversion Hx; subst. inversion Hy; subst.
    rewrite !be_word_snoc in Heq. unfold is_byte in *.
    assert (Crypto.be_word l = Crypto.be_word l' /\ x = y) as [Hw ->] by lia.
    f_equal. apply IH; try done. lia.
Qed.

Lemma chars_app s t :
  list_ascii_of_string (s ++ t)
  = list_ascii_of_string s ++ list_ascii_of_string t.
Proof. induction s as [|c s IH]; simpl; [done|]. by rewrite IH. Qed.

Lemma strip_trailing_eq_cons c l :
  strip_trailing_eq (c :: l)
  = match strip_trailing_eq l with
    | [] => if Ascii.eqb c "="%char then [] else [c]
    | _ => c :: strip_trailing_eq l
    end.
Proof. reflexivity. Qed.

Lemma strip_trailing_eq_valid l :
  Forall validChar l -> strip_trailing_eq l = l.
Proof.
  induction 1 as [|c l (i & Hi & ->) _ IH]; [done|].
  rewrite strip_trailing_eq_cons, IH.
  destruct (alphabet_facts i Hi) as (_ & _ & ->). by destruct l.
Qed.

Lemma strip_trailing_eq_padding l k :
  strip_trailing_eq (l ++ repeat "="%char k) = strip_trailing_eq l.
Proof.
  induction l as [|c l IH].
  - induction k as [|k IHk]; [done|].
    simpl app in *. cbn [repeat]. by rewrite strip_trailing_eq_cons, IHk.
  - simpl app. by rewrite !strip_trailing_eq_cons, IH.
Qed.

Lemma filter_strip_trailing_eq l :
  List.filter inAlphabet (strip_trailing_eq l) = List.filter inAlphabet l.
Proof.
  induction l as [|c l IH]; [done|].
  rewrite strip_trailing_eq_cons. cbn [List.filter]. rewrite <- IH.
  destruct (strip_trailing_eq l) as [|x l'].
  - destruct (Ascii.eqb_spec c "="%char) as [->|_]; [done|].
    cbn [List.filter]. by destruct (inAlphabet c).
  - done.
Qed.

(** [base32Decode] reads the alphabet characters of the upper-cased input
    and nothing else. *)
Lemma base32Decode_filter s :
  base32Decode s
  = decode_chars
      (List.filter inAlphabet
         (flat_map upper_chars (list_ascii_of_string s))).
Proof.
  unfold base32Decode, decode_chars, toUpperCase.
  rewrite list_ascii_of_string_of_list_ascii.
  rewrite decode_fold_filter, filter_strip_trailing_eq.
  by rewrite <- decode_fold_filter.
Qed.

Lemma inAlphabet_valid c : inAlphabet c = true -> validChar c.
Proof.
  intros Hc. exists (indexOf BASE32_ALPHABET c). revert Hc.
  destruct c as [[] [] [] [] [] [] [] []]; vm_compute; intros Hc;
    solve [discriminate Hc | repeat split; discriminate].
Qed.

Lemma decode_chars_bytes l : Forall is_byte (decode_chars l).
Proof.
  unfold decode_chars. rewrite decode_fold_filter.
  assert (Hvalid : Forall validChar (List.filter inAlphabet l)).
  { apply Forall_forall. intros c Hc%list_elem_of_In.
    apply filter_In in Hc as [_ Hc]. by apply inAlphabet_valid. }
  assert (Hinit : dec_inv [] (0, 0, [])) by (unfold dec_inv; done).
  pose proof (decode_fold_inv _ [] _ Hinit Hvalid) as Hinv.
  destruct (fold_left decode_step _ _) as [[bits value] bytes].
  by destruct Hinv as (_ & _ & _ & _ & ?).
Qed.

(** Decoding the digits [base32Encode] wrote gives the buffer back. *)
Lemma decode_chars_encoded b out pad :
  Forall is_byte b -> Forall validChar out ->
  0 <= pad < 5 ->
  idx_word out = Crypto.be_word b * 2 ^ pad ->
  5 * Z.of_nat (length out) = 8 * Z.of_nat (length b) + pad ->
  decode_chars out = b.
Proof.
  intros Hb Hvalid Hpad Hidx Hlen. unfold decode_chars.
  assert (Hinit : dec_inv [] (0, 0, [])) by (unfold dec_inv; done).
  pose proof (decode_fold_inv out [] _ Hinit Hvalid) as Hinv. simpl in Hinv.
  destruct (fold_left decode_step out (0, 0, [])) as [[bits value] bytes].
  destruct Hinv as (Hbits & _ & Hw & Hl & Hbytes). simpl.
  assert (bits = pad /\ length bytes = length b) as [-> Hsame] by lia.
  apply be_word_inj; try done.
  rewrite Hw, Hidx. apply Z.div_mul. pose proof (pow2_pos pad). lia.
Qed.

Lemma upper_chars_valid c : validChar c -> upper_chars c = [c].
Proof.
  intros (i & Hi & ->).
  assert (exists n : nat, (n < 32)%nat /\ i = Z.of_nat n) as (n & Hn & ->)
    by (exists (Z.to_nat i); lia).
  do 32 (destruct n as [|n]; [vm_compute; done|]). lia.
Qed.

Lemma map_upper_valid l : Forall validChar l -> flat_map upper_chars l = l.
Proof.
  induction 1 as [|c l Hc _ IH]; [done|].
  cbn [flat_map]. by rewrite (upper_chars_valid c Hc), IH.
Qed.

Lemma upper_chars_padding k :
  flat_map upper_chars (repeat "="%char k) = repeat "="%char k.
Proof. induction k as [|k IH]; [done|]. cbn [repeat flat_map]. by rewrite IH. Qed.

Lemma base32_roundtrip_padded b k :
  Forall is_byte b -> base32Decode (base32Encode b ++ padding k) = b.
Proof.
  intros Hb.
  destruct (base32Encode_spec b Hb) as (out & pad & -> & Hpad & Hidx & Hlen & Hv).
  unfold base32Decode, toUpperCase, padding.
  rewrite chars_app, !list_ascii_of_string_of_list_ascii, flat_map_app.
  rewrite map_upper_valid, upper_chars_padding by done.
  rewrite strip_trailing_eq_padding, strip_trailing_eq_valid by done.
  by apply (decode_chars_encoded b out pad).
Qed.

End Base32Facts.

Lemma base32Decode_padding s k :
  Base32.base32Decode (s ++ padding k) = Base32.base32Decode s.
Proof.
  unfold Base32.base32Decode, JS.toUpperCase, padding.
  rewrite chars_app, !list_ascii_of_string_of_list_ascii, flat_map_app.
  by rewrite upper_chars_padding, strip_trailing_eq_padding.
Qed.

Lemma base32Decode_skip s1 c s2 :
  Forall (fun d => inAlphabet d = false) (JS.upper_chars c) ->
  Base32.base32Decode (s1 ++ String c s2) = Base32.base32Decode (s1 ++ s2).
Proof.
  intros Hc. rewrite !base32Decode_filter, !chars_app.
  cbn [list_ascii_of_string].
  rewrite !flat_map_app, !List.filter_app. cbn [flat_map].
  rewrite List.filter_app. do 2 f_equal.
  replace (List.filter inAlphabet (JS.upper_chars c)) with (@nil ascii);
    [done|].
  symmetry. induction Hc as [|d l Hd _ IH]; [done|].
  cbn [List.filter]. by rewrite Hd.
Qed.

(** Texts with one upper-case form decode alike. *)
Lemma base32Decode_upper s s' :
  JS.toUpperCase s = JS.toUpperCase s' ->
  Base32.base32Decode s = Base32.base32Decode s'.
Proof. unfold Base32.base32Decode. by intros ->. Qed.

(** C2 (amended).  For every byte buffer [b] (of any length, so of length 0
    to 64), decoding its encoding gives [b] back, also when ['='] padding of
    any length is appended to the encoding.  For every input string,
    [base32Decode] gives the same bytes for the lower-cased and the
    upper-cased input, ignores trailing ['='], reads the alphabet characters
    of the upper-cased input and nothing else (a character can be left out
    anywhere without changing the result when no character of its
    upper-case form is in the alphabet; U+00DF, with the upper-case form
    [SS], is read as the two digits [S]), and returns a well-formed buffer:
    it is a total function. *)
Theorem C2_base32_codec (b : list Z) (s : string) (k : nat) :
  Forall is_byte b ->
  Base32.base32Decode (Base32.base32Encode b) = b
  /\ Base32.base32Decode (Base32.base32Encode b ++ padding k) = b
  /\ Base32.base32Decode (JS.toLowerCase s) = Base32.base32Decode s
  /\ Base32.base32Decode (JS.toUpperCase s) = Base32.base32Decode s
  /\ Base32.base32Decode (s ++ padding k) = Base32.base32Decode s
  /\ Base32.base32Decode s
     = Base32.decode_chars
         (List.filter inAlphabet (list_ascii_of_string (JS.toUpperCase s)))
  /\ (forall s1 c s2,
        Forall (fun d => inAlphabet d = false) (JS.upper_chars c) ->
        Base32.base32Decode (s1 ++ String c s2)
        = Base32.base32Decode (s1 ++ s2))
  /\ (forall s1 s2,
        Base32.base32Decode (s1 ++ String "223" s2)
        = Base32.base32Decode (s1 ++ String "S" (String "S" s2)))
  /\ Forall is_byte (Base32.base32Decode s).
Proof.
  intros Hb. split_and!.
  - pose proof (base32_roundtrip_padded b 0 Hb) as H.
    unfold padding in H. simpl in H.
    replace (Base32.base32Encode b ++ "")%string
      with (Base32.base32Encode b) in H; [done|].
    generalize (Base32.base32Encode b). intros t.
    induction t as [|c t IH]; [done|].
    change (String c t ++ "")%string with (String c (t ++ "")).
    by rewrite <- IH.
  - by apply base32_roundtrip_padded.
  - unfold Base32.base32Decode. by rewrite toUpperCase_lower.
  - unfold Base32.base32Decode. by rewrite toUpperCase_idem.
  - apply base32Decode_padding.
  - rewrite base32Decode_filter. by rewrite toUpperCase_chars.
  - apply base32Decode_skip.
  - intros s1 s2. apply base32Decode_upper. unfold JS.toUpperCase.
    rewrite !chars_app. cbn [list_ascii_of_string].
    by rewrite !flat_map_app.
  - apply decode_chars_bytes.
Qed.

Lemma C2_base32_codec_witness :
  Base32.base32Decode (Base32.base32Encode [102; 111; 111; 98; 97; 114])
  = [102; 111; 111; 98; 97; 114].
Proof.
  refine (proj1 (C2_base32_codec [102; 111; 111; 98; 97; 114]
    "mzxw6 ytboi" 6 _)).
  repeat constructor; vm_compute; discriminate.
Defined.

(** C2 (as stated) fails for a character outside the alphabet whose
    upper-case form is inside: U+00DF is not skipped, the one-character
    text decodes like [SS], to one byte. *)
Lemma C2_eszett_not_skipped :
  inAlphabet "223" = false
  /\ JS.toUpperCase (String "223" "") = "SS"%string
  /\ Base32.base32Decode (String "223" "") = [148]
  /\ Base32.base32Decode "SS" = [148]
  /\ Base32.base32Decode "" = [].
Proof. vm_compute. done. Qed.

(** * HOTP *)

Section Hotp.
Import JS TOTP.

Lemma be_bytes_length n x : length (Crypto.be_bytes n x) = n.
Proof. unfold Crypto.be_bytes. by rewrite length_map, length_rev, length_seq. Qed.

Lemma be_bytes_bytes n x : Forall is_byte (Crypto.be_bytes n x).
Proof.
  unfold Crypto.be_bytes. apply Forall_forall. intros b Hb%list_elem_of_In.
  apply in_map_iff in Hb as (k & <- & _). apply Z.mod_pos_bound. lia.
Qed.

Lemma sha1_length msg : length (Crypto.sha1 msg) = 20%nat.
Proof.
  unfold Crypto.sha1. destruct (fold_left _ _ _) as [[[[h0 h1] h2] h3] h4].
  by rewrite !length_app, !be_bytes_length.
Qed.

Lemma sha1_bytes msg : Forall is_byte (Crypto.sha1 msg).
Proof.
  unfold Crypto.sha1. destruct (fold_left _ _ _) as [[[[h0 h1] h2] h3] h4].
  rewrite !Forall_app. split_and!; apply be_bytes_bytes.
Qed.

Lemma hmac_sha1_length key msg : length (Crypto.hmac_sha1 key msg) = 20%nat.
Proof. apply sha1_length. Qed.

Lemma hmac_sha1_bytes key msg : Forall is_byte (Crypto.hmac_sha1 key msg).
Proof. apply sha1_bytes. Qed.

Lemma nth_byte (hs : list Z) i : Forall is_byte hs -> is_byte (nth i hs 0).
Proof.
  intros Hhs. destruct (nth_in_or_default i hs 0) as [Hin| ->].
  - rewrite Forall_forall in Hhs. by apply Hhs, list_elem_of_In.
  - unfold is_byte. lia.
Qed.

Lemma firstn4_skipn (hs : list Z) : forall o : nat,
  (o + 4 <= length hs)%nat ->
  firstn 4 (skipn o hs)
  = [nth o hs 0; nth (o + 1) hs 0; nth (o + 2) hs 0; nth (o + 3) hs 0].
Proof.
  induction hs as [|x hs IH]; intros o Ho; [simpl in Ho; lia|].
  destruct o as [|o].
  - destruct hs as [|y [|z [|w hs]]]; simpl in Ho; try lia. done.
  - simpl in Ho. cbn [skipn]. rewrite IH by lia. done.
Qed.

Lemma last_nth (hs : list Z) : List.last hs 0 = nth (length hs - 1) hs 0.
Proof.
  induction hs as [|x hs IH]; [done|].
  destruct hs as [|y hs]; [done|].
  change (List.last (x :: y :: hs) 0) with (List.last (y :: hs) 0).
  rewrite IH. simpl. by rewrite Nat.sub_0_r.
Qed.

Lemma bor_small_add x y n :
  0 <= n -> 0 <= x -> 0 <= y < 2 ^ n -> x * 2 ^ n + y < 2 ^ 31 ->
  bor (x * 2 ^ n) y = x * 2 ^ n + y.
Proof.
  intros Hn Hx Hy Hlt. unfold bor. pose proof (pow2_pos n Hn).
  rewrite !ToInt32_small by nia. by apply lor_shifted_low.
Qed.

(** The four masked and shifted bytes, or-ed together, are the 31 low bits
    of the big-endian word. *)
Lemma truncate_word a b c d :
  is_byte a -> is_byte b -> is_byte c -> is_byte d ->
  bor (bor (bor (shl (band a 127) 24) (shl (band b 255) 16))
           (shl (band c 255) 8))
      (band d 255)
  = Crypto.be_word [a; b; c; d] mod 2 ^ 31.
Proof.
  unfold is_byte. intros Ha Hb Hc Hd.
  change 127 with (2 ^ 7 - 1). change 255 with (2 ^ 8 - 1).
  rewrite (band_ones a 7), !(band_ones _ 8) by lia.
  rewrite (Z.mod_small b), (Z.mod_small c), (Z.mod_small d) by lia.
  pose proof (Z.mod_pos_bound a (2 ^ 7) ltac:(lia)) as HA.
  set (A := a mod 2 ^ 7) in *.
  rewrite !shl_small by lia.
  rewrite (bor_small_add A (b * 2 ^ 16) 24) by lia.
  replace (A * 2 ^ 24 + b * 2 ^ 16) with ((A * 2 ^ 8 + b) * 2 ^ 16) by lia.
  rewrite (bor_small_add _ (c * 2 ^ 8) 16) by lia.
  replace ((A * 2 ^ 8 + b) * 2 ^ 16 + c * 2 ^ 8)
    with (((A * 2 ^ 8 + b) * 2 ^ 8 + c) * 2 ^ 8) by lia.
  rewrite (bor_small_add _ d 8) by lia.
  unfold Crypto.be_word. cbn [fold_left].
  pose proof (Z.div_mod a (2 ^ 7) ltac:(lia)) as Hdm. fold A in Hdm.
  apply (Z.mod_unique _ _ (a / 2 ^ 7)); lia.
Qed.

Lemma truncate_spec hs :
  length hs = 20%nat -> Forall is_byte hs ->
  truncate hs
  = Crypto.be_word (firstn 4 (skipn (Z.to_nat (List.last hs 0 mod 16)) hs))
    mod 2 ^ 31.
Proof.
  intros Hlen Hhs. unfold truncate, at_. rewrite Hlen.
  change (Z.to_nat (Z.of_nat 20 - 1)) with (20 - 1)%nat.
  rewrite last_nth, Hlen.
  change 15 with (2 ^ 4 - 1). rewrite band_ones by lia.
  change (2 ^ 4) with 16.
  set (o := nth (20 - 1) hs 0 mod 16).
  assert (Ho : 0 <= o < 16) by (apply Z.mod_pos_bound; lia).
  rewrite !Z2Nat.inj_add by lia.
  change (Z.to_nat 1) with 1%nat. change (Z.to_nat 2) with 2%nat.
  change (Z.to_nat 3) with 3%nat.
  rewrite firstn4_skipn by lia.
  apply truncate_word; by apply nth_byte.
Qed.

Lemma fixed_digits_length k : forall n, length (fixed_digits k n) = k.
Proof.
  induction k as [|k IH]; intros n; simpl; [done|].
  rewrite length_app, IH. simpl. lia.
Qed.

Lemma fixed_digits_zero k : fixed_digits k 0 = repeat "0"%char k.
Proof.
  induction k as [|k IH]; [done|].
  cbn [fixed_digits]. change (0 / 10) with 0. rewrite IH.
  change [digit_char (0 mod 10)] with ["0"%char]. by rewrite <- repeat_cons.
Qed.

Lemma fixed_digits_digits k : forall n, Forall is_digit (fixed_digits k n).
Proof.
  induction k as [|k IH]; intros n; simpl; [constructor|].
  apply Forall_app. split; [apply IH|]. constructor; [|constructor].
  pose proof (Z.mod_pos_bound n 10 ltac:(lia)) as Hd.
  unfold is_digit, digit_char. rewrite nat_ascii_embedding; lia.
Qed.

Lemma digits_acc_S fuel n acc :
  digits_acc (S fuel) n acc
  = if n <? 10 then digit_char (n mod 10) :: acc
    else digits_acc fuel (n / 10) (digit_char (n mod 10) :: acc).
Proof. reflexivity. Qed.

(** The digits [toString] writes are the fixed-width digits without their
    leading zeros. *)
Lemma digits_acc_fixed fuel : forall n acc k,
  0 <= n < 2 ^ Z.of_nat (S fuel) -> n < 10 ^ Z.of_nat k -> (1 <= k)%nat ->
  exists z,
    (z + length (digits_acc (S fuel) n acc) = k + length acc)%nat
    /\ repeat "0"%char z ++ digits_acc (S fuel) n acc
       = fixed_digits k n ++ acc.
Proof.
  induction fuel as [|fuel IH]; intros n acc k Hn Hk Hk1;
    destruct k as [|k]; try lia; rewrite digits_acc_S; cbn [fixed_digits];
    destruct (Z.ltb_spec n 10) as [Hlt|Hge].
  - exists k. rewrite Z.div_small, Z.mod_small, fixed_digits_zero by lia.
    cbn [length]. split; [lia|]. by rewrite <- app_assoc.
  - change (2 ^ Z.of_nat 1) with 2 in Hn. lia.
  - exists k. rewrite Z.div_small, Z.mod_small, fixed_digits_zero by lia.
    cbn [length]. split; [lia|]. by rewrite <- app_assoc.
  - assert (Hk' : (1 <= k)%nat).
    { destruct k; [|lia]. change (10 ^ Z.of_nat 1) with 10 in Hk. lia. }
    destruct (IH (n / 10) (digit_char (n mod 10) :: acc) k)
      as (z & Hlen & Heq); try done.
    + split; [apply Z.div_pos; lia|].
      apply Z.div_lt_upper_bound; [lia|].
      rewrite (Nat2Z.inj_succ (S fuel)), Z.pow_succ_r in Hn by lia. lia.
    + apply Z.div_lt_upper_bound; [lia|].
      rewrite Nat2Z.inj_succ, Z.pow_succ_r in Hk by lia. lia.
    + exists z. cbn [length] in Hlen. split; [lia|].
      by rewrite Heq, <- app_assoc.
Qed.

Lemma renderCode_decimal6 v : 0 <= v -> renderCode v = decimal6 (v mod 10 ^ 6).
Proof.
  intros Hv. unfold renderCode, rem, DIGITS.
  rewrite Z.rem_mod_nonneg by lia.
  pose proof (Z.mod_pos_bound v (10 ^ 6) ltac:(lia)) as Hn.
  set (n := v mod 10 ^ 6) in *.
  unfold padStart, toString, decimal6.
  rewrite length_string_of_list_ascii, list_ascii_of_string_of_list_ascii.
  destruct (digits_acc_fixed (Z.to_nat (Z.log2 n)) n [] 6)
    as (z & Hlen & Heq); try lia.
  - split; [lia|]. rewrite Nat2Z.inj_succ, Z2Nat.id by apply Z.log2_nonneg.
    destruct (Z.eq_dec n 0) as [->|Hne]; [done|].
    apply Z.log2_spec. lia.
  - cbn [length] in Hlen. change (Z.to_nat 6) with 6%nat.
    replace (6 - length _)%nat with z by lia.
    by rewrite Heq, app_nil_r.
Qed.

End Hotp.

Lemma generateCodeForCounter_spec secret counter :
  0 <= counter < 2 ^ 64 ->
  TOTP.generateCodeForCounter secret counter
  = Some (hotp_rfc4226 (Base32.base32Decode secret) counter).
Proof.
  intros Hc. unfold TOTP.generateCodeForCounter, TOTP.writeBigUInt64BE.
  replace ((0 <=? counter) && (counter <? 2 ^ 64)) with true
    by (symmetry; apply andb_true_iff; split;
        [apply Z.leb_le|apply Z.ltb_lt]; lia).
  f_equal. unfold hotp_rfc4226.
  rewrite truncate_spec by (apply hmac_sha1_length || apply hmac_sha1_bytes).
  apply renderCode_decimal6. apply Z.mod_pos_bound. lia.
Qed.

(** A counter that does not fit 64 unsigned bits makes
    [writeBigUInt64BE] throw. *)
Lemma generateCodeForCounter_out_of_range secret counter :
  counter < 0 \/ 2 ^ 64 <= counter ->
  TOTP.generateCodeForCounter secret counter = None.
Proof.
  intros Hc. unfold TOTP.generateCodeForCounter, TOTP.writeBigUInt64BE.
  replace ((0 <=? counter) && (counter <? 2 ^ 64)) with false; [done|].
  symmetry. apply andb_false_iff.
  destruct Hc; [left; apply Z.leb_gt|right; apply Z.ltb_ge]; lia.
Qed.

Lemma hotp_rfc4226_shape key counter :
  String.length (hotp_rfc4226 key counter) = 6%nat
  /\ Forall is_digit (list_ascii_of_string (hotp_rfc4226 key counter)).
Proof.
  unfold hotp_rfc4226, decimal6.
  rewrite length_string_of_list_ascii, list_ascii_of_string_of_list_ascii.
  split; [apply fixed_digits_length|apply fixed_digits_digits].
Qed.

(** ** The decoder against RFC 4648 *)

Lemma be_word_cons b l :
  Crypto.be_word (b :: l)
  = b * 2 ^ (8 * Z.of_nat (length l)) + Crypto.be_word l.
Proof.
  induction l as [|x l IH] using rev_ind.
  - unfold Crypto.be_word. simpl. lia.
  - rewrite app_comm_cons, !be_word_snoc, IH, length_app. cbn [length].
    replace (8 * Z.of_nat (length l + 1)) with (8 * Z.of_nat (length l) + 8)
      by lia.
    rewrite Z.pow_add_r by lia. change (2 ^ 8) with 256. lia.
Qed.

Lemma be_bytes_S n x :
  Crypto.be_bytes (S n) x
  = Z.shiftr x (8 * Z.of_nat n) mod 256 :: Crypto.be_bytes n x.
Proof.
  unfold Crypto.be_bytes. by rewrite seq_S, rev_app_distr.
Qed.

Lemma be_word_be_bytes n x :
  Crypto.be_word (Crypto.be_bytes n x) = x mod 2 ^ (8 * Z.of_nat n).
Proof.
  induction n as [|n IH].
  - by rewrite Z.mod_1_r.
  - rewrite be_bytes_S, be_word_cons, be_bytes_length, IH.
    rewrite Z.shiftr_div_pow2 by lia.
    replace (8 * Z.of_nat (S n)) with (8 * Z.of_nat n + 8) by lia.
    rewrite Z.pow_add_r by lia. change (2 ^ 8) with 256.
    pose proof (pow2_pos (8 * Z.of_nat n) ltac:(lia)).
    rewrite Z.rem_mul_r by lia. lia.
Qed.

Lemma be_word_bound l :
  Forall is_byte l -> 0 <= Crypto.be_word l < 2 ^ (8 * Z.of_nat (length l)).
Proof.
  induction l as [|x l IH] using rev_ind; intros Hl; [done|].
  apply Forall_app in Hl as [Hl Hx]. inversion Hx; subst.
  rewrite be_word_snoc, length_app. cbn [length].
  replace (8 * Z.of_nat (length l + 1)) with (8 * Z.of_nat (length l) + 8)
    by lia.
  rewrite Z.pow_add_r by lia. change (2 ^ 8) with 256.
  unfold is_byte in *. specialize (IH Hl). lia.
Qed.

(** A buffer is the big-endian writing of its value. *)
Lemma be_bytes_be_word l :
  Forall is_byte l -> Crypto.be_bytes (length l) (Crypto.be_word l) = l.
Proof.
  intros Hl. apply be_word_inj.
  - apply be_bytes_length.
  - apply be_bytes_bytes.
  - done.
  - rewrite be_word_be_bytes. apply Z.mod_small. by apply be_word_bound.
Qed.

Lemma rfc_digit_index c d :
  RFC4648.digit c = Some d ->
  inAlphabet c = true /\ JS.indexOf Base32.BASE32_ALPHABET c = d.
Proof.
  destruct c as [[] [] [] [] [] [] [] []]; vm_compute; intros H;
    solve [discriminate H | by injection H as <-].
Qed.

Lemma rfc_number_idx_word cs : forall ds acc,
  RFC4648.digits cs = Some ds ->
  Forall validChar cs
  /\ length ds = length cs
  /\ RFC4648.number acc ds
     = fold_left
         (fun a c => a * 32 + JS.indexOf Base32.BASE32_ALPHABET c) cs acc.
Proof.
  induction cs as [|c cs IH]; intros ds acc.
  - intros [= <-]. done.
  - cbn [RFC4648.digits].
    destruct (RFC4648.digit c) as [d|] eqn:Hd; [|done].
    destruct (RFC4648.digits cs) as [ds'|] eqn:Hds; [|done].
    intros [= <-]. destruct (rfc_digit_index c d Hd) as [Hin Hidx].
    destruct (IH ds' (32 * acc + d) eq_refl) as (Hv & Hlen & Hnum).
    split_and!.
    + constructor; [by apply inAlphabet_valid|done].
    + simpl. by rewrite Hlen.
    + cbn [RFC4648.number fold_left]. rewrite Hnum, Hidx.
      by replace (acc * 32 + d) with (32 * acc + d) by lia.
Qed.

(** On a text of Base32 digits the decoder of the engine returns the bytes
    RFC 4648 gives it. *)
Lemma base32Decode_rfc4648 secret key :
  RFC4648.decode secret = Some key -> Base32.base32Decode secret = key.
Proof.
  unfold RFC4648.decode.
  destruct (RFC4648.digits (list_ascii_of_string secret)) as [ds|] eqn:Hds;
    [|done].
  destruct (rfc_number_idx_word _ ds 0 Hds) as (Hvalid & Hlen & Hnum).
  intros [= <-]. unfold Base32.base32Decode, JS.toUpperCase.
  rewrite list_ascii_of_string_of_list_ascii.
  rewrite map_upper_valid, strip_trailing_eq_valid by done.
  unfold Base32.decode_chars.
  assert (Hinit : dec_inv [] (0, 0, [])) by (unfold dec_inv; done).
  pose proof (decode_fold_inv _ [] _ Hinit Hvalid) as Hinv. simpl in Hinv.
  destruct (fold_left Base32.decode_step _ _) as [[bits value] bytes].
  destruct Hinv as (Hbits & _ & Hw & Hl & Hbytes). simpl.
  rewrite Hlen, Hnum. fold (idx_word (list_ascii_of_string secret)).
  set (k := Z.of_nat (length (list_ascii_of_string secret))) in *.
  assert (5 * k mod 8 = bits /\ 5 * k / 8 = Z.of_nat (length bytes))
    as [-> ->].
  { pose proof (Z.div_mod (5 * k) 8 ltac:(lia)).
    pose proof (Z.mod_pos_bound (5 * k) 8 ltac:(lia)). lia. }
  rewrite <- Hw, Nat2Z.id. symmetry. by apply be_bytes_be_word.
Qed.

(** What [base32Encode] writes is a secret in the sense of the RFC, and its
    key is the buffer. *)
Lemma rfc4648_decode_encoded raw :
  Forall is_byte raw -> RFC4648.decode (Base32.base32Encode raw) = Some raw.
Proof.
  intros Hraw.
  destruct (base32Encode_spec raw Hraw)
    as (out & pad & Heq & Hpad & Hidx & Hlen & Hvalid).
  assert (Hd : exists ds, RFC4648.digits out = Some ds).
  { clear -Hvalid. induction Hvalid as [|c l (i & Hi & ->) _ (ds & IH)].
    - by exists [].
    - cbn [RFC4648.digits]. rewrite IH.
      assert (exists d, RFC4648.digit (Base32.alphabet_at i) = Some d)
        as (d & ->).
      { assert (exists n : nat, (n < 32)%nat /\ i = Z.of_nat n)
          as (n & Hn & ->) by (exists (Z.to_nat i); lia).
        do 32 (destruct n as [|n]; [by eexists|]). lia. }
      by eexists. }
  destruct Hd as (ds & Hds).
  destruct (rfc_number_idx_word out ds 0 Hds) as (_ & Hl & Hnum).
  unfold RFC4648.decode. rewrite Heq, list_ascii_of_string_of_list_ascii, Hds.
  f_equal. rewrite Hl, Hnum. fold (idx_word out). rewrite Hidx, Hlen.
  assert ((8 * Z.of_nat (length raw) + pad) mod 8 = pad
          /\ (8 * Z.of_nat (length raw) + pad) / 8 = Z.of_nat (length raw))
    as [-> ->].
  { pose proof (Z.div_mod (8 * Z.of_nat (length raw) + pad) 8 ltac:(lia)).
    pose proof (Z.mod_pos_bound (8 * Z.of_nat (length raw) + pad) 8
                  ltac:(lia)). lia. }
  rewrite Z.div_mul by (pose proof (pow2_pos pad); lia).
  rewrite Nat2Z.id. by apply be_bytes_be_word.
Qed.

(** C1.  For every valid secret (a text of Base32 digits, whose key is what
    RFC 4648 decodes it to) and every counter that fits the 8-byte unsigned
    counter of the RFC, [generateCodeForCounter] returns the RFC 4226 value:
    the HMAC-SHA1, under the key, of the 8-byte big-endian counter; the low
    4 bits of its last byte as offset; the 4 bytes at the offset as a
    big-endian number masked to 31 bits; that number modulo 10^6 written
    with exactly 6 decimal digits, leading zeros kept (42 is rendered
    "000042").  The secret in lower case or with ['='] padding gives the
    same code, and the secret [base32Encode] writes for a buffer has that
    buffer as its key. *)
Theorem C1_generateCodeForCounter_rfc4226
  (secret : string) (key : list Z) (counter : Z) :
  RFC4648.decode secret = Some key ->
  0 <= counter < 2 ^ 64 ->
  TOTP.generateCodeForCounter secret counter
  = Some (hotp_rfc4226 key counter)
  /\ (forall k,
        TOTP.generateCodeForCounter (JS.toLowerCase secret ++ padding k)
          counter
        = Some (hotp_rfc4226 key counter))
  /\ (forall raw,
        Forall is_byte raw ->
        RFC4648.decode (Base32.base32Encode raw) = Some raw
        /\ TOTP.generateCodeForCounter (Base32.base32Encode raw) counter
           = Some (hotp_rfc4226 raw counter))
  /\ String.length (hotp_rfc4226 key counter) = 6%nat
  /\ Forall is_digit (list_ascii_of_string (hotp_rfc4226 key counter))
  /\ TOTP.renderCode 42 = "000042"%string.
Proof.
  intros Hkey Hc.
  pose proof (base32Decode_rfc4648 secret key Hkey) as Hdec.
  destruct (hotp_rfc4226_shape key counter).
  split_and!; try done.
  - rewrite generateCodeForCounter_spec by done. by rewrite Hdec.
  - intros k. rewrite generateCodeForCounter_spec by done.
    rewrite base32Decode_padding. unfold Base32.base32Decode.
    rewrite toUpperCase_lower. fold (Base32.base32Decode secret).
    by rewrite Hdec.
  - intros raw Hraw. pose proof (rfc4648_decode_encoded raw Hraw) as Henc.
    split; [done|]. rewrite generateCodeForCounter_spec by done.
    by rewrite (base32Decode_rfc4648 _ raw Henc).
Qed.

(** The secret and the key of the test vectors of RFC 6238. *)
Lemma C1_generateCodeForCounter_rfc4226_witness :
  TOTP.generateCodeForCounter rfc_secret 37037036
  = Some (hotp_rfc4226 rfc_key 37037036).
Proof.
  refine (proj1 (C1_generateCodeForCounter_rfc4226 rfc_secret rfc_key
    37037036 _ _)).
  - vm_compute. reflexivity.
  - split; [discriminate|reflexivity].
Defined.

Example hotp_rfc4226_counter_1 :
  hotp_rfc4226 (Base32.base32Decode rfc_secret) 1 = "287082"%string.
Proof. vm_compute. reflexivity. Qed.

(** * verifyCode *)

Lemma In_window now tolerance c :
  0 <= tolerance ->
  In c (window now tolerance) <-> now - tolerance <= c <= now + tolerance.
Proof.
  intros Ht. unfold window. rewrite in_map_iff. split.
  - intros (k & <- & Hk%in_seq). lia.
  - intros Hc. exists (Z.to_nat (c - (now - tolerance))).
    split; [lia|]. apply in_seq. lia.
Qed.

(** The loop answers whether one of the counters it walks over has the
    submitted code, provided each of them fits the 8-byte counter. *)
Lemma verify_loop_spec secret code now n : forall i,
  (forall k, (k < n)%nat -> 0 <= now + i + Z.of_nat k < 2 ^ 64) ->
  TOTP.verify_loop n secret code now i
  = Some (existsb
            (fun c =>
               String.eqb (hotp_rfc4226 (Base32.base32Decode secret) c) code)
            (map (fun k => now + i + Z.of_nat k) (seq 0 n))).
Proof.
  induction n as [|n IH]; intros i Hr; [done|].
  cbn [TOTP.verify_loop seq map existsb].
  rewrite generateCodeForCounter_spec by (specialize (Hr 0%nat); lia).
  replace (now + i + Z.of_nat 0) with (now + i) by lia.
  destruct (String.eqb _ code); [done|].
  rewrite IH by (intros k Hk; specialize (Hr (S k)); lia).
  cbn [orb]. do 2 f_equal.
  rewrite <- seq_shift, map_map. apply map_ext. intros k. lia.
Qed.

Lemma verifyCode_spec clock secret code tolerance :
  0 <= tolerance <= clock / 30000 -> clock / 30000 + tolerance < 2 ^ 64 ->
  TOTP.verifyCode clock secret code tolerance
  = Some (existsb
            (fun c =>
               String.eqb (hotp_rfc4226 (Base32.base32Decode secret) c) code)
            (window (clock / 30000) tolerance)).
Proof.
  intros Ht Hmax. unfold TOTP.verifyCode. rewrite counterOf_div.
  apply verify_loop_spec. intros k Hk. lia.
Qed.

Lemma verifyCode_true_iff clock secret code tolerance :
  0 <= tolerance <= clock / 30000 -> clock / 30000 + tolerance < 2 ^ 64 ->
  TOTP.verifyCode clock secret code tolerance = Some true
  <-> exists c, In c (window (clock / 30000) tolerance)
                /\ hotp_rfc4226 (Base32.base32Decode secret) c = code.
Proof.
  intros Ht Hmax. rewrite verifyCode_spec by done. split.
  - intros H. apply (inj Some) in H.
    apply existsb_exists in H as (c & Hc & Heq).
    exists c. by apply String.eqb_eq in Heq.
  - intros (c & Hc & Heq). f_equal. apply existsb_exists. exists c.
    split; [done|]. by apply String.eqb_eq.
Qed.

(** C3 (amended).  For every secret, every generation time [t] and every
    verification time [tv], both at least 30 s after the epoch and below
    2^53 ms: [verifyCode] at [tv] with a tolerance from 0 to the counter of
    [tv] tries exactly the counters [now - tolerance .. now + tolerance] and
    accepts when the submitted text equals the code of one of them; the code
    generated at [t] is accepted at [t] and at every [tv] within 29 s of
    [t]; at [tv] 61 s from [t] the counter of [t] is outside the window, and
    the code is accepted only if it happens to equal the code of one of the
    three counters of the window.  In the first 30 s after the epoch
    [verifyCode] with tolerance 1 throws, whatever the code: the first
    counter it tries is -1. *)
Theorem C3_verifyCode_window (secret : string) (t tv : Z) :
  30000 <= t < 2 ^ 53 -> 30000 <= tv < 2 ^ 53 ->
  let hotp := hotp_rfc4226 (Base32.base32Decode secret) in
  let code := hotp (t / 30000) in
  TOTP.generateCode tv secret (Some t) = Some code
  /\ (forall submitted tolerance,
        0 <= tolerance <= tv / 30000 ->
        (forall c, In c (window (tv / 30000) tolerance)
                   <-> tv / 30000 - tolerance <= c <= tv / 30000 + tolerance)
        /\ TOTP.verifyCode tv secret submitted tolerance
           = Some (existsb (fun c => String.eqb (hotp c) submitted)
                     (window (tv / 30000) tolerance)))
  /\ TOTP.verifyCode t secret code 1 = Some true
  /\ (Z.abs (tv - t) <= 29000 ->
      TOTP.verifyCode tv secret code 1 = Some true)
  /\ (Z.abs (tv - t) = 61000 ->
      ~ In (t / 30000) (window (tv / 30000) 1)
      /\ (TOTP.verifyCode tv secret code 1 = Some true
          <-> exists c, In c (window (tv / 30000) 1) /\ hotp c = code))
  /\ (forall early submitted,
        0 <= early < 30000 ->
        TOTP.verifyCode early secret submitted 1 = None).
Proof.
  intros Ht Htv hotp code.
  assert (Hct : 1 <= t / 30000 < 2 ^ 63).
  { split; [apply Z.div_le_lower_bound; lia|].
    apply Z.div_lt_upper_bound; lia. }
  assert (Hctv : 1 <= tv / 30000 < 2 ^ 63).
  { split; [apply Z.div_le_lower_bound; lia|].
    apply Z.div_lt_upper_bound; lia. }
  split_and!.
  - unfold TOTP.generateCode. rewrite counterOf_div. simpl.
    destruct (Z.eqb_spec t 0); [lia|].
    apply generateCodeForCounter_spec. lia.
  - intros submitted tolerance Htol. split.
    + intros c. apply In_window. lia.
    + apply verifyCode_spec; lia.
  - apply verifyCode_true_iff; try lia. exists (t / 30000).
    split; [apply In_window; lia|done].
  - intros Hnear. apply verifyCode_true_iff; try lia. exists (t / 30000).
    split; [|done]. apply In_window; [lia|].
    pose proof (Z.div_mod t 30000 ltac:(lia)).
    pose proof (Z.div_mod tv 30000 ltac:(lia)).
    pose proof (Z.mod_pos_bound t 30000 ltac:(lia)).
    pose proof (Z.mod_pos_bound tv 30000 ltac:(lia)). lia.
  - intros Hfar. split.
    + rewrite In_window by lia.
      pose proof (Z.div_mod t 30000 ltac:(lia)).
      pose proof (Z.div_mod tv 30000 ltac:(lia)).
      pose proof (Z.mod_pos_bound t 30000 ltac:(lia)).
      pose proof (Z.mod_pos_bound tv 30000 ltac:(lia)). lia.
    + apply verifyCode_true_iff; lia.
  - intros early submitted Hearly. unfold TOTP.verifyCode.
    rewrite counterOf_div, Z.div_small by lia.
    replace (Z.to_nat (1 - - (1) + 1)) with 3%nat by lia.
    cbn [TOTP.verify_loop].
    by rewrite generateCodeForCounter_negative by lia.
Qed.

(** A code generated one second before a period boundary is accepted 29
    seconds later, across the boundary. *)
Lemma C3_verifyCode_window_witness :
  TOTP.verifyCode (1700000009000 + 29000) rfc_secret
    (hotp_rfc4226 (Base32.base32Decode rfc_secret) (1700000009000 / 30000)) 1
  = Some true.
Proof.
  refine (proj1 (proj2 (proj2 (proj2 (C3_verifyCode_window rfc_secret
    1700000009000 (1700000009000 + 29000) _ _)))) _).
  - split; [discriminate|reflexivity].
  - split; [discriminate|reflexivity].
  - discriminate.
Defined.

(** C3 (as stated) fails where two counters share a code.  With the RFC
    test secret the code of 2024-03-15 20:11:00 UTC (counter 57017782) is
    "882938", and so is the code of counter 57017784: 61 seconds later the
    window is 57017783..57017785 and the code is accepted. *)
Lemma C3_code_accepted_after_61s :
  TOTP.generateCode 1710533460000 rfc_secret (Some 1710533460000)
  = Some "882938"%string
  /\ TOTP.counterOf 1710533460000 = 57017782
  /\ window (TOTP.counterOf (1710533460000 + 61000)) 1
     = [57017783; 57017784; 57017785]
  /\ TOTP.verifyCode (1710533460000 + 61000) rfc_secret "882938" 1
     = Some true.
Proof. vm_compute. done. Qed.

(** * Further properties of the rate limiter *)

Section LimiterInvariant.
Import JS RateLimit.

Variable cfg : option rateLimitConfig.

Lemma checkRateLimit_other now key key' (store : gmap string entry) :
  key' <> key ->
  (AdvancedSecurity.checkRateLimit cfg now key store).2 !! key'
  = store !! key'.
Proof.
  intros Hne. unfold AdvancedSecurity.checkRateLimit.
  destruct (store !! key) as [e|]; cbn [snd].
  - destruct (now >? resetTime e); cbn [snd]; [by rewrite lookup_insert_ne|].
    destruct (count e >=? effectiveMaxRequests cfg); cbn [snd]; [done|].
    by rewrite lookup_insert_ne.
  - by rewrite lookup_insert_ne.
Qed.

Lemma checkRateLimit_bounded now key (store : gmap string entry) :
  1 <= effectiveMaxRequests cfg ->
  map_Forall (fun _ e => 1 <= count e <= effectiveMaxRequests cfg) store ->
  map_Forall (fun _ e => 1 <= count e <= effectiveMaxRequests cfg)
    (AdvancedSecurity.checkRateLimit cfg now key store).2.
Proof.
  intros HM Hinv. unfold AdvancedSecurity.checkRateLimit.
  destruct (store !! key) as [e|] eqn:He; cbn [snd].
  - pose proof (Hinv key e He) as Hb. cbn beta in Hb.
    destruct (now >? resetTime e); cbn [snd].
    { apply map_Forall_insert_2; [simpl; lia|done]. }
    destruct (Z.geb_spec (count e) (effectiveMaxRequests cfg)); cbn [snd];
      [done|].
    apply map_Forall_insert_2; [simpl; lia|done].
  - apply map_Forall_insert_2; [simpl; lia|done].
Qed.

End LimiterInvariant.

(** X1.  Whatever the keys and instants of the calls, a store the limiter
    built from nothing never holds a count below 1 or above [maxRequests],
    in either middleware, and a call for one key leaves the entries of all
    other keys as they were. *)
Theorem X1_rate_limit_store_invariant
  (cfg : option RateLimit.rateLimitConfig) (calls : list (Z * string)) :
  1 <= RateLimit.effectiveMaxRequests cfg ->
  (forall key e,
      runStore (AdvancedSecurity.checkRateLimit cfg) calls ∅ !! key = Some e ->
      1 <= RateLimit.count e <= RateLimit.effectiveMaxRequests cfg)
  /\ runStore (Security.checkRateLimit cfg) calls ∅
     = runStore (AdvancedSecurity.checkRateLimit cfg) calls ∅
  /\ (forall now key key' (store : gmap string RateLimit.entry),
        key' <> key ->
        (AdvancedSecurity.checkRateLimit cfg now key store).2 !! key'
        = store !! key'
        /\ (Security.checkRateLimit cfg now key store).2 !! key'
           = store !! key').
Proof.
  intros HM.
  assert (Hagree : forall cs (store : gmap string RateLimit.entry),
    runStore (Security.checkRateLimit cfg) cs store
    = runStore (AdvancedSecurity.checkRateLimit cfg) cs store).
  { induction cs as [|[t k] cs IH]; intros store; [done|]. cbn [runStore].
    destruct (checkRateLimit_agree cfg k t store) as (_ & _ & <-). apply IH. }
  split_and!.
  - assert (Hinv : forall cs (store : gmap string RateLimit.entry),
      map_Forall (fun _ e =>
        1 <= RateLimit.count e <= RateLimit.effectiveMaxRequests cfg) store ->
      map_Forall (fun _ e =>
        1 <= RateLimit.count e <= RateLimit.effectiveMaxRequests cfg)
        (runStore (AdvancedSecurity.checkRateLimit cfg) cs store)).
    { induction cs as [|[t k] cs IH]; intros store Hs; [done|].
      cbn [runStore]. apply IH. by apply checkRateLimit_bounded. }
    intros key e He. apply (Hinv calls ∅ (map_Forall_empty _) key e He).
  - apply Hagree.
  - intros now key key' store Hne.
    destruct (checkRateLimit_agree cfg key now store) as (_ & _ & <-).
    split; by apply checkRateLimit_other.
Qed.

Lemma X1_rate_limit_store_invariant_witness :
  runStore
    (Security.checkRateLimit
       (Some {| RateLimit.windowMs := Some 60000;
                RateLimit.maxRequests := Some 2 |}))
    [(1700000000000, "a:/x"); (1700000000001, "b:/x");
     (1700000000002, "a:/x"); (1700000000003, "a:/x")]%string ∅
  = runStore
      (AdvancedSecurity.checkRateLimit
         (Some {| RateLimit.windowMs := Some 60000;
                  RateLimit.maxRequests := Some 2 |}))
      [(1700000000000, "a:/x"); (1700000000001, "b:/x");
       (1700000000002, "a:/x"); (1700000000003, "a:/x")]%string ∅.
Proof.
  refine (proj1 (proj2 (X1_rate_limit_store_invariant
    (Some {| RateLimit.windowMs := Some 60000;
             RateLimit.maxRequests := Some 2 |})
    [(1700000000000, "a:/x"); (1700000000001, "b:/x");
     (1700000000002, "a:/x"); (1700000000003, "a:/x")]%string _))).
  vm_compute. discriminate.
Defined.

Section LimiterRuns.
Import JS RateLimit.

Variable cfg : option rateLimitConfig.
Variable key : string.

(** Calls inside the window, below the limit: all pass, and the counter has
    counted them. *)
Lemma runCalls_below_limit ts : forall (store : gmap string entry) c R,
  store !! key = Some {| count := c; resetTime := R |} ->
  Forall (fun t => t <= R) ts ->
  c + Z.of_nat (length ts) <= effectiveMaxRequests cfg ->
  map allowed (runCalls (AdvancedSecurity.checkRateLimit cfg) key ts store)
  = repeat true (length ts)
  /\ runStore (AdvancedSecurity.checkRateLimit cfg)
       (map (fun t => (t, key)) ts) store !! key
     = Some {| count := c + Z.of_nat (length ts); resetTime := R |}.
Proof.
  induction ts as [|t ts IH]; intros store c R Hs Hts Hc.
  - cbn [length Z.of_nat]. rewrite Z.add_0_r. done.
  - inversion Hts as [|? ? Ht Hts']; subst.
    cbn [length] in Hc. cbn [runCalls map runStore length repeat].
    rewrite (checkRateLimit_count cfg key t store c R Hs Ht) by lia.
    cbn [snd map allowed].
    destruct (IH (<[key := {| count := c + 1; resetTime := R |}]> store)
                (c + 1) R) as [Hflags Hfinal];
      [by rewrite lookup_insert_eq|done|lia|].
    rewrite Hflags, Hfinal. split; [done|]. do 2 f_equal. lia.
Qed.

Lemma runCalls_app ts1 : forall ts2 (store : gmap string entry),
  runCalls (AdvancedSecurity.checkRateLimit cfg) key (ts1 ++ ts2) store
  = runCalls (AdvancedSecurity.checkRateLimit cfg) key ts1 store
    ++ runCalls (AdvancedSecurity.checkRateLimit cfg) key ts2
         (runStore (AdvancedSecurity.checkRateLimit cfg)
            (map (fun t => (t, key)) ts1) store).
Proof.
  induction ts1 as [|t ts1 IH]; intros ts2 store; [done|].
  cbn [app runCalls map runStore].
  destruct (AdvancedSecurity.checkRateLimit cfg t key store) as [r store'].
  cbn [snd]. by rewrite IH.
Qed.

(** A fresh window opened at [t], then [n] more calls at [t'] inside it:
    all pass while [n + 1] stays within the limit. *)
Lemma runCalls_fresh_window t t' n (store : gmap string entry) :
  (store !! key = None
   \/ exists e, store !! key = Some e /\ resetTime e < t) ->
  t' <= t + effectiveWindowMs cfg ->
  1 + Z.of_nat n <= effectiveMaxRequests cfg ->
  map allowed
    (runCalls (AdvancedSecurity.checkRateLimit cfg) key (t :: repeat t' n)
       store)
  = repeat true (S n)
  /\ runStore (AdvancedSecurity.checkRateLimit cfg)
       (map (fun t => (t, key)) (t :: repeat t' n)) store !! key
     = Some {| count := 1 + Z.of_nat n;
               resetTime := t + effectiveWindowMs cfg |}.
Proof.
  intros Hfresh Ht' Hn. cbn [runCalls map runStore repeat].
  rewrite (checkRateLimit_fresh cfg key t store Hfresh). cbn [snd map allowed].
  destruct (runCalls_below_limit (repeat t' n)
              (<[key := {| count := 1;
                           resetTime := t + effectiveWindowMs cfg |}]> store)
              1 (t + effectiveWindowMs cfg)) as [Hflags Hfinal].
  - by rewrite lookup_insert_eq.
  - apply Forall_forall. intros x Hx%list_elem_of_In%repeat_spec. by subst.
  - rewrite repeat_length. lia.
  - rewrite repeat_length in Hflags, Hfinal. by rewrite Hflags, Hfinal.
Qed.

End LimiterRuns.

(** X2.  The window is fixed, not sliding: with a limit of [m >= 1] requests
    per window of [W >= 0] ms, a first request at [t0], [m - 1] requests at
    the last instant [t0 + W] of its window and [m] requests one millisecond
    later are all allowed, in both middlewares: [2 m - 1] requests pass
    within 2 ms. *)
Theorem X2_fixed_window_burst
  (cfg : option RateLimit.rateLimitConfig) (key : string) (t0 : Z) (m : nat) :
  RateLimit.effectiveMaxRequests cfg = Z.of_nat m -> (1 <= m)%nat ->
  0 <= RateLimit.effectiveWindowMs cfg ->
  let W := RateLimit.effectiveWindowMs cfg in
  let times :=
    (t0 :: repeat (t0 + W) (m - 1)) ++ (t0 + W + 1 :: repeat (t0 + W + 1) (m - 1)) in
  map RateLimit.allowed
    (runCalls (AdvancedSecurity.checkRateLimit cfg) key times ∅)
  = repeat true (2 * m)
  /\ map RateLimit.allowed
       (runCalls (Security.checkRateLimit cfg) key times ∅)
     = repeat true (2 * m).
Proof.
  intros HM Hm HW W times.
  assert (Hadv :
    map RateLimit.allowed
      (runCalls (AdvancedSecurity.checkRateLimit cfg) key times ∅)
    = repeat true (2 * m)).
  { unfold times. rewrite runCalls_app, map_app.
    destruct (runCalls_fresh_window cfg key t0 (t0 + W) (m - 1) ∅)
      as [Hf1 Hs1]; [by left|done|lia|].
    rewrite Hf1.
    destruct (runCalls_fresh_window cfg key (t0 + W + 1) (t0 + W + 1) (m - 1)
                (runStore (AdvancedSecurity.checkRateLimit cfg)
                   (map (fun t => (t, key)) (t0 :: repeat (t0 + W) (m - 1))) ∅))
      as [Hf2 _].
    - right. eexists. split; [exact Hs1|]. cbn [RateLimit.resetTime].
      fold W. lia.
    - fold W. lia.
    - lia.
    - rewrite Hf2, <- repeat_app. f_equal. lia. }
  split; [exact Hadv|]. rewrite <- Hadv.
  pose proof (runCalls_agree cfg key times ∅) as Hag.
  apply (f_equal (map fst)) in Hag. rewrite !map_map in Hag.
  simpl in Hag. symmetry. exact Hag.
Qed.

Lemma X2_fixed_window_burst_witness :
  map RateLimit.allowed
    (runCalls
       (Security.checkRateLimit
          (Some {| RateLimit.windowMs := Some 60000;
                   RateLimit.maxRequests := Some 3 |}))
       "203.0.113.7:/api/2fa/verify"
       ((1700000000000 :: repeat (1700000000000 + 60000) (3 - 1))
        ++ (1700000000000 + 60000 + 1
            :: repeat (1700000000000 + 60000 + 1) (3 - 1))) ∅)
  = repeat true (2 * 3).
Proof.
  refine (proj2 (X2_fixed_window_burst
    (Some {| RateLimit.windowMs := Some 60000;
             RateLimit.maxRequests := Some 3 |})
    "203.0.113.7:/api/2fa/verify" 1700000000000 3 _ _ _)).
  - reflexivity.
  - lia.
  - vm_compute. discriminate.
Defined.

Section HandleQuota.
Import JS RateLimit AdvancedSecurity.

Variable cfg : SecurityConfig.
Variable rl : rateLimitConfig.
Hypothesis cfg_limit : rateLimit cfg = Some rl.
Hypothesis cfg_auth : requireAuth cfg = true.

Lemma handle_unauthenticated t req (store : gmap string entry) c R :
  store !! rateKey (clientIP req) (pathname req)
  = Some {| count := c; resetTime := R |} ->
  t <= R -> c < effectiveMaxRequests (Some rl) -> authUser req = None ->
  handle cfg t req store
  = (denied401, ["unauthorized_access"%string],
     <[rateKey (clientIP req) (pathname req)
       := {| count := c + 1; resetTime := R |}]> store).
Proof.
  intros Hs Ht Hc Hu. unfold handle. rewrite cfg_limit.
  rewrite (checkRateLimit_count _ _ t store c R Hs Ht Hc). cbn [allowed negb].
  unfold handleAfterRateLimit. by rewrite cfg_auth, Hu.
Qed.

Lemma handle_first_unauthenticated t req (store : gmap string entry) :
  store !! rateKey (clientIP req) (pathname req) = None ->
  authUser req = None ->
  handle cfg t req store
  = (denied401, ["unauthorized_access"%string],
     <[rateKey (clientIP req) (pathname req)
       := {| count := 1;
             resetTime := t + effectiveWindowMs (Some rl) |}]> store).
Proof.
  intros Hs Hu. unfold handle. rewrite cfg_limit.
  rewrite (checkRateLimit_fresh _ _ t store) by by left.
  cbn [allowed negb].
  unfold handleAfterRateLimit. by rewrite cfg_auth, Hu.
Qed.

Lemma handle_over_limit t req (store : gmap string entry) c R :
  store !! rateKey (clientIP req) (pathname req)
  = Some {| count := c; resetTime := R |} ->
  t <= R -> effectiveMaxRequests (Some rl) <= c ->
  (handle cfg t req store).1.1 = denied429.
Proof.
  intros Hs Ht Hc. unfold handle. rewrite cfg_limit.
  by rewrite (checkRateLimit_reject _ _ t store c R Hs Ht Hc).
Qed.

Lemma runHandle_unauthenticated ip path reqs :
  forall (store : gmap string entry) c R,
  store !! rateKey ip path = Some {| count := c; resetTime := R |} ->
  Forall (fun tr : Z * Request =>
            tr.1 <= R /\ clientIP tr.2 = ip /\ pathname tr.2 = path
            /\ authUser tr.2 = None) reqs ->
  c + Z.of_nat (length reqs) <= effectiveMaxRequests (Some rl) ->
  (runHandle cfg reqs store).1 = repeat denied401 (length reqs)
  /\ (runHandle cfg reqs store).2 !! rateKey ip path
     = Some {| count := c + Z.of_nat (length reqs); resetTime := R |}.
Proof.
  induction reqs as [|[t req] reqs IH]; intros store c R Hs Hreqs Hc.
  - cbn [length Z.of_nat runHandle fst snd repeat]. by rewrite Z.add_0_r.
  - inversion Hreqs as [|? ? (Ht & Hip & Hpath & Hu) Hreqs']; subst.
    cbn [fst snd] in *. cbn [length] in Hc. cbn [runHandle].
    rewrite (handle_unauthenticated t req store c R) by (done || lia).
    destruct (IH (<[rateKey (clientIP req) (pathname req)
                    := {| count := c + 1; resetTime := R |}]> store)
                (c + 1) R) as [Hr Hf];
      [by rewrite lookup_insert_eq|done|lia|].
    destruct (runHandle cfg reqs _) as [resps store'']. cbn [fst snd] in *.
    rewrite Hr, Hf. split; [done|]. cbn [length]. do 2 f_equal. lia.
Qed.

End HandleQuota.

(** X3.  [handle] counts a request before it looks at its authentication:
    when [maxRequests] requests without a signed-in user arrive from one
    address for one path inside a window, each is answered 401 and each uses
    up quota, so a further request from that address for that path inside
    the window is answered 429, whoever sends it. *)
Theorem X3_unauthenticated_requests_use_quota
  (cfg : AdvancedSecurity.SecurityConfig) (rl : RateLimit.rateLimitConfig)
  (ip path : string) (t0 : Z) (first : AdvancedSecurity.Request)
  (reqs : list (Z * AdvancedSecurity.Request))
  (t : Z) (next : AdvancedSecurity.Request)
  (store : gmap string RateLimit.entry) :
  AdvancedSecurity.rateLimit cfg = Some rl ->
  AdvancedSecurity.requireAuth cfg = true ->
  store !! RateLimit.rateKey ip path = None ->
  let R := t0 + RateLimit.effectiveWindowMs (Some rl) in
  Forall (fun tr : Z * AdvancedSecurity.Request =>
            tr.1 <= R /\ AdvancedSecurity.clientIP tr.2 = ip
            /\ AdvancedSecurity.pathname tr.2 = path
            /\ AdvancedSecurity.authUser tr.2 = None) ((t0, first) :: reqs) ->
  1 + Z.of_nat (length reqs) = RateLimit.effectiveMaxRequests (Some rl) ->
  AdvancedSecurity.clientIP next = ip ->
  AdvancedSecurity.pathname next = path -> t <= R ->
  (runHandle cfg ((t0, first) :: reqs) store).1
  = repeat denied401 (S (length reqs))
  /\ (AdvancedSecurity.handle cfg t next
        (runHandle cfg ((t0, first) :: reqs) store).2).1.1
     = denied429.
Proof.
  intros Hrl Hauth Hs R Hreqs HM Hip Hpath Ht.
  apply Forall_cons in Hreqs as [(_ & Hip0 & Hpath0 & Hu0) Hreqs'].
  cbn [fst snd] in *. cbn [runHandle].
  rewrite (handle_first_unauthenticated cfg rl Hrl Hauth t0 first store)
    by (by rewrite ?Hip0, ?Hpath0).
  rewrite Hip0, Hpath0. fold R.
  destruct (runHandle_unauthenticated cfg rl Hrl Hauth ip path reqs
              (<[RateLimit.rateKey ip path
                 := {| RateLimit.count := 1; RateLimit.resetTime := R |}]> store)
              1 R) as [Hr Hf];
    [by rewrite lookup_insert_eq|done|lia|].
  destruct (runHandle cfg reqs _) as [resps store'']. cbn [fst snd] in *.
  split; [by rewrite Hr|].
  apply (handle_over_limit cfg rl Hrl t next store''
           (1 + Z.of_nat (length reqs)) R); [|done|lia].
  by rewrite Hip, Hpath.
Qed.

Lemma X3_unauthenticated_requests_use_quota_witness :
  (AdvancedSecurity.handle adminConfig 1700000000500 unverifiedRequest
     (runHandle adminConfig
        ((1700000000000, withUser unverifiedRequest None)
         :: repeat (1700000000100, withUser unverifiedRequest None) 99)
        ∅).2).1.1
  = denied429.
Proof.
  refine (proj2 (X3_unauthenticated_requests_use_quota adminConfig
    {| RateLimit.windowMs := Some RateLimit.RATE_LIMIT_CONFIG_windowMs;
       RateLimit.maxRequests := Some RateLimit.RATE_LIMIT_CONFIG_maxRequests |}
    "203.0.113.7" "/api/admin/users" 1700000000000
    (withUser unverifiedRequest None)
    (repeat (1700000000100, withUser unverifiedRequest None) 99)
    1700000000500 unverifiedRequest ∅ _ _ _ _ _ _ _ _)).
  - reflexivity.
  - reflexivity.
  - reflexivity.
  - apply Forall_cons. split; [by vm_compute|].
    apply Forall_forall. intros x Hx%list_elem_of_In%repeat_spec. subst x.
    by vm_compute.
  - reflexivity.
  - reflexivity.
  - reflexivity.
  - by vm_compute.
Defined.

(** * Further properties of the lockout tracker *)

Section LockoutRuns.
Import JS EnhancedAuth.

Lemma failures_snoc times t userId ip (tbl : gmap string lockout) :
  failures (times ++ [t]) userId ip tbl
  = (recordFailedAttempt t t userId ip (failures times userId ip tbl)).1.
Proof. unfold failures. by rewrite fold_left_app. Qed.

Lemma failures_count times : forall userId ip (tbl : gmap string lockout),
  attemptsBefore (failures times userId ip tbl) userId
  = attemptsBefore tbl userId + Z.of_nat (length times).
Proof.
  induction times as [|t times IH] using rev_ind; intros userId ip tbl.
  - simpl. lia.
  - rewrite failures_snoc. unfold attemptsBefore at 1.
    rewrite recordFailedAttempt_row. cbn [failed_attempts].
    rewrite IH, length_app. cbn [length]. lia.
Qed.

Lemma failures_other times : forall userId ip other (tbl : gmap string lockout),
  other <> userId -> failures times userId ip tbl !! other = tbl !! other.
Proof.
  induction times as [|t times IH] using rev_ind; intros userId ip other tbl Hne.
  - done.
  - rewrite failures_snoc, recordFailedAttempt_other by done. by apply IH.
Qed.

End LockoutRuns.

(** X4.  After any run of failed attempts of an account, the last at [t],
    its row counts the attempts that were there before plus those of the
    run, and carries the address and instant of the last one; once the count
    is 5 or more the account is locked until 15 minutes after the last
    attempt (each further failure restarts the 15 minutes): a check before
    that deadline answers locked with the time that remains and changes
    nothing, a check from the deadline on deletes the row.  Rows of other
    accounts are not touched. *)
Theorem X4_failures_lock_from_last_attempt
  (times : list Z) (t : Z) (userId ip : string)
  (tbl : gmap string EnhancedAuth.lockout) :
  let n := attemptsBefore tbl userId + Z.of_nat (length times) + 1 in
  let tbl' := failures (times ++ [t]) userId ip tbl in
  tbl' !! userId
  = Some {| EnhancedAuth.failed_attempts := n;
            EnhancedAuth.locked_until :=
              if 5 <=? n then Some (t + 15 * 60 * 1000) else None;
            EnhancedAuth.ip_address := ip;
            EnhancedAuth.last_attempt := t |}
  /\ (5 <= n ->
      forall now,
        (now < t + 15 * 60 * 1000 ->
         EnhancedAuth.checkAccountLockout now userId tbl'
         = ({| EnhancedAuth.locked := true;
               EnhancedAuth.remainingTime := t + 15 * 60 * 1000 - now;
               EnhancedAuth.failedAttempts := n |}, tbl'))
        /\ (t + 15 * 60 * 1000 <= now ->
            EnhancedAuth.checkAccountLockout now userId tbl'
            = ({| EnhancedAuth.locked := false;
                  EnhancedAuth.remainingTime := 0;
                  EnhancedAuth.failedAttempts := 0 |}, delete userId tbl')))
  /\ (forall other, other <> userId -> tbl' !! other = tbl !! other).
Proof.
  intros n tbl'.
  assert (Hrow : tbl' !! userId
    = Some {| EnhancedAuth.failed_attempts := n;
              EnhancedAuth.locked_until :=
                if 5 <=? n then Some (t + 15 * 60 * 1000) else None;
              EnhancedAuth.ip_address := ip;
              EnhancedAuth.last_attempt := t |}).
  { unfold tbl'. rewrite failures_snoc, recordFailedAttempt_row.
    rewrite failures_count. done. }
  split_and!.
  - exact Hrow.
  - intros Hn now.
    assert (Hl : (5 <=? n) = true) by by apply Z.leb_le.
    rewrite Hl in Hrow. split; intros Hnow.
    + by rewrite (checkAccountLockout_locked now userId tbl' _ _ Hrow eq_refl).
    + by rewrite (checkAccountLockout_expired now userId tbl' _ _ Hrow eq_refl).
  - intros other Hne. unfold tbl'. by apply failures_other.
Qed.

(** Five failures in a row: locked for 15 minutes from the fifth. *)
Lemma X4_failures_lock_from_last_attempt_witness :
  EnhancedAuth.checkAccountLockout 1700000064000 "user-1"
    (failures ([1700000000000; 1700000001000; 1700000002000; 1700000003000]
               ++ [1700000004000]) "user-1" "203.0.113.7" ∅)
  = ({| EnhancedAuth.locked := true;
        EnhancedAuth.remainingTime :=
          1700000004000 + 15 * 60 * 1000 - 1700000064000;
        EnhancedAuth.failedAttempts :=
          attemptsBefore ∅ "user-1" + Z.of_nat 4 + 1 |},
     failures ([1700000000000; 1700000001000; 1700000002000; 1700000003000]
               ++ [1700000004000]) "user-1" "203.0.113.7" ∅).
Proof.
  refine (proj1 (proj1 (proj2 (X4_failures_lock_from_last_attempt
    [1700000000000; 1700000001000; 1700000002000; 1700000003000]
    1700000004000 "user-1" "203.0.113.7" ∅)) _ 1700000064000) _).
  - vm_compute. discriminate.
  - reflexivity.
Defined.

(** X5.  [clearFailedAttempts] resets an account whatever state it is in,
    locked or not: right after it a check answers not locked with no failed
    attempts and leaves the table alone, the next failed attempt counts 1
    and sets no deadline; clearing twice is clearing once, and no other
    account's row changes. *)
Theorem X5_clearFailedAttempts_resets
  (userId ip : string) (now t : Z) (tbl : gmap string EnhancedAuth.lockout) :
  let cleared := EnhancedAuth.clearFailedAttempts userId tbl in
  EnhancedAuth.checkAccountLockout now userId cleared
  = ({| EnhancedAuth.locked := false; EnhancedAuth.remainingTime := 0;
        EnhancedAuth.failedAttempts := 0 |}, cleared)
  /\ (EnhancedAuth.recordFailedAttempt t t userId ip cleared).1 !! userId
     = Some {| EnhancedAuth.failed_attempts := 1;
               EnhancedAuth.locked_until := None;
               EnhancedAuth.ip_address := ip;
               EnhancedAuth.last_attempt := t |}
  /\ EnhancedAuth.clearFailedAttempts userId cleared = cleared
  /\ (forall other, other <> userId -> cleared !! other = tbl !! other).
Proof.
  intros cleared. unfold cleared, EnhancedAuth.clearFailedAttempts.
  split_and!.
  - unfold EnhancedAuth.checkAccountLockout. by rewrite lookup_delete_eq.
  - rewrite recordFailedAttempt_row. unfold attemptsBefore.
    by rewrite lookup_delete_eq.
  - apply delete_id. apply lookup_delete_eq.
  - intros other Hne. by apply lookup_delete_ne.
Qed.

(** * Further properties of the session table *)

Section TerminateOldest.
Import EnhancedAuth.

Variable orderDesc : list session -> list session.
Hypothesis orderDesc_perm : forall l, Permutation (orderDesc l) l.

Lemma listed_is_active userId keep (db : list session) x :
  In x (map id (skipn keep (orderDesc (List.filter (activeOf userId) db)))) ->
  exists t, In t db /\ activeOf userId t = true /\ id t = x.
Proof.
  intros Hx. apply in_map_iff in Hx as (t & Hid & Ht). exists t.
  assert (In t (List.filter (activeOf userId) db)) as Hin.
  { apply (Permutation_in _ (orderDesc_perm _)).
    rewrite <- (firstn_skipn keep). apply in_or_app. by right. }
  apply filter_In in Hin as [? ?]. done.
Qed.

Lemma terminateOldestSessions_count now userId keep (db : list session) :
  NoDup (map id db) ->
  getActiveSessionCount userId
    (terminateOldestSessions orderDesc now userId keep db)
  = Nat.min (getActiveSessionCount userId db) keep.
Proof.
  intros Hnd. unfold terminateOldestSessions, getActiveSessionCount.
  rewrite (orderDesc_length orderDesc orderDesc_perm).
  destruct (Nat.ltb_spec keep (length (List.filter (activeOf userId) db)))
    as [Hmore|Hfew].
  - rewrite (active_after_terminate orderDesc orderDesc_perm userId db keep
               Hnd now).
    rewrite length_take, (orderDesc_length orderDesc orderDesc_perm). lia.
  - lia.
Qed.

End TerminateOldest.

(** X6.  [terminateOldestSessions] for any [keepCount] (session ids are the
    table's primary key, the ordering returns the rows it was given): the
    account is left with min(active before, keepCount) active sessions, so
    with [keepCount = 0] none; running it again, at any later instant,
    changes nothing; rows of other accounts and rows that were already
    inactive are kept as they are; and every row that did change belongs to
    the account, is now inactive and carries the instant of the call in
    [terminated_at]. *)
Theorem X6_terminateOldestSessions_general
  (orderDesc : list EnhancedAuth.session -> list EnhancedAuth.session)
  (now : Z) (userId : string) (keepCount : nat)
  (db : list EnhancedAuth.session) :
  (forall l, Permutation (orderDesc l) l) ->
  NoDup (map EnhancedAuth.id db) ->
  let db' :=
    EnhancedAuth.terminateOldestSessions orderDesc now userId keepCount db in
  EnhancedAuth.getActiveSessionCount userId db'
  = Nat.min (EnhancedAuth.getActiveSessionCount userId db) keepCount
  /\ (forall later,
        EnhancedAuth.terminateOldestSessions orderDesc later userId keepCount
          db' = db')
  /\ (forall s, In s db -> EnhancedAuth.activeOf userId s = false -> In s db')
  /\ (forall s', In s' db' -> ~ In s' db ->
        EnhancedAuth.user_id s' = userId
        /\ EnhancedAuth.is_active s' = false
        /\ EnhancedAuth.terminated_at s' = Some now)
  /\ map EnhancedAuth.id db' = map EnhancedAuth.id db.
Proof.
  intros Hperm Hnd db'.
  pose proof (terminateOldestSessions_count orderDesc Hperm now userId
                keepCount db Hnd) as Hcount.
  fold db' in Hcount.
  split_and!.
  - exact Hcount.
  - intros later. unfold EnhancedAuth.terminateOldestSessions at 1.
    rewrite (orderDesc_length orderDesc Hperm).
    unfold EnhancedAuth.getActiveSessionCount in Hcount.
    destruct (Nat.ltb_spec keepCount
                (length (List.filter (EnhancedAuth.activeOf userId) db')))
      as [Hmore|_]; [lia|done].
  - intros s Hs Hoff. unfold db', EnhancedAuth.terminateOldestSessions.
    destruct (_ <? _)%nat; [|done].
    apply in_map_iff. exists s. split; [|done].
    unfold EnhancedAuth.terminate.
    destruct (existsb _ _) eqn:Hl; [|done]. exfalso.
    apply existsb_eqb_In in Hl.
    apply (listed_is_active orderDesc Hperm) in Hl as (t & Ht & Hact & Hid).
    assert (t = s) as -> by (by apply (NoDup_map_inj EnhancedAuth.id db)).
    congruence.
  - intros s' Hs' Hnew. unfold db', EnhancedAuth.terminateOldestSessions in Hs'.
    destruct (_ <? _)%nat; [|done].
    apply in_map_iff in Hs' as (s & <- & Hs).
    unfold EnhancedAuth.terminate in *.
    destruct (existsb _ _) eqn:Hl; [|done]. cbn.
    apply existsb_eqb_In in Hl.
    apply (listed_is_active orderDesc Hperm) in Hl as (t & Ht & Hact & Hid).
    assert (t = s) as -> by (by apply (NoDup_map_inj EnhancedAuth.id db)).
    unfold EnhancedAuth.activeOf in Hact.
    apply andb_true_iff in Hact as [Hu _]. apply String.eqb_eq in Hu. done.
  - unfold db', EnhancedAuth.terminateOldestSessions.
    destruct (_ <? _)%nat; [|done]. apply map_id_terminate.
Qed.

(** Keeping two of the six active sessions of an account. *)
Lemma X6_terminateOldestSessions_general_witness :
  EnhancedAuth.getActiveSessionCount "user-1"
    (EnhancedAuth.terminateOldestSessions EnhancedAuth.sortDesc 1700000700000
       "user-1" 2 six_sessions)
  = Nat.min (EnhancedAuth.getActiveSessionCount "user-1" six_sessions) 2.
Proof.
  refine (proj1 (X6_terminateOldestSessions_general EnhancedAuth.sortDesc
    1700000700000 "user-1" 2 six_sessions sortDesc_perm _)).
  apply (bool_decide_unpack _). vm_compute. exact I.
Defined.

Section ActivityStamp.
Import EnhancedAuth EnhancedAuthMore.

Lemma activeOf_touch now userId s :
  activeOf userId (touch now s) = activeOf userId s.
Proof. done. Qed.

Lemma updateLastActivity_filter now userId ua (db : list session) ag :
  List.filter (activeOf userId) (updateLastActivity now userId ua db ag).1
  = map (touch now) (List.filter (activeOf userId) db).
Proof.
  simpl. induction db as [|s db IH]; simpl; [done|].
  destruct (activeOf userId s) eqn:Ha; simpl.
  - rewrite activeOf_touch, Ha. simpl. by rewrite IH.
  - by rewrite Ha, IH.
Qed.

Lemma updateLastActivity_ids now userId ua (db : list session) ag :
  map id (updateLastActivity now userId ua db ag).1 = map id db.
Proof.
  simpl. rewrite map_map. apply map_ext. intros s.
  by destruct (activeOf userId s).
Qed.

Lemma updateLastActivity_agent_active now userId ua (db : list session) ag s :
  In s db -> activeOf userId s = true ->
  (updateLastActivity now userId ua db ag).2 !! id s = Some ua.
Proof.
  simpl. induction db as [|x db IH]; simpl; [done|].
  intros [->|Hs] Ha.
  - rewrite Ha. apply lookup_insert_eq.
  - destruct (activeOf userId x); [|by apply IH].
    destruct (decide (id x = id s)) as [->|Hne].
    + apply lookup_insert_eq.
    + rewrite lookup_insert_ne by done. by apply IH.
Qed.

Lemma updateLastActivity_agent_other now userId ua (db : list session) ag i :
  (forall s, In s db -> activeOf userId s = true -> id s <> i) ->
  (updateLastActivity now userId ua db ag).2 !! i = ag !! i.
Proof.
  simpl. induction db as [|x db IH]; simpl; [done|]. intros H.
  destruct (activeOf userId x) eqn:Ha.
  - rewrite lookup_insert_ne by (apply H; auto). apply IH. auto.
  - apply IH. auto.
Qed.

Lemma stamped_sorted now (l : list session) :
  Forall (fun s => last_activity s = now) l ->
  StronglySorted (fun a b => last_activity b <= last_activity a) l.
Proof.
  induction 1 as [|s l Hs Hl IH]; constructor; [done|].
  eapply Forall_impl; [exact Hl|]. simpl. intros b Hb. lia.
Qed.

End ActivityStamp.

(** X7.  [updateLastActivity] stamps every active session of the account
    with the instant of the call and the request's user agent, and nothing
    else: the same sessions are active afterwards, rows of other accounts
    and inactive rows are kept with their user agents (session ids are the
    primary key).  Since all active sessions of the account then carry the
    same [last_activity], every arrangement of them is in descending order
    of [last_activity]: at the next session-limit check the order of
    activity no longer tells them apart. *)
Theorem X7_updateLastActivity_stamps_all
  (now : Z) (userId userAgent : string) (db : list EnhancedAuth.session)
  (agents : gmap Z string) :
  NoDup (map EnhancedAuth.id db) ->
  let db' :=
    (EnhancedAuthMore.updateLastActivity now userId userAgent db agents).1 in
  let agents' :=
    (EnhancedAuthMore.updateLastActivity now userId userAgent db agents).2 in
  activeIds userId db' = activeIds userId db
  /\ map EnhancedAuth.id db' = map EnhancedAuth.id db
  /\ (forall s', In s' db' -> EnhancedAuth.activeOf userId s' = true ->
        EnhancedAuth.last_activity s' = now
        /\ agents' !! EnhancedAuth.id s' = Some userAgent)
  /\ (forall s, In s db -> EnhancedAuth.activeOf userId s = false ->
        In s db'
        /\ agents' !! EnhancedAuth.id s = agents !! EnhancedAuth.id s)
  /\ (forall l,
        Permutation l (List.filter (EnhancedAuth.activeOf userId) db') ->
        StronglySorted
          (fun a b =>
             EnhancedAuth.last_activity b <= EnhancedAuth.last_activity a) l).
Proof.
  intros Hnd db' agents'.
  assert (Hact : forall s', In s' db' ->
            EnhancedAuth.activeOf userId s' = true ->
            exists s, In s db /\ EnhancedAuth.activeOf userId s = true
                      /\ s' = EnhancedAuthMore.touch now s).
  { intros s' Hs' Ha. unfold db' in Hs'. simpl in Hs'.
    apply in_map_iff in Hs' as (s & Heq & Hs). exists s.
    destruct (EnhancedAuth.activeOf userId s) eqn:Hs_act.
    - done.
    - subst s'. congruence. }
  split_and!.
  - unfold activeIds, db'. rewrite updateLastActivity_filter, map_map.
    done.
  - apply updateLastActivity_ids.
  - intros s' Hs' Ha. destruct (Hact s' Hs' Ha) as (s & Hs & Hsa & ->).
    split; [done|]. unfold agents'.
    by apply (updateLastActivity_agent_active now userId userAgent db agents s).
  - intros s Hs Hoff. split.
    + unfold db'. simpl. apply in_map_iff. exists s. by rewrite Hoff.
    + unfold agents'. apply updateLastActivity_agent_other.
      intros t Ht Hta Hid.
      assert (t = s) as -> by (by apply (NoDup_map_inj EnhancedAuth.id db)).
      congruence.
  - intros l Hl. apply (stamped_sorted now). apply Forall_forall. intros s Hs.
    apply list_elem_of_In in Hs.
    apply (Permutation_in _ Hl) in Hs. apply filter_In in Hs as [Hs Ha].
    by destruct (Hact s Hs Ha) as (s0 & _ & _ & ->).
Qed.

(** The six active sessions of an account all get the same stamp. *)
Lemma X7_updateLastActivity_stamps_all_witness :
  activeIds "user-1"
    (EnhancedAuthMore.updateLastActivity 1700000800000 "user-1" "agent/1.0"
       six_sessions ∅).1
  = activeIds "user-1" six_sessions.
Proof.
  refine (proj1 (X7_updateLastActivity_stamps_all 1700000800000 "user-1"
    "agent/1.0" six_sessions ∅ _)).
  apply (bool_decide_unpack _). vm_compute. exact I.
Defined.

Section CheckAuth.
Import JS EnhancedAuth EnhancedAuthMore.

Lemma checkConcurrentSessions_count orderDesc now userId (db : list session) :
  (forall l, Permutation (orderDesc l) l) -> NoDup (map id db) ->
  (getActiveSessionCount userId
     (checkConcurrentSessions orderDesc now userId db) <= 5)%nat.
Proof.
  intros Hperm Hnd.
  unfold checkConcurrentSessions, SESSION_CONFIG_maxConcurrentSessions.
  destruct (Nat.ltb_spec 5 (getActiveSessionCount userId db)) as [Hmore|Hfew].
  - rewrite (terminateOldestSessions_count orderDesc Hperm) by done. lia.
  - done.
Qed.

Lemma updateLastActivity_count now userId ua (db : list session) ag :
  getActiveSessionCount userId (updateLastActivity now userId ua db ag).1
  = getActiveSessionCount userId db.
Proof.
  unfold getActiveSessionCount.
  by rewrite updateLastActivity_filter, length_map.
Qed.

Lemma updateLastActivity_stamp now userId ua (db : list session) ag s :
  In s (updateLastActivity now userId ua db ag).1 ->
  activeOf userId s = true -> last_activity s = now.
Proof.
  simpl. intros Hs Ha. apply in_map_iff in Hs as (s0 & Heq & _).
  destruct (activeOf userId s0) eqn:H0; subst s; [done|congruence].
Qed.

Lemma ceil_div_minutes a : 0 < a -> 1 <= ceil_div a 60000.
Proof.
  intros Ha. unfold ceil_div.
  assert ((- a) / 60000 < 0) by (apply Z.div_lt_upper_bound; lia). lia.
Qed.

Lemma checkAccountLockout_other now userId (tbl : gmap string lockout) other :
  other <> userId ->
  (checkAccountLockout now userId tbl).2 !! other = tbl !! other.
Proof.
  intros Hne. unfold checkAccountLockout.
  destruct (tbl !! userId) as [r|]; [|done].
  destruct (_ <? _); [done|]. simpl. by apply lookup_delete_ne.
Qed.

Lemma checkAccountLockout_locked_iff now userId (tbl : gmap string lockout) :
  locked (checkAccountLockout now userId tbl).1 = true
  <-> exists row, tbl !! userId = Some row /\ now < getTime (locked_until row).
Proof.
  unfold checkAccountLockout. destruct (tbl !! userId) as [r|]; simpl.
  - destruct (Z.ltb_spec now (getTime (locked_until r))); simpl; split.
    + intros _. by exists r.
    + done.
    + done.
    + intros (row & [= <-] & Hlt). lia.
  - split; [done|]. by intros (row & ? & _).
Qed.

End CheckAuth.

(** X8.  [checkAuth] for a signed-in user, when session ids are the primary
    key and the ordering returns the rows it was given.  It refuses exactly
    when the account has a lockout row with a deadline still ahead; the
    refusal changes no table, names no user, never asks for
    re-authentication, and its message gives the remaining time rounded up
    to whole minutes, at least 1.  Otherwise it authenticates the user, asks
    for re-authentication exactly when the last sign-in is more than 7 days
    old, leaves at most 5 sessions of the account active, all of them
    stamped with the instant of the activity update, and leaves the lockout
    rows of other accounts alone. *)
Theorem X8_checkAuth_outcomes
  (orderDesc : list EnhancedAuth.session -> list EnhancedAuth.session)
  (now nowLock nowTerm nowAct : Z) (u : EnhancedAuthMore.authUser)
  (userAgent : option string) (st : EnhancedAuthMore.authState) :
  (forall l, Permutation (orderDesc l) l) ->
  NoDup (map EnhancedAuth.id (EnhancedAuthMore.sessions st)) ->
  let res :=
    EnhancedAuthMore.checkAuth orderDesc now nowLock nowTerm nowAct (Some u)
      userAgent st in
  let userId := EnhancedAuthMore.uid u in
  (EnhancedAuthMore.authenticated res.1 = false
   <-> exists row,
         EnhancedAuthMore.lockouts st !! userId = Some row
         /\ nowLock < EnhancedAuth.getTime (EnhancedAuth.locked_until row))
  /\ (forall row,
        EnhancedAuthMore.lockouts st !! userId = Some row ->
        nowLock < EnhancedAuth.getTime (EnhancedAuth.locked_until row) ->
        res.2 = st
        /\ EnhancedAuthMore.user res.1 = None
        /\ EnhancedAuthMore.sessionValid res.1 = false
        /\ EnhancedAuthMore.requiresReauth res.1 = false
        /\ EnhancedAuthMore.error res.1
           = Some (EnhancedAuthMore.lockedMessage
                     (EnhancedAuth.getTime (EnhancedAuth.locked_until row)
                      - nowLock))
        /\ 1 <= JS.ceil_div
                  (EnhancedAuth.getTime (EnhancedAuth.locked_until row)
                   - nowLock) 60000)
  /\ (EnhancedAuthMore.authenticated res.1 = true ->
      EnhancedAuthMore.user res.1 = Some u
      /\ EnhancedAuthMore.sessionValid res.1 = true
      /\ EnhancedAuthMore.error res.1 = None
      /\ EnhancedAuthMore.requiresReauth res.1
         = (now - EnhancedAuth.getTime (EnhancedAuthMore.last_sign_in_at u)
            >? 7 * 24 * 60 * 60 * 1000)
      /\ (EnhancedAuth.getActiveSessionCount userId
            (EnhancedAuthMore.sessions res.2) <= 5)%nat
      /\ (forall s, In s (EnhancedAuthMore.sessions res.2) ->
            EnhancedAuth.activeOf userId s = true ->
            EnhancedAuth.last_activity s = nowAct)
      /\ (forall other, other <> userId ->
            EnhancedAuthMore.lockouts res.2 !! other
            = EnhancedAuthMore.lockouts st !! other)).
Proof.
  intros Hperm Hnd res userId.
  pose proof (checkAccountLockout_locked_iff nowLock userId
                (EnhancedAuthMore.lockouts st)) as Hiff.
  pose proof (checkAccountLockout_other nowLock userId
                (EnhancedAuthMore.lockouts st)) as Hother.
  unfold res, EnhancedAuthMore.checkAuth. fold userId.
  destruct (EnhancedAuth.checkAccountLockout nowLock userId
              (EnhancedAuthMore.lockouts st)) as [status lockouts'] eqn:Hchk.
  simpl in Hiff, Hother.
  destruct (EnhancedAuth.locked status) eqn:Hlocked.
  - assert (Hrow := proj1 Hiff eq_refl). split_and!.
    + done.
    + intros row Hr Hlt.
      unfold EnhancedAuth.checkAccountLockout in Hchk.
      rewrite Hr in Hchk. cbv zeta in Hchk.
      replace (nowLock <? _) with true in Hchk
        by (symmetry; by apply Z.ltb_lt).
      injection Hchk as <- <-. simpl. split_and!; try done.
      * by destruct st.
      * by apply ceil_div_minutes, Z.lt_0_sub.
    + done.
  - destruct (EnhancedAuthMore.updateLastActivity nowAct userId _ _ _)
      as [sessions'' agents'] eqn:Hupd.
    simpl. split_and!.
    + split; [done|]. intros Hrow. apply Hiff in Hrow. congruence.
    + intros row Hr Hlt. exfalso.
      assert (true = false) by (rewrite <- (proj2 Hiff); eauto). done.
    + intros _. split_and!; try done.
      * replace sessions'' with
          (EnhancedAuthMore.updateLastActivity nowAct userId
             (match userAgent with Some a => a | None => EmptyString end)
             (EnhancedAuth.checkConcurrentSessions orderDesc nowTerm userId
                (EnhancedAuthMore.sessions st))
             (EnhancedAuthMore.agents st)).1 by (by rewrite Hupd).
        rewrite updateLastActivity_count.
        by apply checkConcurrentSessions_count.
      * intros s Hs Ha.
        apply (updateLastActivity_stamp nowAct userId
                 (match userAgent with Some a => a | None => EmptyString end)
                 (EnhancedAuth.checkConcurrentSessions orderDesc nowTerm userId
                    (EnhancedAuthMore.sessions st))
                 (EnhancedAuthMore.agents st)); [|done].
        by rewrite Hupd.
Qed.

(** An account locked until 1700000900000, asked 61 seconds before the
    deadline: refused, with [2 minutes] in the message. *)
Lemma X8_checkAuth_outcomes_witness :
  EnhancedAuthMore.error
    (EnhancedAuthMore.checkAuth EnhancedAuth.sortDesc 1700000839000
       1700000839000 1700000839000 1700000839000
       (Some {| EnhancedAuthMore.uid := "user-1";
                EnhancedAuthMore.last_sign_in_at := Some 1700000000000 |})
       (Some "agent/1.0")
       {| EnhancedAuthMore.lockouts := {[ "user-1" := lockedRow ]};
          EnhancedAuthMore.sessions := six_sessions;
          EnhancedAuthMore.agents := ∅ |}).1
  = Some (EnhancedAuthMore.lockedMessage
            (EnhancedAuth.getTime (EnhancedAuth.locked_until lockedRow)
             - 1700000839000)).
Proof.
  refine (proj1 (proj2 (proj2 (proj2 (proj2 (proj1 (proj2
    (X8_checkAuth_outcomes EnhancedAuth.sortDesc 1700000839000 1700000839000
       1700000839000 1700000839000
       {| EnhancedAuthMore.uid := "user-1";
          EnhancedAuthMore.last_sign_in_at := Some 1700000000000 |}
       (Some "agent/1.0")
       {| EnhancedAuthMore.lockouts := {[ "user-1" := lockedRow ]};
          EnhancedAuthMore.sessions := six_sessions;
          EnhancedAuthMore.agents := ∅ |} sortDesc_perm _))
    lockedRow _ _)))))).
  - apply (bool_decide_unpack _). vm_compute. exact I.
  - reflexivity.
  - reflexivity.
Defined.

Example checkAuth_locked_message :
  EnhancedAuthMore.lockedMessage (1700000900000 - 1700000839000)
  = "Account temporarily locked. Try again in 2 minutes.".
Proof. vm_compute. reflexivity. Qed.

(** * Further properties of the Base32 codec and of the TOTP class *)

Section Base32Shape.
Import JS Base32 TOTP TOTPMore.

Lemma append_empty_r (s : string) : (s ++ "")%string = s.
Proof.
  induction s as [|c s IH]; [done|].
  change (String c s ++ "")%string with (String c (s ++ "")).
  by rewrite IH.
Qed.

Lemma base32_roundtrip b : Forall is_byte b -> base32Decode (base32Encode b) = b.
Proof.
  intros Hb. pose proof (base32_roundtrip_padded b 0 Hb) as H.
  unfold padding in H. simpl in H. by rewrite append_empty_r in H.
Qed.

Lemma validChar_inAlphabet c : validChar c -> inAlphabet c = true.
Proof.
  intros Hc. apply validChar_indexOf in Hc. unfold inAlphabet.
  apply negb_true_iff, Z.eqb_neq. lia.
Qed.

Lemma validChar_not_eq c : validChar c -> Ascii.eqb "="%char c = false.
Proof.
  intros (i & Hi & ->). destruct (alphabet_facts i Hi) as (_ & _ & H).
  by rewrite Ascii.eqb_sym.
Qed.

Lemma filter_all {A} (f : A -> bool) (l : list A) :
  Forall (fun x => f x = true) l -> List.filter f l = l.
Proof.
  induction 1 as [|x l Hx _ IH]; simpl; [done|]. by rewrite Hx, IH.
Qed.

Lemma base32Encode_chars b :
  Forall is_byte b ->
  exists out,
    base32Encode b = string_of_list_ascii out
    /\ Forall validChar out
    /\ Z.of_nat (length out) = (8 * Z.of_nat (length b) + 4) / 5.
Proof.
  intros Hb.
  destruct (base32Encode_spec b Hb) as (out & pad & Heq & Hpad & _ & Hlen & Hv).
  exists out. split_and!; [done|done|].
  apply (Z.div_unique _ 5 _ (4 - pad)); lia.
Qed.

Lemma decode_chars_length cs :
  Forall validChar cs ->
  Z.of_nat (length (decode_chars cs)) = 5 * Z.of_nat (length cs) / 8.
Proof.
  intros Hcs. unfold decode_chars.
  assert (dec_inv [] (0, 0, [])) as H0.
  { cbn. split_and!; try done; try lia. }
  pose proof (decode_fold_inv cs [] _ H0 Hcs) as H. simpl in H.
  destruct (fold_left decode_step cs (0, 0, [])) as [[bits value] bytes].
  destruct H as (Hbits & _ & _ & Hlen & _). simpl.
  apply (Z.div_unique _ 8 _ bits); lia.
Qed.

Lemma alphabetChars_filter s :
  List.filter inAlphabet (flat_map upper_chars (list_ascii_of_string s))
  = List.filter inAlphabet (list_ascii_of_string (toUpperCase s)).
Proof. unfold toUpperCase. by rewrite list_ascii_of_string_of_list_ascii. Qed.

Lemma filter_inAlphabet_valid l : Forall validChar (List.filter inAlphabet l).
Proof.
  apply Forall_forall. intros c Hc. apply list_elem_of_In, filter_In in Hc.
  apply inAlphabet_valid. tauto.
Qed.

End Base32Shape.

(** X9.  The shape of [base32Encode] on a buffer of [n] bytes: the text has
    ceil(8n/5) characters, all of them from the Base32 alphabet, so it holds
    no ['='] padding and is its own upper-case form; and the encoding is
    injective: two buffers with the same text are equal. *)
Theorem X9_base32Encode_shape (b b' : list Z) :
  Forall is_byte b -> Forall is_byte b' ->
  Z.of_nat (String.length (Base32.base32Encode b))
  = (8 * Z.of_nat (length b) + 4) / 5
  /\ Forall (fun c => inAlphabet c = true)
       (list_ascii_of_string (Base32.base32Encode b))
  /\ occurrences "=" (Base32.base32Encode b) = 0%nat
  /\ JS.toUpperCase (Base32.base32Encode b) = Base32.base32Encode b
  /\ (Base32.base32Encode b = Base32.base32Encode b' -> b = b').
Proof.
  intros Hb Hb'.
  destruct (base32Encode_chars b Hb) as (out & Heq & Hv & Hlen).
  split_and!.
  - by rewrite Heq, length_string_of_list_ascii.
  - rewrite Heq, list_ascii_of_string_of_list_ascii.
    eapply Forall_impl; [exact Hv|]. apply validChar_inAlphabet.
  - unfold occurrences. rewrite Heq, list_ascii_of_string_of_list_ascii.
    rewrite filter_none; [done|]. intros c Hc. apply validChar_not_eq.
    rewrite Forall_forall in Hv. by apply Hv, list_elem_of_In.
  - rewrite Heq. unfold JS.toUpperCase.
    by rewrite list_ascii_of_string_of_list_ascii, map_upper_valid.
  - intros He. rewrite <- (base32_roundtrip b Hb), <- (base32_roundtrip b' Hb').
    by rewrite He.
Qed.

(** The six bytes of [foobar] give ten characters. *)
Lemma X9_base32Encode_shape_witness :
  Z.of_nat (String.length (Base32.base32Encode [102; 111; 111; 98; 97; 114]))
  = (8 * Z.of_nat (length [102; 111; 111; 98; 97; 114]) + 4) / 5.
Proof.
  refine (proj1 (X9_base32Encode_shape [102; 111; 111; 98; 97; 114] [] _ _));
    unfold is_byte.
  - repeat constructor; lia.
  - constructor.
Defined.

(** X10.  [generateSecret] turns the 20 random bytes into a secret of
    exactly 32 Base32 characters without padding; [base32Decode] gives the
    20 bytes back, so the codes of the secret are the RFC 4226 codes keyed by
    the random bytes themselves, and from 30 s after the epoch [verifyCode]
    accepts a text exactly when it is that code for the current time step or
    one of its two neighbours. *)
Theorem X10_generateSecret_keys_the_codes (raw : list Z) :
  length raw = 20%nat -> Forall is_byte raw ->
  let secret := TOTPMore.generateSecret raw in
  String.length secret = 32%nat
  /\ alphabetChars secret = 32%nat
  /\ Base32.base32Decode secret = raw
  /\ (forall counter, 0 <= counter < 2 ^ 64 ->
        TOTP.generateCodeForCounter secret counter
        = Some (hotp_rfc4226 raw counter))
  /\ (forall clock code, 30000 <= clock -> clock / 30000 + 1 < 2 ^ 64 ->
        TOTP.verifyCode clock secret code 1 = Some true
        <-> exists c, clock / 30000 - 1 <= c <= clock / 30000 + 1
                      /\ hotp_rfc4226 raw c = code).
Proof.
  intros Hlen Hb secret. unfold secret, TOTPMore.generateSecret.
  destruct (base32Encode_chars raw Hb) as (out & Heq & Hv & Hout).
  rewrite Hlen in Hout. change ((8 * Z.of_nat 20 + 4) / 5) with 32 in Hout.
  pose proof (base32_roundtrip raw Hb) as Hrt.
  split_and!.
  - rewrite Heq, length_string_of_list_ascii. lia.
  - unfold alphabetChars. rewrite Heq. unfold JS.toUpperCase.
    rewrite !list_ascii_of_string_of_list_ascii, map_upper_valid by done.
    rewrite filter_all; [lia|].
    eapply Forall_impl; [exact Hv|]. apply validChar_inAlphabet.
  - exact Hrt.
  - intros counter Hc. by rewrite generateCodeForCounter_spec, Hrt.
  - intros clock code Hclock Hmax.
    assert (1 <= clock / 30000) by (apply Z.div_le_lower_bound; lia).
    rewrite verifyCode_true_iff, Hrt by lia.
    split; intros (c & Hc & Hcode); exists c; split; try done.
    + apply In_window in Hc; lia.
    + apply In_window; lia.
Qed.

(** The 20 bytes of the RFC 6238 test key. *)
Lemma X10_generateSecret_keys_the_codes_witness :
  Base32.base32Decode
    (TOTPMore.generateSecret
       [49; 50; 51; 52; 53; 54; 55; 56; 57; 48;
        49; 50; 51; 52; 53; 54; 55; 56; 57; 48])
  = [49; 50; 51; 52; 53; 54; 55; 56; 57; 48;
     49; 50; 51; 52; 53; 54; 55; 56; 57; 48].
Proof.
  refine (proj1 (proj2 (proj2 (X10_generateSecret_keys_the_codes
    [49; 50; 51; 52; 53; 54; 55; 56; 57; 48;
     49; 50; 51; 52; 53; 54; 55; 56; 57; 48] _ _)))).
  - reflexivity.
  - unfold is_byte. repeat constructor; lia.
Defined.

(** X11.  [base32Decode] never fails and drops what does not fill a byte:
    for every text the buffer has floor(5k/8) bytes, where [k] is the number
    of its characters that are in the alphabet once upper-cased.  A secret
    with fewer than two such characters therefore decodes to the empty
    buffer, and its codes are the codes of the empty secret. *)
Theorem X11_base32Decode_length (s : string) :
  Z.of_nat (length (Base32.base32Decode s))
  = 5 * Z.of_nat (alphabetChars s) / 8
  /\ ((alphabetChars s < 2)%nat ->
      Base32.base32Decode s = []
      /\ forall counter,
           TOTP.generateCodeForCounter s counter
           = TOTP.generateCodeForCounter "" counter).
Proof.
  assert (Hlen : Z.of_nat (length (Base32.base32Decode s))
                 = 5 * Z.of_nat (alphabetChars s) / 8).
  { rewrite base32Decode_filter, alphabetChars_filter.
    apply decode_chars_length, filter_inAlphabet_valid. }
  split; [exact Hlen|]. intros Hk.
  assert (Base32.base32Decode s = []) as Hnil.
  { apply length_zero_iff_nil.
    assert (5 * Z.of_nat (alphabetChars s) / 8 = 0)
      by (apply Z.div_small; lia).
    lia. }
  split; [done|]. intros counter.
  unfold TOTP.generateCodeForCounter. by rewrite Hnil.
Qed.

Section GeneratedBackupCodes.
Import JS TOTP TOTPMore BackupRoute.

Lemma backupCodes_loop_spec random turns : forall i codes,
  backupCodes_loop random turns i codes
  = codes ++ map (fun k => toUpperCase (toHex (random k))) (seq i turns).
Proof.
  induction turns as [|turns IH]; intros i codes; simpl.
  - by rewrite app_nil_r.
  - by rewrite IH, <- app_assoc.
Qed.

Lemma generateBackupCodes_spec random count :
  generateBackupCodes random count
  = map (fun k => toUpperCase (toHex (random k))) (seq 0 count).
Proof. unfold generateBackupCodes. by rewrite backupCodes_loop_spec. Qed.

Lemma hex_digit_upper d :
  0 <= d < 16 ->
  exists u, upper_chars (hex_digit d) = [u] /\ isHexUpper u = true.
Proof.
  intros Hd. unfold hex_digit.
  assert (Z.to_nat d < 16)%nat as Hn by lia.
  generalize dependent (Z.to_nat d). intros n Hn.
  do 16 (destruct n as [|n]; [by eexists|]). lia.
Qed.

Lemma isHexUpper_fixed c :
  isHexUpper c = true -> upper_chars c = [c] /\ is_space c = false.
Proof.
  destruct c as [[] [] [] [] [] [] [] []]; vm_compute; intros H;
    solve [done | discriminate H].
Qed.

Lemma toHex_upper buf :
  Forall is_byte buf ->
  length (flat_map upper_chars (list_ascii_of_string (toHex buf)))
  = (2 * length buf)%nat
  /\ Forall (fun c => isHexUpper c = true)
       (flat_map upper_chars (list_ascii_of_string (toHex buf))).
Proof.
  unfold toHex. rewrite list_ascii_of_string_of_list_ascii.
  induction 1 as [|b buf Hb _ [IHlen IH]]; [done|].
  unfold is_byte in Hb. cbn [flat_map app].
  destruct (hex_digit_upper (b / 16)) as (u & -> & Hu).
  { split; [apply Z.div_pos; lia|apply Z.div_lt_upper_bound; lia]. }
  destruct (hex_digit_upper (b mod 16)) as (v & -> & Hv).
  { apply Z.mod_pos_bound. lia. }
  cbn [app length]. split; [lia|]. by repeat constructor.
Qed.

Lemma hex_code_fixed c :
  Forall (fun ch => isHexUpper ch = true) (list_ascii_of_string c) ->
  toUpperCase c = c /\ strip_spaces c = c.
Proof.
  intros Hc. unfold toUpperCase, strip_spaces.
  assert (flat_map upper_chars (list_ascii_of_string c)
          = list_ascii_of_string c
          /\ List.filter (fun ch => negb (is_space ch)) (list_ascii_of_string c)
             = list_ascii_of_string c) as [-> ->].
  { induction Hc as [|ch l Hch _ [IH1 IH2]]; [done|].
    destruct (isHexUpper_fixed ch Hch) as [Hup Hsp].
    cbn [flat_map List.filter]. rewrite Hup, Hsp, IH1, IH2. done. }
  by rewrite string_of_list_ascii_of_string.
Qed.

Lemma generated_code_shape random count c :
  (forall i, (i < count)%nat ->
     length (random i) = 4%nat /\ Forall is_byte (random i)) ->
  In c (generateBackupCodes random count) ->
  String.length c = 8%nat
  /\ Forall (fun ch => isHexUpper ch = true) (list_ascii_of_string c).
Proof.
  intros Hrand Hc. rewrite generateBackupCodes_spec in Hc.
  apply in_map_iff in Hc as (k & <- & Hk). apply in_seq in Hk.
  destruct (Hrand k) as [Hlen Hb]; [lia|].
  destruct (toHex_upper (random k) Hb) as [Hl Hx].
  unfold toUpperCase.
  rewrite length_string_of_list_ascii, list_ascii_of_string_of_list_ascii.
  split; [lia|done].
Qed.

End GeneratedBackupCodes.

(** X12.  [generateBackupCodes], each [crypto.randomBytes(4)] giving 4
    bytes: it returns [count] codes of 8 characters from [0-9A-F].  Every one
    of them is accepted by [verifyBackupCode], also in lower case; the backup
    route accepts it once, storing the codes without it, and refuses it the
    second time, while every other generated code stays valid. *)
Theorem X12_generated_backup_codes
  (random : nat -> list Z) (count : nat) (user : string) :
  (forall i, (i < count)%nat ->
     length (random i) = 4%nat /\ Forall is_byte (random i)) ->
  let codes := TOTPMore.generateBackupCodes random count in
  length codes = count
  /\ Forall
       (fun c =>
          String.length c = 8%nat
          /\ Forall (fun ch => isHexUpper ch = true) (list_ascii_of_string c))
       codes
  /\ (forall c, In c codes ->
        TOTP.verifyBackupCode c codes = true
        /\ TOTP.verifyBackupCode (JS.toLowerCase c) codes = true
        /\ BackupRoute.POST (Some user) (Some c) (Some codes)
           = (BackupRoute.Valid200, Some (BackupRoute.removeUsed c codes))
        /\ (BackupRoute.POST (Some user) (Some c)
              (Some (BackupRoute.removeUsed c codes))).1
           = BackupRoute.NotValid200
        /\ (forall d, In d codes -> d <> c ->
              TOTP.verifyBackupCode d (BackupRoute.removeUsed c codes) = true)).
Proof.
  intros Hrand codes.
  assert (Hshape : forall c, In c codes ->
            String.length c = 8%nat
            /\ Forall (fun ch => isHexUpper ch = true)
                 (list_ascii_of_string c))
    by (intros c; apply generated_code_shape; done).
  assert (Hverify : forall c stored, In c codes -> In c stored ->
            TOTP.verifyBackupCode c stored = true).
  { intros c stored Hc Hin. unfold TOTP.verifyBackupCode.
    destruct (hex_code_fixed c (proj2 (Hshape c Hc))) as [-> ->].
    by apply includes_In. }
  split_and!.
  - unfold codes. by rewrite generateBackupCodes_spec, length_map, length_seq.
  - apply Forall_forall. intros c Hc. by apply Hshape, list_elem_of_In.
  - intros c Hc.
    destruct (Hshape c Hc) as [Hlen Hhex].
    destruct (hex_code_fixed c Hhex) as [Hup Hns].
    assert (TOTP.verifyBackupCode c codes = true) as Hv by (by apply Hverify).
    split_and!.
    + exact Hv.
    + unfold TOTP.verifyBackupCode in *. by rewrite toUpperCase_lower.
    + unfold BackupRoute.POST. by rewrite Hlen, Hv.
    + unfold BackupRoute.POST. rewrite Hlen. cbn [Nat.eqb negb].
      by rewrite (verify_after_removal c codes Hns).
    + intros d Hd Hne. apply Hverify; [done|].
      apply In_removeUsed. by rewrite Hup.
Qed.

(** Two codes from two 4-byte buffers. *)
Lemma X12_generated_backup_codes_witness :
  length
    (TOTPMore.generateBackupCodes
       (fun i => [Z.of_nat i; 171; 205; 239]) 2) = 2%nat.
Proof.
  refine (proj1 (X12_generated_backup_codes
    (fun i => [Z.of_nat i; 171; 205; 239]) 2 "user-1" _)).
  intros i Hi. split; [reflexivity|].
  unfold is_byte. repeat constructor; lia.
Defined.

Example generateBackupCodes_example :
  TOTPMore.generateBackupCodes (fun i => [Z.of_nat i; 171; 205; 239]) 2
  = ["00ABCDEF"; "01ABCDEF"]%string.
Proof. vm_compute. reflexivity. Qed.

Section QRUrl.
Import JS TOTPMore.

Lemma occurrences_app c s t :
  occurrences c (s ++ t) = (occurrences c s + occurrences c t)%nat.
Proof.
  unfold occurrences. by rewrite chars_app, List.filter_app, length_app.
Qed.

Lemma encode_char_safe x :
  forallb (fun c => unreserved c || Ascii.eqb c "%") (encode_char x) = true.
Proof. destruct x as [[] [] [] [] [] [] [] []]; reflexivity. Qed.

Lemma encodeURIComponent_safe s :
  Forall (fun c => unreserved c || Ascii.eqb c "%" = true)
    (list_ascii_of_string (encodeURIComponent s)).
Proof.
  unfold encodeURIComponent. rewrite list_ascii_of_string_of_list_ascii.
  induction (list_ascii_of_string s) as [|x l IH]; simpl; [constructor|].
  apply Forall_app. split; [|done].
  apply Forall_forall. intros c Hc. apply list_elem_of_In in Hc.
  pose proof (encode_char_safe x) as H. rewrite forallb_forall in H.
  by apply H.
Qed.

Lemma occurrences_encoded d s :
  unreserved d || Ascii.eqb d "%" = false ->
  occurrences d (encodeURIComponent s) = 0%nat.
Proof.
  intros Hd. unfold occurrences. rewrite filter_none; [done|].
  intros c Hc. apply not_true_is_false. intros Heq.
  apply Ascii.eqb_eq in Heq. subst c.
  pose proof (encodeURIComponent_safe s) as H. rewrite Forall_forall in H.
  apply list_elem_of_In, H in Hc. congruence.
Qed.

Lemma encode_char_alphabet c : inAlphabet c = true -> encode_char c = [c].
Proof.
  destruct c as [[] [] [] [] [] [] [] []]; vm_compute; intros H;
    solve [done | discriminate H].
Qed.

Lemma encodeURIComponent_alphabet s :
  Forall (fun c => inAlphabet c = true) (list_ascii_of_string s) ->
  encodeURIComponent s = s.
Proof.
  intros Hs. unfold encodeURIComponent.
  assert (flat_map encode_char (list_ascii_of_string s)
          = list_ascii_of_string s) as ->.
  { induction Hs as [|c l Hc _ IH]; simpl; [done|].
    by rewrite (encode_char_alphabet c Hc), IH. }
  apply string_of_list_ascii_of_string.
Qed.

End QRUrl.

(** X13.  The provisioning address of [generateQRUrl] keeps its structure
    whatever the account name, the issuer and the secret are: it holds
    exactly one [?], four [&], five [=], two [:] and three [/], and neither
    [#] nor a blank, because every component goes through
    [encodeURIComponent]; so an account name cannot add or end a parameter.
    A secret made of Base32 alphabet characters, as [generateSecret] gives,
    appears in it unchanged. *)
Theorem X13_generateQRUrl_structure
  (secret accountName : string) (issuer : option string) :
  let url := TOTPMore.generateQRUrl secret accountName issuer in
  occurrences "?" url = 1%nat
  /\ occurrences "&" url = 4%nat
  /\ occurrences "=" url = 5%nat
  /\ occurrences ":" url = 2%nat
  /\ occurrences "/" url = 3%nat
  /\ occurrences "#" url = 0%nat
  /\ occurrences " " url = 0%nat
  /\ (Forall (fun c => inAlphabet c = true) (list_ascii_of_string secret) ->
      TOTPMore.generateQRUrl secret accountName None
      = ("otpauth://totp/TreasureTto:"
         ++ TOTPMore.encodeURIComponent accountName
         ++ "?secret=" ++ secret
         ++ "&issuer=TreasureTto&algorithm=SHA1&digits=6&period=30")%string).
Proof.
  intros url. unfold url, TOTPMore.generateQRUrl.
  split_and!;
    [rewrite !occurrences_app, !occurrences_encoded by reflexivity;
     reflexivity ..|].
  intros Hs. rewrite (encodeURIComponent_alphabet secret Hs).
  vm_compute. reflexivity.
Qed.

(** * Two-factor verification and the routes that switch it on and off *)

Section Verify2FA.
Import JS TOTP TOTPMore BackupRoute TwoFactor.

Lemma verifyCode_window clock secret code :
  30000 <= clock -> clock / 30000 + 1 < 2 ^ 64 ->
  exists b,
    verifyCode clock secret code 1 = Some b
    /\ (b = true
        <-> exists c, clock / 30000 - 1 <= c <= clock / 30000 + 1
                      /\ hotp_rfc4226 (Base32.base32Decode secret) c = code).
Proof.
  intros Hclock Hmax.
  assert (1 <= clock / 30000) by (apply Z.div_le_lower_bound; lia).
  pose proof (verifyCode_true_iff clock secret code 1) as Hiff.
  rewrite verifyCode_spec in * by lia.
  eexists. split; [done|]. split.
  - intros Hb. rewrite Hb in Hiff.
    destruct (proj1 (Hiff ltac:(lia) ltac:(lia)) eq_refl) as (c & Hc & Hcode).
    exists c. split; [|done]. apply In_window in Hc; lia.
  - intros (c & Hc & Hcode).
    assert (Some (existsb
              (fun c0 => String.eqb
                 (hotp_rfc4226 (Base32.base32Decode secret) c0) code)
              (window (clock / 30000) 1)) = Some true) as Hs.
    { apply Hiff; [lia|lia|]. exists c. split; [|done].
      apply In_window; lia. }
    by apply (inj Some) in Hs.
Qed.

Lemma verifyCode_wrong_length clock secret code :
  30000 <= clock -> clock / 30000 + 1 < 2 ^ 64 ->
  String.length code <> 6%nat ->
  verifyCode clock secret code 1 = Some false.
Proof.
  intros Hclock Hmax Hlen.
  destruct (verifyCode_window clock secret code Hclock Hmax)
    as (b & -> & Hb).
  destruct b; [|done]. exfalso.
  destruct (proj1 Hb eq_refl) as (c & _ & Hcode).
  destruct (hotp_rfc4226_shape (Base32.base32Decode secret) c) as [H6 _].
  congruence.
Qed.

End Verify2FA.

(** X14.  [EnhancedAuthMiddleware.verify2FA] from 30 s after the epoch.
    Without an enabled row it answers [2FA not enabled] and changes nothing.
    With one it always answers, and (for a text whose capitals lie in the
    modelled range) accepts exactly a text of 8 characters whose upper-case
    form without white space is a stored backup code, or the TOTP code of
    the current time step or of one of its two neighbours.  A refusal
    changes nothing and logs [failed_2fa].  An accepted text of 8 characters
    was accepted as a backup code, and the row is stored without the codes
    equal to its upper-case form; when the stored codes have 8 characters
    and upper-casing keeps the length of the text (as it does for every
    text without U+00DF), it is refused at every later call.  An accepted
    TOTP code leaves no trace in the table, so nothing keeps it from being
    accepted again. *)
Theorem X14_verify2FA_outcomes
  (clock : Z) (userId code : string) (tbl : gmap string TwoFactor.row) :
  30000 <= clock -> clock / 30000 + 1 < 2 ^ 64 ->
  (TwoFactor.tfaOf tbl userId <> Some true ->
   TwoFactor.verify2FA clock userId code tbl
   = Some ({| TwoFactor.valid := false;
              TwoFactor.error := Some "2FA not enabled"%string |}, tbl, []))
  /\ (forall r,
        tbl !! userId = Some r -> TwoFactor.is_enabled r = true ->
        JS.capitalsInRange code ->
        exists res tbl' evs,
          TwoFactor.verify2FA clock userId code tbl = Some (res, tbl', evs)
          /\ (TwoFactor.valid res = true
              <-> (String.length code = 8%nat
                   /\ In (JS.strip_spaces (JS.toUpperCase code))
                        (TwoFactor.backup_codes r))
                  \/ (exists c,
                        clock / 30000 - 1 <= c <= clock / 30000 + 1
                        /\ hotp_rfc4226
                             (Base32.base32Decode (TwoFactor.secret_key r)) c
                           = code))
          /\ (TwoFactor.valid res = false ->
              tbl' = tbl /\ evs = ["failed_2fa"%string])
          /\ (TwoFactor.valid res = true -> String.length code <> 8%nat ->
              tbl' = tbl /\ evs = [])
          /\ (TwoFactor.valid res = true -> String.length code = 8%nat ->
              tbl' = <[userId :=
                         TwoFactor.withBackupCodes r
                           (BackupRoute.removeUsed code
                              (TwoFactor.backup_codes r))]> tbl
              /\ (Forall (fun c => String.length c = 8%nat)
                     (TwoFactor.backup_codes r) ->
                  String.length (JS.toUpperCase code) = String.length code ->
                  forall clock',
                    30000 <= clock' -> clock' / 30000 + 1 < 2 ^ 64 ->
                    TwoFactor.verify2FA clock' userId code tbl'
                    = Some ({| TwoFactor.valid := false;
                               TwoFactor.error := None |}, tbl',
                            ["failed_2fa"%string])))).
Proof.
  intros Hclock Hmax. split.
  - unfold TwoFactor.tfaOf, TwoFactor.verify2FA.
    destruct (tbl !! userId) as [r|]; simpl; [|done].
    destruct (TwoFactor.is_enabled r); [|done]. intros H. by destruct H.
  - intros r Hr Hen _. unfold TwoFactor.verify2FA at 1. rewrite Hr, Hen.
    cbn [negb].
    destruct (verifyCode_window clock (TwoFactor.secret_key r) code
                Hclock Hmax) as (b & Hvc & Hb).
    destruct (Nat.eqb_spec (String.length code) 8) as [Hlen|Hlen];
      cbn [andb].
    + destruct (TOTP.verifyBackupCode code (TwoFactor.backup_codes r))
        eqn:Hv.
      * eexists _, _, _. split; [done|]. cbn [TwoFactor.valid].
        split_and!; try done.
        -- split; [|done]. intros _. left. split; [done|].
           by apply normalized_in.
        -- intros _ _. split; [done|]. intros Hstored Hup clock' Hc' Hm'.
           unfold TwoFactor.verify2FA. rewrite lookup_insert_eq.
           cbn [TwoFactor.is_enabled TwoFactor.withBackupCodes
                TwoFactor.backup_codes TwoFactor.secret_key].
           rewrite Hen, Hlen. cbn [negb Nat.eqb andb].
           rewrite (verify_after_removal code _
                      (accepted_same_length code _ 8 Hstored Hlen Hup Hv)).
           rewrite verifyCode_wrong_length by (done || lia). done.
      * rewrite verifyCode_wrong_length in Hvc by (done || lia).
        apply (inj Some) in Hvc. subst b.
        rewrite verifyCode_wrong_length by (done || lia).
        eexists _, _, _. split; [done|]. cbn [TwoFactor.valid].
        split_and!; try done.
        split; [done|]. intros [[_ Hin]|Hc].
        -- apply includes_In in Hin. unfold TOTP.verifyBackupCode in Hv.
           congruence.
        -- by apply Hb.
    + rewrite Hvc. eexists _, _, _. split; [done|]. cbn [TwoFactor.valid].
      split_and!.
      * rewrite Hb. split; [by right|]. by intros [[? _]|?].
      * intros ->. done.
      * intros -> _. done.
      * intros _ ?. done.
Qed.

(** An account with 2FA enabled and a stored backup code. *)
Lemma X14_verify2FA_outcomes_witness :
  TwoFactor.verify2FA 1700000000000 "user-2" "a1b2c3d4"
    {[ "user-1" := {| TwoFactor.secret_key := rfc_secret;
                      TwoFactor.backup_codes := ["A1B2C3D4"%string];
                      TwoFactor.is_enabled := true |} ]}
  = Some ({| TwoFactor.valid := false;
             TwoFactor.error := Some "2FA not enabled"%string |},
          {[ "user-1" := {| TwoFactor.secret_key := rfc_secret;
                            TwoFactor.backup_codes := ["A1B2C3D4"%string];
                            TwoFactor.is_enabled := true |} ]}, []).
Proof.
  refine (proj1 (X14_verify2FA_outcomes 1700000000000 "user-2" "a1b2c3d4"
    {[ "user-1" := {| TwoFactor.secret_key := rfc_secret;
                      TwoFactor.backup_codes := ["A1B2C3D4"%string];
                      TwoFactor.is_enabled := true |} ]} _ _) _).
  - lia.
  - vm_compute. reflexivity.
  - vm_compute. discriminate.
Defined.

(** Where upper-casing lengthens the text the 8-character guard does not
    keep white space out: U+00DF and a no-break space before six characters
    are accepted for the stored code that starts with [SS], the removal
    finds nothing equal to the upper-cased text, and the same text is
    accepted again. *)
Example verify2FA_reuse_eszett :
  let code := String "223" (String "160" "ABCDEF") in
  let tbl : gmap string TwoFactor.row :=
    {[ "user-1"%string :=
         {| TwoFactor.secret_key := rfc_secret;
            TwoFactor.backup_codes := ["SSABCDEF"%string];
            TwoFactor.is_enabled := true |} ]} in
  String.length code = 8%nat
  /\ String.length (JS.toUpperCase code) = 9%nat
  /\ TwoFactor.verify2FA 1700000000000 "user-1" code tbl
     = Some ({| TwoFactor.valid := true; TwoFactor.error := None |},
             <["user-1"%string :=
                 {| TwoFactor.secret_key := rfc_secret;
                    TwoFactor.backup_codes := ["SSABCDEF"%string];
                    TwoFactor.is_enabled := true |}]> tbl, [])
  /\ TwoFactor.verify2FA 1700000060000 "user-1" code
       (<["user-1"%string :=
            {| TwoFactor.secret_key := rfc_secret;
               TwoFactor.backup_codes := ["SSABCDEF"%string];
               TwoFactor.is_enabled := true |}]> tbl)
     = Some ({| TwoFactor.valid := true; TwoFactor.error := None |},
             <["user-1"%string :=
                 {| TwoFactor.secret_key := rfc_secret;
                    TwoFactor.backup_codes := ["SSABCDEF"%string];
                    TwoFactor.is_enabled := true |}]> tbl, []).
Proof.
  cbv zeta. split_and!; [reflexivity|reflexivity|..];
    unfold TwoFactor.verify2FA;
    rewrite lookup_insert_eq || rewrite lookup_singleton_eq; reflexivity.
Qed.

Section TwoFactorLifecycle.
Import TwoFactor Middleware.

Lemma gate_off pathname user tfa cookie :
  tfa <> Some true ->
  twoFactorEnforcement pathname user tfa cookie = Continue.
Proof.
  intros Htfa. unfold twoFactorEnforcement.
  destruct (_ || _); [|done]. destruct user; [|done].
  destruct tfa as [[]|]; done.
Qed.

Lemma gate_on pathname user cookie :
  startsWith pathname "/vault/" || startsWith pathname "/account"
  || startsWith pathname "/settings" = true ->
  twoFactorEnforcement pathname (Some user) (Some true) cookie
  = if bool_decide (cookie = Some "1"%string) then Continue
    else Redirect "/two-factor-auth".
Proof.
  intros Hp. unfold twoFactorEnforcement. rewrite Hp.
  by destruct (bool_decide _).
Qed.

End TwoFactorLifecycle.

(** X15.  How the 2FA routes drive the gate of [middleware] on a sensitive
    path (under [/vault/], [/account] or [/settings]) for a signed-in
    account.  A verification the route accepts had a 6-character code,
    switches the account's row to enabled and sets the marker cookie, so the
    gate lets this browser through and redirects every request without the
    marker to [/two-factor-auth]; a verification it does not accept changes
    neither table nor cookie.  After the disable route, and after the setup
    route (also for an account whose 2FA was enabled), the gate lets every
    request of the account through, whatever its cookie: neither route asks
    for a code.  The setup route stores the new secret and 8 backup codes
    with [is_enabled] false, and no route touches another account's row. *)
Theorem X15_two_factor_routes_and_gate
  (u : TwoFactor.routeUser) (pathname : string)
  (tbl : gmap string TwoFactor.row) (cookie : option string) :
  Middleware.startsWith pathname "/vault/"
  || Middleware.startsWith pathname "/account"
  || Middleware.startsWith pathname "/settings" = true ->
  let userId := TwoFactor.user_id u in
  let gate (t : gmap string TwoFactor.row) (c : option string) :=
    Middleware.twoFactorEnforcement pathname (Some userId)
      (TwoFactor.tfaOf t userId) c in
  (forall clock code tbl' cookie',
     TwoFactor.verifyPOST clock (Some u) (Some code) tbl cookie
     = Some (TwoFactor.Valid200, tbl', cookie') ->
     String.length code = 6%nat
     /\ TwoFactor.tfaOf tbl' userId = Some true
     /\ gate tbl' cookie' = Middleware.Continue
     /\ (forall c, c <> Some "1"%string ->
           gate tbl' c = Middleware.Redirect "/two-factor-auth")
     /\ (forall other, other <> userId -> tbl' !! other = tbl !! other))
  /\ (forall clock code r tbl' cookie',
        TwoFactor.verifyPOST clock (Some u) code tbl cookie
        = Some (r, tbl', cookie') ->
        r <> TwoFactor.Valid200 -> tbl' = tbl /\ cookie' = cookie)
  /\ (forall c, gate (TwoFactor.disablePOST (Some u) tbl cookie).1.2 c
                = Middleware.Continue)
  /\ (forall raw random c,
        gate (TwoFactor.setupPOST raw random (Some u) tbl).2 c
        = Middleware.Continue
        /\ (TwoFactor.setupPOST raw random (Some u) tbl).2 !! userId
           = Some {| TwoFactor.secret_key := TOTPMore.generateSecret raw;
                     TwoFactor.backup_codes :=
                       TOTPMore.generateBackupCodes random 8;
                     TwoFactor.is_enabled := false |})
  /\ (forall raw random other, other <> userId ->
        (TwoFactor.setupPOST raw random (Some u) tbl).2 !! other
        = tbl !! other
        /\ (TwoFactor.disablePOST (Some u) tbl cookie).1.2 !! other
           = tbl !! other).
Proof.
  intros Hp userId gate. split_and!.
  - intros clock code tbl' cookie'. unfold TwoFactor.verifyPOST.
    destruct (Nat.eqb_spec (String.length code) 6) as [Hlen|]; [|done].
    cbn [negb]. fold userId.
    destruct (tbl !! userId) as [twoFA|] eqn:Hrow; [|done].
    destruct (TOTP.verifyCode _ _ _ _) as [[]|]; try done.
    intros [= <- <-].
    assert (TwoFactor.tfaOf
              (<[userId := TwoFactor.withEnabled twoFA true]> tbl) userId
            = Some true) as Htfa
      by (unfold TwoFactor.tfaOf; by rewrite lookup_insert_eq).
    split_and!; try done.
    + unfold gate. rewrite Htfa, gate_on by done. done.
    + intros c Hc. unfold gate. rewrite Htfa, gate_on by done.
      by rewrite bool_decide_eq_false_2.
    + intros other Hne. by rewrite lookup_insert_ne.
  - intros clock code r tbl' cookie'. unfold TwoFactor.verifyPOST.
    destruct code as [code|]; [|by intros [= <- <- <-]].
    destruct (negb _); [by intros [= <- <- <-]|]. fold userId.
    destruct (tbl !! userId) as [twoFA|]; [|by intros [= <- <- <-]].
    destruct (TOTP.verifyCode _ _ _ _) as [[]|]; try done.
    + by intros [= <- <- <-].
    + by intros [= <- <- <-].
  - intros c. unfold gate. apply gate_off.
    unfold TwoFactor.tfaOf, TwoFactor.disablePOST. simpl.
    by rewrite lookup_delete_eq.
  - intros raw random c. unfold TwoFactor.setupPOST. cbn [snd].
    fold userId. split.
    + unfold gate. apply gate_off. unfold TwoFactor.tfaOf.
      by rewrite lookup_insert_eq.
    + by rewrite lookup_insert_eq.
  - intros raw random other Hne. unfold TwoFactor.setupPOST,
      TwoFactor.disablePOST. cbn [fst snd]. fold userId.
    by rewrite lookup_insert_ne, lookup_delete_ne.
Qed.

(** An account with 2FA enabled calls the disable route: the vault opens
    without the marker cookie. *)
Lemma X15_two_factor_routes_and_gate_witness :
  Middleware.twoFactorEnforcement "/vault/files" (Some "user-1")
    (TwoFactor.tfaOf
       (TwoFactor.disablePOST
          (Some {| TwoFactor.user_id := "user-1"; TwoFactor.email := None |})
          {[ "user-1" := {| TwoFactor.secret_key := rfc_secret;
                            TwoFactor.backup_codes := [];
                            TwoFactor.is_enabled := true |} ]}
          (Some "1"%string)).1.2 "user-1") None
  = Middleware.Continue.
Proof.
  refine (proj1 (proj2 (proj2 (X15_two_factor_routes_and_gate
    {| TwoFactor.user_id := "user-1"; TwoFactor.email := None |}
    "/vault/files"
    {[ "user-1" := {| TwoFactor.secret_key := rfc_secret;
                      TwoFactor.backup_codes := [];
                      TwoFactor.is_enabled := true |} ]}
    (Some "1"%string) _))) None).
  reflexivity.
Defined.

(** * The request pipeline of middleware.ts *)

Section MiddlewarePipeline.
Import JS JSString ClientIP Middleware MiddlewareMore.

Lemma prefix_cons a s1 b s2 :
  String.prefix (String a s1) (String b s2)
  = Ascii.eqb a b && String.prefix s1 s2.
Proof.
  simpl. destruct (ascii_dec a b) as [->|Hne].
  - by rewrite Ascii.eqb_refl.
  - apply Ascii.eqb_neq in Hne. by rewrite Hne.
Qed.

Lemma vault_path p :
  startsWith p "/vault/" = true ->
  startsWith p "/api/" = false
  /\ String.eqb p "/checkout/success" = false
  /\ startsWith p "/vault/" || startsWith p "/account"
     || startsWith p "/settings" = true.
Proof.
  intros Hp. split_and!; [| |by rewrite Hp].
  - unfold startsWith in *.
    destruct p as [|c1 [|c2 p]]; rewrite ?prefix_cons in *; try done.
    + destruct (Ascii.eqb_spec "/" c1); simpl in *; done.
    + destruct (Ascii.eqb_spec "/" c1) as [<-|]; [|done].
      destruct (Ascii.eqb_spec "v" c2) as [<-|]; [|done]. done.
  - unfold startsWith in *.
    destruct p as [|c1 [|c2 p]]; rewrite ?prefix_cons in *; try done.
    + destruct (Ascii.eqb_spec "/" c1); simpl in *; done.
    + destruct (Ascii.eqb_spec "/" c1) as [<-|]; [|done].
      destruct (Ascii.eqb_spec "v" c2) as [<-|]; [|done]. done.
Qed.

Lemma csrfOk_spec req :
  csrfOk req = true
  <-> exists t, t <> ""%string /\ csrf_cookie req = Some t
                /\ x_csrf_token req = Some t.
Proof.
  unfold csrfOk, truthy. rewrite !andb_true_iff, bool_decide_eq_true. split.
  - intros [[Hc _] Heq]. destruct (csrf_cookie req) as [c|]; [|done].
    exists c. apply negb_true_iff, String.eqb_neq in Hc. by rewrite <- Heq.
  - intros (t & Hne & -> & ->). apply String.eqb_neq in Hne.
    by rewrite Hne.
Qed.

Lemma activeSubscription_single w id :
  is_Some (activeSubscription w id)
  <-> length (List.filter (activeRow id) (subscriptions w)) = 1%nat.
Proof.
  unfold activeSubscription.
  destruct (List.filter _ _) as [|s [|s' l]]; simpl; split;
    try done; try (by intros [? ?]).
Qed.

Lemma recentCreatedAt_max (subs : list subscription) id :
  match fold_right
          (fun s acc =>
             if String.eqb (sub_user s) id then
               match acc with
               | Some t => Some (Z.max (sub_created_at s) t)
               | None => Some (sub_created_at s)
               end
             else acc) None subs with
  | Some t =>
      (exists s, In s subs /\ sub_user s = id /\ sub_created_at s = t)
      /\ forall s, In s subs -> sub_user s = id -> sub_created_at s <= t
  | None => forall s, In s subs -> sub_user s <> id
  end.
Proof.
  induction subs as [|x subs IH]; simpl; [done|].
  destruct (String.eqb_spec (sub_user x) id) as [Hx|Hx].
  - destruct (fold_right _ _ _) as [t|].
    + destruct IH as [(s & Hs & Hu & Ht) Hmax]. split.
      * destruct (Z.max_spec (sub_created_at x) t) as [[_ ->]|[_ ->]];
          [exists s|exists x]; auto.
      * intros s' [<-|Hs'] Hu'; [lia|].
        specialize (Hmax s' Hs' Hu'). lia.
    + split; [exists x; auto|].
      intros s' [<-|Hs'] Hu'; [lia|]. by destruct (IH s' Hs').
  - destruct (fold_right _ _ _) as [t|].
    + destruct IH as [(s & Hs & Hu & Ht) Hmax]. split.
      * exists s. auto.
      * intros s' [<-|Hs'] Hu'; [done|]. by apply Hmax.
    + intros s' [<-|Hs']; [done|]. by apply IH.
Qed.

Lemma recentSubscription_spec now w id :
  recentSubscription now w id = true
  <-> exists s, In s (subscriptions w) /\ sub_user s = id
                /\ now - sub_created_at s < 10 * 60 * 1000.
Proof.
  unfold recentSubscription, recentCreatedAt.
  pose proof (recentCreatedAt_max (subscriptions w) id) as H.
  destruct (fold_right _ _ _) as [t|].
  - destruct H as [(s & Hs & Hu & Ht) Hmax]. rewrite Z.ltb_lt. split.
    + intros Hlt. exists s. split_and!; [done|done|lia].
    + intros (s' & Hs' & Hu' & Hlt). specialize (Hmax s' Hs' Hu'). lia.
  - split; [done|]. intros (s & Hs & Hu & _). by destruct (H s Hs).
Qed.

Lemma paymentSessionOk_spec now req id :
  paymentSessionOk now req id = true
  <-> exists p ts, payment req = Some (Some p) /\ timestamp p = Some ts
                   /\ userId p = Some id /\ now - 5 * 60 * 1000 <= ts.
Proof.
  unfold paymentSessionOk.
  destruct (payment req) as [[p|]|];
    try (split; [done|by intros (? & ? & ? & _)]).
  destruct (timestamp p) as [ts|] eqn:Hts;
    [|split; [done|intros (? & ? & [= <-] & ? & _); congruence]].
  rewrite andb_true_iff, Z.leb_le, bool_decide_eq_true. split.
  - intros [Hage Hid]. exists p, ts. split_and!; try done. lia.
  - intros (p' & ts' & [= <-] & Hts' & Hid & Hage).
    rewrite Hts in Hts'. injection Hts' as <-. split; [lia|done].
Qed.

End MiddlewarePipeline.

(** X16.  The way into a path under [/vault/] through [middleware].  The
    request goes on exactly when its address is not on the blacklist (with
    no expiry or one still ahead), somebody is signed in, that account
    either has no enabled 2FA or the request carries the cookie
    [two_factor_ok=1], and the account has exactly one subscription row with
    status [active] or [trial] (with two such rows the lookup answers
    nothing).  Otherwise the first failing step decides: 403 for a blocked
    address, then [/login] without a user, [/two-factor-auth] without the
    marker, [/trial] without the subscription.  The CSRF check never
    applies to such a path. *)
Theorem X16_vault_gate
  (now nowSub nowPay : Z) (req : MiddlewareMore.request)
  (w : MiddlewareMore.world) :
  Middleware.startsWith (MiddlewareMore.pathname req) "/vault/" = true ->
  let r := MiddlewareMore.middleware now nowSub nowPay req w in
  let blocked := MiddlewareMore.isBlocked now w (MiddlewareMore.hdrs req) in
  let marker id :=
    TwoFactor.tfaOf (MiddlewareMore.two_factor_auth w) id = Some true ->
    MiddlewareMore.two_factor_ok req = Some "1"%string in
  ((exists b, r = MiddlewareMore.Next b)
   <-> blocked = false
       /\ exists id,
            MiddlewareMore.user w = Some id /\ marker id
            /\ length (List.filter (MiddlewareMore.activeRow id)
                         (MiddlewareMore.subscriptions w)) = 1%nat)
  /\ (blocked = true -> r = MiddlewareMore.Blocked403 "Access blocked")
  /\ (blocked = false -> MiddlewareMore.user w = None ->
      r = MiddlewareMore.RedirectTo "/login")
  /\ (forall id, blocked = false -> MiddlewareMore.user w = Some id ->
        ~ marker id -> r = MiddlewareMore.RedirectTo "/two-factor-auth")
  /\ (forall id, blocked = false -> MiddlewareMore.user w = Some id ->
        marker id ->
        length (List.filter (MiddlewareMore.activeRow id)
                  (MiddlewareMore.subscriptions w)) <> 1%nat ->
        r = MiddlewareMore.RedirectTo "/trial").
Proof.
  intros Hp r blocked marker.
  destruct (vault_path _ Hp) as (Hapi & Hco & Hsens).
  assert (Hr : r =
    if blocked then MiddlewareMore.Blocked403 "Access blocked"
    else match MiddlewareMore.user w with
         | None => MiddlewareMore.RedirectTo "/login"
         | Some id =>
             if bool_decide
                  (TwoFactor.tfaOf (MiddlewareMore.two_factor_auth w) id
                   = Some true)
                && negb (bool_decide
                           (MiddlewareMore.two_factor_ok req
                            = Some "1"%string))
             then MiddlewareMore.RedirectTo "/two-factor-auth"
             else match MiddlewareMore.activeSubscription w id with
                  | Some _ =>
                      MiddlewareMore.Next
                        (negb (JSString.truthy
                                 (MiddlewareMore.csrf_cookie req)))
                  | None => MiddlewareMore.RedirectTo "/trial"
                  end
         end).
  { unfold r, MiddlewareMore.middleware, MiddlewareMore.csrfChecked.
    fold blocked. destruct blocked; [done|].
    rewrite Hapi. cbn [andb]. unfold Middleware.twoFactorEnforcement.
    rewrite Hsens, Hco, Hp. unfold MiddlewareMore.vaultGate.
    destruct (MiddlewareMore.user w) as [id|]; [|done].
    destruct (TwoFactor.tfaOf _ id) as [[]|]; try done.
    destruct (bool_decide (MiddlewareMore.two_factor_ok req = _)); done. }
  assert (Hmark : forall id,
            bool_decide
              (TwoFactor.tfaOf (MiddlewareMore.two_factor_auth w) id
               = Some true)
            && negb (bool_decide
                       (MiddlewareMore.two_factor_ok req = Some "1"%string))
            = false <-> marker id).
  { intros id. unfold marker.
    destruct (bool_decide_reflect
                (TwoFactor.tfaOf (MiddlewareMore.two_factor_auth w) id
                 = Some true)) as [Ht|Ht];
      destruct (bool_decide_reflect
                  (MiddlewareMore.two_factor_ok req = Some "1"%string))
        as [Hc|Hc]; simpl; split; try done; intros H; tauto. }
  rewrite Hr. split_and!.
  - split.
    + intros (b & Hb). destruct blocked; [done|]. split; [done|].
      destruct (MiddlewareMore.user w) as [id|]; [|done]. exists id.
      destruct (_ && _) eqn:Hm; [done|]. apply Hmark in Hm.
      split_and!; [done|done|]. apply activeSubscription_single.
      destruct (MiddlewareMore.activeSubscription w id); [by eexists|done].
    + intros (-> & id & -> & Hm & Hsub). apply Hmark in Hm. rewrite Hm.
      apply activeSubscription_single in Hsub as [s ->]. by eexists.
  - by intros ->.
  - by intros -> ->.
  - intros id -> -> Hm.
    destruct (_ && _) eqn:Hm'; [done|]. by apply Hmark in Hm'.
  - intros id -> -> Hm Hsub. apply Hmark in Hm. rewrite Hm.
    destruct (MiddlewareMore.activeSubscription w id) eqn:Hs; [|done].
    exfalso. apply Hsub, activeSubscription_single. rewrite Hs. by eexists.
Qed.

(** A vault page, asked for with the marker by a subscribed account. *)
Lemma X16_vault_gate_witness :
  exists b,
    MiddlewareMore.middleware 1700000000000 1700000000000 1700000000000
      vaultRequest subscribedWorld
    = MiddlewareMore.Next b.
Proof.
  refine (proj2 (proj1 (X16_vault_gate 1700000000000 1700000000000
    1700000000000 vaultRequest subscribedWorld _)) _).
  - reflexivity.
  - split; [vm_compute; reflexivity|]. exists "user-1"%string.
    split_and!; [reflexivity| |reflexivity]. intros _. reflexivity.
Defined.

(** X17.  The CSRF step of [middleware].  A request is answered
    [403 Invalid CSRF token] exactly when its address is not blocked, it is a
    POST, PUT, PATCH or DELETE whose path starts with [/api/] and contains
    none of [/lemonsqueezy/webhook], [/checkout/initialize] and
    [/payment/process], and the [csrf_token] cookie and the [x-csrf-token]
    header are not one and the same non-empty text.  So a browser that has
    no [csrf_token] cookie yet is refused on such a request (the cookie the
    middleware prepared for it goes with the response that is dropped), and
    a path that contains one of the three fragments anywhere is never
    checked. *)
Theorem X17_csrf_check
  (now nowSub nowPay : Z) (req : MiddlewareMore.request)
  (w : MiddlewareMore.world) :
  let r := MiddlewareMore.middleware now nowSub nowPay req w in
  let checked :=
    Middleware.startsWith (MiddlewareMore.pathname req) "/api/" = true
    /\ In (MiddlewareMore.method req) ["POST"; "PUT"; "PATCH"; "DELETE"]%string
    /\ JSString.includes (MiddlewareMore.pathname req) "/lemonsqueezy/webhook"
       = false
    /\ JSString.includes (MiddlewareMore.pathname req) "/checkout/initialize"
       = false
    /\ JSString.includes (MiddlewareMore.pathname req) "/payment/process"
       = false in
  (r = MiddlewareMore.Blocked403 "Invalid CSRF token"
   <-> MiddlewareMore.isBlocked now w (MiddlewareMore.hdrs req) = false
       /\ checked
       /\ ~ (exists t, t <> ""%string
                       /\ MiddlewareMore.csrf_cookie req = Some t
                       /\ MiddlewareMore.x_csrf_token req = Some t))
  /\ (MiddlewareMore.isBlocked now w (MiddlewareMore.hdrs req) = false ->
      checked -> MiddlewareMore.csrf_cookie req = None ->
      r = MiddlewareMore.Blocked403 "Invalid CSRF token")
  /\ (forall b, r = MiddlewareMore.Next b ->
        b = true
        <-> MiddlewareMore.csrf_cookie req = None
            \/ MiddlewareMore.csrf_cookie req = Some ""%string).
Proof.
  intros r checked.
  assert (Hchecked : MiddlewareMore.csrfChecked req = true <-> checked).
  { unfold MiddlewareMore.csrfChecked, checked, MiddlewareMore.isMutating.
    rewrite !andb_true_iff, !negb_true_iff, existsb_exists.
    split.
    - intros ((((? & (m & Hm & Heq)) & ?) & ?) & ?).
      apply String.eqb_eq in Heq. subst m. done.
    - intros (? & Hm & ? & ? & ?). split_and!; try done.
      exists (MiddlewareMore.method req). split; [done|].
      apply String.eqb_refl. }
  assert (Hiff : r = MiddlewareMore.Blocked403 "Invalid CSRF token"
                 <-> MiddlewareMore.isBlocked now w (MiddlewareMore.hdrs req)
                     = false
                     /\ MiddlewareMore.csrfChecked req = true
                     /\ MiddlewareMore.csrfOk req = false).
  { unfold r, MiddlewareMore.middleware. clear Hchecked. clear checked.
    destruct (MiddlewareMore.isBlocked _ _ _); [split; [done|by intros [? _]]|].
    destruct (MiddlewareMore.csrfChecked req); cbn [andb].
    - destruct (MiddlewareMore.csrfOk req); cbn [negb]; [|done].
      split; [|by intros (_ & _ & ?)].
      destruct (Middleware.twoFactorEnforcement _ _ _ _); [|done].
      destruct (String.eqb _ _).
      + unfold MiddlewareMore.checkoutSuccess.
        repeat (case_match; try done).
      + destruct (Middleware.startsWith _ "/vault/"); [|done].
        unfold MiddlewareMore.vaultGate. repeat (case_match; try done).
    - split; [|by intros (_ & ? & _)].
      destruct (Middleware.twoFactorEnforcement _ _ _ _); [|done].
      destruct (String.eqb _ _).
      + unfold MiddlewareMore.checkoutSuccess.
        repeat (case_match; try done).
      + destruct (Middleware.startsWith _ "/vault/"); [|done].
        unfold MiddlewareMore.vaultGate. repeat (case_match; try done). }
  split_and!.
  - rewrite Hiff, Hchecked, <- csrfOk_spec, not_true_iff_false. done.
  - intros Hb Hc Hcookie. apply Hiff. split_and!; [done|by apply Hchecked|].
    unfold MiddlewareMore.csrfOk. by rewrite Hcookie.
  - intros b. unfold r, MiddlewareMore.middleware.
    clear Hchecked Hiff. clear checked.
    assert (Ht : negb (JSString.truthy (MiddlewareMore.csrf_cookie req)) = true
                 <-> MiddlewareMore.csrf_cookie req = None
                     \/ MiddlewareMore.csrf_cookie req = Some ""%string).
    { unfold JSString.truthy.
      destruct (MiddlewareMore.csrf_cookie req) as [c|]; simpl.
      - rewrite negb_involutive, String.eqb_eq. split.
        + intros ->. by right.
        + by intros [?|[= ->]].
      - split; [by left|done]. }
    destruct (MiddlewareMore.isBlocked _ _ _); [done|].
    destruct (_ && _); [done|].
    destruct (Middleware.twoFactorEnforcement _ _ _ _); [|done].
    destruct (String.eqb _ _).
    + unfold MiddlewareMore.checkoutSuccess.
      repeat (case_match; try done); by intros [= <-].
    + destruct (Middleware.startsWith _ "/vault/").
      * unfold MiddlewareMore.vaultGate.
        repeat (case_match; try done); by intros [= <-].
      * by intros [= <-].
Qed.

(** X18.  The page [/checkout/success] through [middleware], for an address
    that is not blocked.  Without a signed-in user the answer is a redirect
    to [/login].  For a signed-in account the request goes on exactly when
    the account has exactly one [active] or [trial] subscription row, or
    some subscription row of the account, whatever its status, was created
    less than 10 minutes ago, or the [lemon_squeezy_payment] cookie names
    the account and a timestamp not more than 5 minutes old (a timestamp in
    the future passes as well); in every other case the answer is a redirect
    to [/pricing].  Neither the CSRF check nor the 2FA gate applies to this
    path. *)
Theorem X18_checkout_success_gate
  (now nowSub nowPay : Z) (req : MiddlewareMore.request)
  (w : MiddlewareMore.world) :
  MiddlewareMore.pathname req = "/checkout/success"%string ->
  MiddlewareMore.isBlocked now w (MiddlewareMore.hdrs req) = false ->
  let r := MiddlewareMore.middleware now nowSub nowPay req w in
  (MiddlewareMore.user w = None -> r = MiddlewareMore.RedirectTo "/login")
  /\ (forall id, MiddlewareMore.user w = Some id ->
        ((exists b, r = MiddlewareMore.Next b)
         <-> length (List.filter (MiddlewareMore.activeRow id)
                       (MiddlewareMore.subscriptions w)) = 1%nat
             \/ (exists s,
                   In s (MiddlewareMore.subscriptions w)
                   /\ MiddlewareMore.sub_user s = id
                   /\ nowSub - MiddlewareMore.sub_created_at s
                      < 10 * 60 * 1000)
             \/ (exists p ts,
                   MiddlewareMore.payment req = Some (Some p)
                   /\ MiddlewareMore.timestamp p = Some ts
                   /\ MiddlewareMore.userId p = Some id
                   /\ nowPay - 5 * 60 * 1000 <= ts))
        /\ ((exists b, r = MiddlewareMore.Next b)
            \/ r = MiddlewareMore.RedirectTo "/pricing")).
Proof.
  intros Hp Hb r.
  assert (Hr : r = MiddlewareMore.checkoutSuccess nowSub nowPay req w
                     (MiddlewareMore.Next
                        (negb (JSString.truthy
                                 (MiddlewareMore.csrf_cookie req))))).
  { unfold r, MiddlewareMore.middleware, MiddlewareMore.csrfChecked,
      Middleware.twoFactorEnforcement.
    rewrite Hb, Hp. done. }
  rewrite Hr. unfold MiddlewareMore.checkoutSuccess. split.
  - by intros ->.
  - intros id ->.
    rewrite <- activeSubscription_single, <- recentSubscription_spec,
      <- paymentSessionOk_spec.
    destruct (MiddlewareMore.activeSubscription w id) as [s|].
    { split; [|left; by eexists]. split; [|by eexists].
      intros _. left. by eexists. }
    destruct (MiddlewareMore.recentSubscription nowSub w id).
    { split; [|left; by eexists]. split; [|by eexists].
      intros _. right. by left. }
    destruct (MiddlewareMore.paymentSessionOk nowPay req id).
    { split; [|left; by eexists]. split; [|by eexists].
      intros _. right. by right. }
    split; [|by right]. split; [by intros [? ?]|].
    intros [[? ?]|[?|?]]; done.
Qed.

(** A signed-in account with one active subscription. *)
Lemma X18_checkout_success_gate_witness :
  exists b,
    MiddlewareMore.middleware 1700000000000 1700000000000 1700000000000
      (onPath vaultRequest "/checkout/success") subscribedWorld
    = MiddlewareMore.Next b.
Proof.
  refine (proj2 (proj1 (proj2 (X18_checkout_success_gate 1700000000000
    1700000000000 1700000000000 (onPath vaultRequest "/checkout/success")
    subscribedWorld _ _) "user-1"%string _)) _).
  - reflexivity.
  - vm_compute. reflexivity.
  - reflexivity.
  - left. reflexivity.
Defined.

(** * The client address *)

Section ClientAddress.
Import JS JSString ClientIP MiddlewareMore.

Lemma trimStart_head l :
  match trimStart l with
  | [] => True
  | c :: _ => is_space c = false
  end.
Proof.
  induction l as [|c l IH]; simpl; [done|].
  destruct (is_space c) eqn:Hc; [done|]. simpl. done.
Qed.

Lemma trimStart_fixed l :
  match l with [] => True | c :: _ => is_space c = false end ->
  trimStart l = l.
Proof. destruct l as [|c l]; simpl; [done|]. by intros ->. Qed.

Lemma trimStart_idem l : trimStart (trimStart l) = trimStart l.
Proof. apply trimStart_fixed, trimStart_head. Qed.

Lemma trimStart_snoc l x :
  is_space x = false -> trimStart (l ++ [x]) = trimStart l ++ [x].
Proof.
  intros Hx. induction l as [|c l IH]; simpl; [by rewrite Hx|].
  destruct (is_space c); done.
Qed.

Lemma trimEnd_cons x l :
  is_space x = false -> trimEnd (x :: l) = x :: trimEnd l.
Proof.
  intros Hx. unfold trimEnd. simpl.
  by rewrite trimStart_snoc, rev_app_distr.
Qed.

Lemma trimEnd_idem l : trimEnd (trimEnd l) = trimEnd l.
Proof. unfold trimEnd. by rewrite rev_involutive, trimStart_idem. Qed.

Lemma trimmed_fixed l :
  let m := trimEnd (trimStart l) in
  trimEnd (trimStart m) = m.
Proof.
  intros m. unfold m.
  pose proof (trimStart_head l) as Hh.
  destruct (trimStart l) as [|c k]; [done|].
  rewrite trimEnd_cons by done. simpl. rewrite Hh.
  by rewrite <- trimEnd_cons, trimEnd_idem.
Qed.

Lemma trimStart_sub l c : In c (trimStart l) -> In c l.
Proof.
  induction l as [|x l IH]; simpl; [done|].
  destruct (is_space x); [auto|]. done.
Qed.

Lemma trimEnd_sub l c : In c (trimEnd l) -> In c l.
Proof.
  unfold trimEnd. rewrite <- in_rev. intros H.
  apply trimStart_sub in H. by apply in_rev.
Qed.

Lemma beforeComma_no_comma l : ~ In ","%char (beforeComma l).
Proof.
  induction l as [|c l IH]; simpl; [tauto|].
  destruct (Ascii.eqb_spec c ","); simpl; [tauto|]. intros [?|?]; auto.
Qed.

Lemma truthy_Some s : truthy (Some s) = true <-> s <> ""%string.
Proof.
  unfold truthy. rewrite negb_true_iff. apply String.eqb_neq.
Qed.

End ClientAddress.

(** X19.  The address of a request, as [getClientIP] of the two security
    middlewares and as the blacklist step of [middleware] read it.  The
    first entry of a non-empty [x-forwarded-for] holds no comma and no white
    space at either end.  When that entry is not empty both readings return
    it, whatever [x-real-ip] and [cf-connecting-ip] say.  When the header is
    there but its first entry is empty, [getClientIP] returns the empty
    text while the blacklist step falls back on the other headers.  Without
    the header both return [x-real-ip], else [cf-connecting-ip]; with none
    of the three, [getClientIP] gives [unknown] and the blacklist step
    [0.0.0.0]. *)
Theorem X19_client_address (h : ClientIP.headers) :
  let entry := JSString.firstEntry (default ""%string
                                      (ClientIP.x_forwarded_for h)) in
  let fallback :=
    JSString.or_else (ClientIP.x_real_ip h) (ClientIP.cf_connecting_ip h) in
  occurrences "," entry = 0%nat
  /\ JSString.trim entry = entry
  /\ (JSString.truthy (ClientIP.x_forwarded_for h) = true ->
      (entry <> ""%string ->
       ClientIP.getClientIP h = entry /\ MiddlewareMore.requestIp h = entry)
      /\ (entry = ""%string ->
          ClientIP.getClientIP h = ""%string
          /\ MiddlewareMore.requestIp h
             = if JSString.truthy fallback
               then default ""%string fallback else "0.0.0.0"%string))
  /\ (JSString.truthy (ClientIP.x_forwarded_for h) = false ->
      (JSString.truthy fallback = true ->
       ClientIP.getClientIP h = default ""%string fallback
       /\ MiddlewareMore.requestIp h = default ""%string fallback)
      /\ (JSString.truthy fallback = false ->
          ClientIP.getClientIP h = "unknown"%string
          /\ MiddlewareMore.requestIp h = "0.0.0.0"%string)).
Proof.
  intros entry fallback. split_and!.
  - unfold occurrences, entry, JSString.firstEntry.
    rewrite list_ascii_of_string_of_list_ascii.
    rewrite filter_none; [done|]. intros c Hc.
    apply not_true_is_false. intros Heq. apply Ascii.eqb_eq in Heq.
    subst c. apply trimEnd_sub, trimStart_sub in Hc.
    by apply beforeComma_no_comma in Hc.
  - unfold entry, JSString.firstEntry, JSString.trim.
    rewrite list_ascii_of_string_of_list_ascii.
    by rewrite trimmed_fixed.
  - intros Hf. unfold ClientIP.getClientIP, MiddlewareMore.requestIp.
    rewrite Hf. subst entry.
    destruct (ClientIP.x_forwarded_for h) as [f|]; [|done].
    change (default ""%string (Some f)) with f.
    set (entry := JSString.firstEntry f). fold fallback. split.
    + intros Hne. split; [done|].
      unfold JSString.or_else at 2.
      rewrite (proj2 (truthy_Some entry) Hne).
      unfold JSString.or_else.
      by rewrite (proj2 (truthy_Some entry) Hne).
    + intros He. split; [done|]. rewrite He.
      unfold JSString.or_else at 2. cbn [JSString.truthy String.eqb negb].
      unfold JSString.or_else at 1.
      destruct (JSString.truthy fallback) eqn:Hfb.
      * by destruct fallback.
      * done.
  - intros Hf. unfold ClientIP.getClientIP, MiddlewareMore.requestIp.
    rewrite Hf.
    assert (JSString.or_else
              match ClientIP.x_forwarded_for h with
              | Some f => Some (JSString.firstEntry f)
              | None => None
              end fallback = fallback) as Hfwd.
    { destruct (ClientIP.x_forwarded_for h) as [f|]; [|done].
      apply not_true_iff_false in Hf.
      assert (f = ""%string) as ->.
      { destruct (decide (f = ""%string)); [done|].
        exfalso. by apply Hf, truthy_Some. }
      done. }
    fold fallback. rewrite Hfwd. subst fallback. unfold JSString.or_else.
    destruct (JSString.truthy (ClientIP.x_real_ip h)) eqn:Hr;
      rewrite ?Hr.
    + split; [|done]. intros _. split; [done|].
      by destruct (ClientIP.x_real_ip h).
    + destruct (JSString.truthy (ClientIP.cf_connecting_ip h)) eqn:Hc;
        rewrite ?Hc.
      * split; [|done]. intros _. split; [done|].
        by destruct (ClientIP.cf_connecting_ip h).
      * split; [done|]. intros _. done.
Qed.

Section RateKeys.
Import JS RateLimit ClientIP.

Lemma rateKey_inj a b endpoint :
  rateKey a endpoint = rateKey b endpoint -> a = b.
Proof.
  unfold rateKey. intros H. apply (f_equal list_ascii_of_string) in H.
  rewrite !chars_app in H. apply app_inv_tail in H.
  apply (f_equal string_of_list_ascii) in H.
  by rewrite !string_of_list_ascii_of_string in H.
Qed.

Lemma runKeyed_fresh cfg calls : forall store : gmap string entry,
  NoDup (map snd calls) ->
  (forall c, In c calls -> store !! c.2 = None) ->
  Forall (fun r => allowed r = true)
    (runKeyed (AdvancedSecurity.checkRateLimit cfg) calls store).
Proof.
  induction calls as [|[t key] calls IH]; intros store Hnd Hfresh; simpl;
    [constructor|].
  rewrite (checkRateLimit_fresh cfg key t store)
    by (left; apply (Hfresh (t, key)); by left).
  apply NoDup_cons in Hnd as [Hkey Hnd].
  constructor; [done|]. apply IH; [done|].
  intros c Hc. rewrite lookup_insert_ne.
  - apply Hfresh. by right.
  - intros ->. apply Hkey, list_elem_of_In, in_map_iff. by exists c.
Qed.

Lemma runKeyed_agree cfg calls : forall store : gmap string entry,
  map allowed (runKeyed (Security.checkRateLimit cfg) calls store)
  = map allowed (runKeyed (AdvancedSecurity.checkRateLimit cfg) calls store).
Proof.
  induction calls as [|[t key] calls IH]; intros store; simpl; [done|].
  destruct (checkRateLimit_agree cfg key t store) as (Ha & _ & Hs).
  destruct (AdvancedSecurity.checkRateLimit cfg t key store) as [ra sa].
  destruct (Security.checkRateLimit cfg t key store) as [rb sb].
  simpl in *. subst sb. by rewrite Ha, IH.
Qed.

Lemma NoDup_map_injective {A B} (f : A -> B) (l : list A) :
  (forall x y, f x = f y -> x = y) -> NoDup l -> NoDup (map f l).
Proof.
  intros Hinj. induction 1 as [|x l Hx _ IH]; simpl; [constructor|].
  apply NoDup_cons. split; [|done].
  intros Hin. apply list_elem_of_In, in_map_iff in Hin as (y & Hy & Hin).
  apply Hinj in Hy. subst y. by apply Hx, list_elem_of_In.
Qed.

End RateKeys.

(** X20.  Both limiters count per address and path, and the address is the
    one [getClientIP] reads from the request's own headers: requests for one
    path whose addresses are pairwise different never share a counter, so
    each of them is allowed, however many there are and whatever the
    configured maximum. *)
Theorem X20_rate_limit_follows_headers
  (cfg : option RateLimit.rateLimitConfig) (endpoint : string)
  (reqs : list (Z * ClientIP.headers)) :
  NoDup (map (fun r => ClientIP.getClientIP r.2) reqs) ->
  let calls :=
    map (fun r => (r.1, RateLimit.rateKey (ClientIP.getClientIP r.2) endpoint))
      reqs in
  map RateLimit.allowed
    (runKeyed (AdvancedSecurity.checkRateLimit cfg) calls ∅)
  = repeat true (length reqs)
  /\ map RateLimit.allowed (runKeyed (Security.checkRateLimit cfg) calls ∅)
     = repeat true (length reqs).
Proof.
  intros Hnd calls.
  assert (Hall : Forall (fun r => RateLimit.allowed r = true)
                   (runKeyed (AdvancedSecurity.checkRateLimit cfg) calls ∅)).
  { apply runKeyed_fresh; [|done].
    unfold calls. rewrite map_map. cbn [snd].
    rewrite <- (map_map (fun r => ClientIP.getClientIP r.2)
                  (fun ip => RateLimit.rateKey ip endpoint)).
    apply NoDup_map_injective; [|done].
    intros a b. apply rateKey_inj. }
  assert (Hlen : forall cs (store : gmap string RateLimit.entry),
            length (runKeyed (AdvancedSecurity.checkRateLimit cfg) cs store)
            = length cs).
  { induction cs as [|[t key] cs IH]; intros store; simpl; [done|].
    destruct (AdvancedSecurity.checkRateLimit cfg t key store).
    simpl. by rewrite IH. }
  assert (Hmap : map RateLimit.allowed
                   (runKeyed (AdvancedSecurity.checkRateLimit cfg) calls ∅)
                 = repeat true (length reqs)).
  { rewrite <- (length_map (fun r =>
                  (r.1, RateLimit.rateKey (ClientIP.getClientIP r.2) endpoint))
                  reqs).
    fold calls. rewrite <- (Hlen calls ∅).
    induction Hall as [|r l Hr _ IH]; simpl; [done|]. by rewrite Hr, IH. }
  split; [done|]. by rewrite runKeyed_agree.
Qed.

(** Three requests in one millisecond under a limit of one request per
    minute, each naming another first [x-forwarded-for] entry. *)
Lemma X20_rate_limit_follows_headers_witness :
  map RateLimit.allowed
    (runKeyed
       (AdvancedSecurity.checkRateLimit
          (Some {| RateLimit.windowMs := Some 60000;
                   RateLimit.maxRequests := Some 1 |}))
       (map (fun r =>
               (r.1, RateLimit.rateKey (ClientIP.getClientIP r.2) "/api/login"))
          (map (fun f =>
                  (1700000000000,
                   {| ClientIP.x_forwarded_for := Some f;
                      ClientIP.x_real_ip := Some "203.0.113.7"%string;
                      ClientIP.cf_connecting_ip := None |}))
             ["10.0.0.1, 203.0.113.7"; "10.0.0.2, 203.0.113.7";
              "10.0.0.3, 203.0.113.7"]%string)) ∅)
  = repeat true
      (length
         (map (fun f =>
                 (1700000000000,
                  {| ClientIP.x_forwarded_for := Some f;
                     ClientIP.x_real_ip := Some "203.0.113.7"%string;
                     ClientIP.cf_connecting_ip := None |}))
            ["10.0.0.1, 203.0.113.7"; "10.0.0.2, 203.0.113.7";
             "10.0.0.3, 203.0.113.7"]%string)).
Proof.
  refine (proj1 (X20_rate_limit_follows_headers
    (Some {| RateLimit.windowMs := Some 60000;
             RateLimit.maxRequests := Some 1 |}) "/api/login"
    (map (fun f =>
            (1700000000000,
             {| ClientIP.x_forwarded_for := Some f;
                ClientIP.x_real_ip := Some "203.0.113.7"%string;
                ClientIP.cf_connecting_ip := None |}))
       ["10.0.0.1, 203.0.113.7"; "10.0.0.2, 203.0.113.7";
        "10.0.0.3, 203.0.113.7"]%string) _)).
  apply (bool_decide_unpack _). vm_compute. exact I.
Defined.

(** * The request pipeline of the security middlewares *)

Section HandlePipeline.
Import RateLimit AdvancedSecurity.

Lemma handle_split cfg now req (store : gmap string entry) :
  handle cfg now req store
  = if rateLimited cfg now req store
    then (Some {| status := 429; error := "Rate limit exceeded" |},
          ["rate_limit_exceeded"%string],
          match rateLimit cfg with
          | Some rl =>
              (checkRateLimit (Some rl) now
                 (rateKey (clientIP req) (pathname req)) store).2
          | None => store
          end)
    else ((handleAfterRateLimit cfg req).1, (handleAfterRateLimit cfg req).2,
          match rateLimit cfg with
          | Some rl =>
              (checkRateLimit (Some rl) now
                 (rateKey (clientIP req) (pathname req)) store).2
          | None => store
          end).
Proof.
  unfold handle, rateLimited. destruct (rateLimit cfg) as [rl|].
  - destruct (checkRateLimit _ _ _ _) as [r store']. cbn [fst snd].
    destruct (negb (allowed r)); [done|].
    by destruct (handleAfterRateLimit cfg req).
  - by destruct (handleAfterRateLimit cfg req).
Qed.

Lemma handleAfterAuth_spec cfg req :
  let res := handleAfterAuth cfg req in
  (res.1 = None
   <-> (requireSubscription cfg = true -> hasActiveSubscription req = true)
       /\ (validateInput cfg = true -> validationErrors req = []))
  /\ (forall resp, res.1 = Some resp ->
        In (status resp) [403; 400] /\ length res.2 = 1%nat)
  /\ (res.1 = None ->
      res.2 = if logSecurityEvents cfg then ["successful_access"%string]
              else []).
Proof.
  unfold handleAfterAuth, deny.
  destruct (requireSubscription cfg), (hasActiveSubscription req),
    (validateInput cfg);
    destruct (bool_decide_reflect (validationErrors req = [])) as [He|He];
    cbn; split_and!; try done; try tauto;
    try (intros resp [= <-]; cbn; tauto);
    try (split; [done|]; intros [H1 H2]; try (by specialize (H1 eq_refl));
         try (by specialize (H2 eq_refl))).
Qed.

End HandlePipeline.

(** X21.  The pipeline of [AdvancedSecurityMiddleware.handle].  The request
    goes on exactly when the rate limit step does not turn it down and every
    check the configuration asks for passes: a signed-in user when
    [requireAuth], for that user an enabled 2FA row when [require2FA] as
    well, an active subscription when [requireSubscription], no validation
    error when [validateInput].  A denial has status 429, 401, 403 or 400
    and logs exactly one event; a request that goes on logs
    [successful_access] or, without [logSecurityEvents], nothing.  Without
    [requireAuth] the flag [require2FA] changes nothing: the 2FA check is
    never made.  And when the [validateInput] of the two classes agree on
    whether the request has an error, [SecurityMiddleware.handle] leaves the
    store and answers with the status and the error text of
    [AdvancedSecurityMiddleware.handle] with [require2FA] off (the bodies
    differ in their other fields). *)
Theorem X21_handle_pipeline
  (cfg : AdvancedSecurity.SecurityConfig) (now : Z)
  (req : AdvancedSecurity.Request) (store : gmap string RateLimit.entry) :
  let res := AdvancedSecurity.handle cfg now req store in
  (res.1.1 = None
   <-> rateLimited cfg now req store = false
       /\ (AdvancedSecurity.requireAuth cfg = true ->
           AdvancedSecurity.authUser req <> None
           /\ (AdvancedSecurity.require2FA cfg = true ->
               AdvancedSecurity.twoFactorEnabled req = true))
       /\ (AdvancedSecurity.requireSubscription cfg = true ->
           AdvancedSecurity.hasActiveSubscription req = true)
       /\ (AdvancedSecurity.validateInput cfg = true ->
           AdvancedSecurity.validationErrors req = []))
  /\ (forall resp, res.1.1 = Some resp ->
        In (AdvancedSecurity.status resp) [429; 401; 403; 400]
        /\ length res.1.2 = 1%nat)
  /\ (res.1.1 = None ->
      res.1.2 = if AdvancedSecurity.logSecurityEvents cfg
                then ["successful_access"%string] else [])
  /\ (AdvancedSecurity.requireAuth cfg = false ->
      forall b, AdvancedSecurity.handle (with2FA cfg b) now req store = res)
  /\ (forall scfg log errors,
        cfg = advancedOf scfg false log ->
        (errors = [] <-> AdvancedSecurity.validationErrors req = []) ->
        let sres := SecurityHandle.handle scfg now req errors store in
        sres.2 = res.2
        /\ SecurityHandle.statusAndError sres.1
           = option_map
               (fun resp => (AdvancedSecurity.status resp,
                             AdvancedSecurity.error resp)) res.1.1).
Proof.
  intros res. unfold res. rewrite handle_split.
  destruct (handleAfterAuth_spec cfg req) as (Hok & Hdeny & Hlog).
  cbn zeta in *.
  assert (Hrest : AdvancedSecurity.handleAfterRateLimit cfg req
    = if AdvancedSecurity.requireAuth cfg then
        match AdvancedSecurity.authUser req with
        | None =>
            AdvancedSecurity.deny 401 "Authentication required"
              "unauthorized_access"
        | Some _ =>
            if AdvancedSecurity.require2FA cfg
               && negb (AdvancedSecurity.twoFactorEnabled req)
            then AdvancedSecurity.deny 403
                   "Two-factor authentication required" "2fa_required"
            else AdvancedSecurity.handleAfterAuth cfg req
        end
      else AdvancedSecurity.handleAfterAuth cfg req).
  { unfold AdvancedSecurity.handleAfterRateLimit.
    destruct (AdvancedSecurity.requireAuth cfg); [|done].
    destruct (AdvancedSecurity.authUser req); [|done].
    destruct (AdvancedSecurity.require2FA cfg); [|done].
    by destruct (AdvancedSecurity.twoFactorEnabled req). }
  split_and!.
  - destruct (rateLimited cfg now req store); cbn [fst snd].
    { split; [done|]. by intros [? _]. }
    rewrite Hrest.
    destruct (AdvancedSecurity.requireAuth cfg).
    + destruct (AdvancedSecurity.authUser req) as [u|]; cbn.
      * destruct (AdvancedSecurity.require2FA cfg),
          (AdvancedSecurity.twoFactorEnabled req); cbn;
          rewrite ?Hok; intuition congruence.
      * intuition congruence.
    + rewrite Hok. intuition congruence.
  - intros resp. destruct (rateLimited cfg now req store); cbn [fst snd].
    { intros [= <-]. cbn. tauto. }
    rewrite Hrest.
    destruct (AdvancedSecurity.requireAuth cfg).
    + destruct (AdvancedSecurity.authUser req) as [u|]; cbn.
      * destruct (_ && _); cbn.
        -- intros [= <-]. cbn. tauto.
        -- intros Hr. destruct (Hdeny resp Hr) as [Hs Hl].
           split; [|done]. cbn in *. tauto.
      * intros [= <-]. cbn. tauto.
    + intros Hr. destruct (Hdeny resp Hr) as [Hs Hl].
      split; [|done]. cbn in *. tauto.
  - destruct (rateLimited cfg now req store); cbn [fst snd]; [done|].
    rewrite Hrest.
    destruct (AdvancedSecurity.requireAuth cfg).
    + destruct (AdvancedSecurity.authUser req) as [u|]; cbn; [|done].
      destruct (_ && _); cbn; [done|]. apply Hlog.
    + apply Hlog.
  - intros Hauth b. rewrite handle_split.
    unfold rateLimited, AdvancedSecurity.handleAfterRateLimit,
      AdvancedSecurity.handleAfterAuth. cbn. by rewrite Hauth.
  - intros scfg log errors -> Herr. unfold SecurityHandle.handle, rateLimited.
    cbn [advancedOf AdvancedSecurity.rateLimit].
    assert (Hsame : bool_decide (errors = [])
                    = bool_decide (AdvancedSecurity.validationErrors req = []))
      by (apply bool_decide_ext; exact Herr).
    rewrite Hsame.
    destruct (SecurityHandle.rateLimit scfg) as [rl|].
    + destruct (checkRateLimit_agree (Some rl)
                  (RateLimit.rateKey (AdvancedSecurity.clientIP req)
                     (AdvancedSecurity.pathname req)) now store)
        as (Ha & _ & Hs).
      destruct (AdvancedSecurity.checkRateLimit _ _ _ _) as [ra sa].
      destruct (Security.checkRateLimit _ _ _ _) as [rb sb].
      cbn [fst snd] in *. subst sb. rewrite <- Ha.
      destruct (negb (RateLimit.allowed ra)); [done|]. cbn [fst snd].
      split; [done|].
      unfold AdvancedSecurity.handleAfterRateLimit,
        AdvancedSecurity.handleAfterAuth, AdvancedSecurity.deny. cbn.
      destruct (SecurityHandle.requireAuth scfg),
        (AdvancedSecurity.authUser req),
        (SecurityHandle.requireSubscription scfg),
        (AdvancedSecurity.hasActiveSubscription req),
        (SecurityHandle.validateInput scfg),
        (bool_decide (AdvancedSecurity.validationErrors req = []));
        by cbn.
    + cbn [fst snd]. split; [done|].
      unfold AdvancedSecurity.handleAfterRateLimit,
        AdvancedSecurity.handleAfterAuth, AdvancedSecurity.deny. cbn.
      destruct (SecurityHandle.requireAuth scfg),
        (AdvancedSecurity.authUser req),
        (SecurityHandle.requireSubscription scfg),
        (AdvancedSecurity.hasActiveSubscription req),
        (SecurityHandle.validateInput scfg),
        (bool_decide (AdvancedSecurity.validationErrors req = []));
        by cbn.
Qed.

(** * The utilities *)

Section Utilities.
Import JS JSString SecurityUtils.

Lemma filter_sublist {A} (f : A -> bool) (l : list A) :
  sublist (List.filter f l) l.
Proof.
  induction l as [|x l IH]; simpl; [constructor|].
  destruct (f x); by constructor.
Qed.

Lemma trimStart_sublist l : sublist (trimStart l) l.
Proof.
  induction l as [|c l IH]; simpl; [constructor|].
  destruct (is_space c); [by constructor|done].
Qed.

Lemma trimStart_suffix l : exists k, l = k ++ trimStart l.
Proof.
  induction l as [|c l [k IH]]; simpl; [by exists []|].
  destruct (is_space c); [|by exists []].
  exists (c :: k). simpl. by rewrite <- IH.
Qed.

Lemma trimEnd_sublist l : sublist (trimEnd l) l.
Proof.
  unfold trimEnd. destruct (trimStart_suffix (rev l)) as [k Hk].
  rewrite <- (rev_involutive l) at 2. rewrite Hk at 2.
  rewrite rev_app_distr. by apply sublist_inserts_r.
Qed.

Lemma chars_trim s :
  list_ascii_of_string (trim s)
  = trimEnd (trimStart (list_ascii_of_string s)).
Proof. unfold trim. apply list_ascii_of_string_of_list_ascii. Qed.

Lemma chars_sanitizeInput s :
  list_ascii_of_string (sanitizeInput s)
  = trimEnd (trimStart
               (List.filter (fun c => negb (isMarkup c))
                  (list_ascii_of_string s))).
Proof.
  unfold sanitizeInput. by rewrite chars_trim, list_ascii_of_string_of_list_ascii.
Qed.

Lemma chars_inj s t :
  list_ascii_of_string s = list_ascii_of_string t -> s = t.
Proof.
  intros H. apply (f_equal string_of_list_ascii) in H.
  by rewrite !string_of_list_ascii_of_string in H.
Qed.

Lemma string_length_app s t :
  String.length (s ++ t) = (String.length s + String.length t)%nat.
Proof.
  induction s as [|c s IH]; [done|].
  change (String c s ++ t)%string with (String c (s ++ t)).
  simpl. by rewrite IH.
Qed.

Lemma existsb_app_mono {A} (f : A -> bool) (a x b : list A) :
  existsb f (a ++ b) = true -> existsb f (a ++ x ++ b) = true.
Proof.
  rewrite !existsb_app. intros H.
  apply orb_true_iff in H as [H|H]; rewrite H; [done|].
  by rewrite !orb_true_r.
Qed.

Lemma isBase32Char_inAlphabet c :
  isBase32Char c = true -> inAlphabet c = true /\ upper_chars c = [c].
Proof.
  destruct c as [[] [] [] [] [] [] [] []]; vm_compute; intros H;
    solve [done | discriminate H].
Qed.

Lemma toBase64_20 raw :
  length raw = 20%nat ->
  toBase64 raw = firstn 27 (toBase64 raw) ++ ["="%char]
  /\ length (toBase64 raw) = 28%nat.
Proof.
  intros Hlen.
  do 20 (destruct raw as [|? raw]; [discriminate Hlen|]).
  destruct raw; [|discriminate Hlen]. split; reflexivity.
Qed.

Lemma filter_length_le {A} (f : A -> bool) (l : list A) :
  (length (List.filter f l) <= length l)%nat.
Proof.
  induction l as [|x l IH]; simpl; [done|]. destruct (f x); simpl; lia.
Qed.

Lemma sanitizeInput_fixed s :
  Forall (fun c => isMarkup c = false) (list_ascii_of_string s) ->
  trim s = s -> sanitizeInput s = s.
Proof.
  intros Hs Ht. unfold sanitizeInput. rewrite filter_all.
  - by rewrite string_of_list_ascii_of_string.
  - eapply Forall_impl; [exact Hs|]. intros c Hc. simpl. by rewrite Hc.
Qed.

Lemma trim_no_space s :
  Forall (fun c => is_space c = false) (list_ascii_of_string s) ->
  trim s = s.
Proof.
  intros Hs. apply chars_inj. rewrite chars_trim.
  assert (Hfix : forall l, Forall (fun c => is_space c = false) l ->
                           trimStart l = l).
  { intros l Hl. apply trimStart_fixed. by destruct Hl. }
  rewrite (Hfix _ Hs). unfold trimEnd. rewrite Hfix.
  - apply rev_involutive.
  - apply Forall_forall. intros c Hc. rewrite Forall_forall in Hs.
    apply Hs. apply list_elem_of_In. apply list_elem_of_In in Hc.
    by apply in_rev.
Qed.

End Utilities.

(** X22.  [sanitizeInput] (the same function in both utility objects): its
    result holds none of [<], [>], the double quote, the apostrophe and [&],
    has no white space at either end, and is made of characters of the
    input in their order, nothing added; sanitizing twice is sanitizing
    once, and a text that already has that form is returned unchanged. *)
Theorem X22_sanitizeInput (input : string) :
  let out := SecurityUtils.sanitizeInput input in
  Forall (fun c => SecurityUtils.isMarkup c = false)
    (list_ascii_of_string out)
  /\ JSString.trim out = out
  /\ sublist (list_ascii_of_string out) (list_ascii_of_string input)
  /\ SecurityUtils.sanitizeInput out = out
  /\ (Forall (fun c => SecurityUtils.isMarkup c = false)
        (list_ascii_of_string input) ->
      JSString.trim input = input -> out = input).
Proof.
  intros out.
  assert (Hclean : Forall (fun c => SecurityUtils.isMarkup c = false)
                     (list_ascii_of_string out)).
  { unfold out. rewrite chars_sanitizeInput. apply Forall_forall.
    intros c Hc. apply list_elem_of_In, trimEnd_sub, trimStart_sub in Hc.
    apply filter_In in Hc as [_ Hc]. by apply negb_true_iff. }
  assert (Htrim : JSString.trim out = out).
  { apply chars_inj. unfold out.
    rewrite chars_trim, chars_sanitizeInput. apply trimmed_fixed. }
  split_and!.
  - exact Hclean.
  - exact Htrim.
  - unfold out. rewrite chars_sanitizeInput.
    etrans; [apply trimEnd_sublist|]. etrans; [apply trimStart_sublist|].
    apply filter_sublist.
  - by apply sanitizeInput_fixed.
  - apply sanitizeInput_fixed.
Qed.

(** X23.  [validatePasswordStrength]: a password is valid exactly when no
    error is reported, which is exactly when it has at least 8 characters,
    a lower-case letter, an upper-case letter, a digit and one of
    [@$!%*?&]; at most five errors are reported and none twice; and a valid
    password stays valid when characters are inserted into it anywhere. *)
Theorem X23_validatePasswordStrength (password : string) :
  let r := SecurityUtils.validatePasswordStrength password in
  (SecurityUtils.valid r = true <-> SecurityUtils.errors r = [])
  /\ (SecurityUtils.valid r = true
      <-> (8 <= String.length password)%nat
          /\ SecurityUtils.test SecurityUtils.isLower password = true
          /\ SecurityUtils.test SecurityUtils.isUpper password = true
          /\ SecurityUtils.test SecurityUtils.isDigit password = true
          /\ SecurityUtils.test SecurityUtils.isSpecial password = true)
  /\ (length (SecurityUtils.errors r) <= 5)%nat
  /\ NoDup (SecurityUtils.errors r)
  /\ (forall a x b,
        password = (a ++ b)%string ->
        SecurityUtils.valid r = true ->
        SecurityUtils.valid
          (SecurityUtils.validatePasswordStrength (a ++ x ++ b)%string)
        = true).
Proof.
  intros r.
  assert (Hvalid : forall p,
    SecurityUtils.valid (SecurityUtils.validatePasswordStrength p) = true
    <-> (8 <= String.length p)%nat
        /\ SecurityUtils.test SecurityUtils.isLower p = true
        /\ SecurityUtils.test SecurityUtils.isUpper p = true
        /\ SecurityUtils.test SecurityUtils.isDigit p = true
        /\ SecurityUtils.test SecurityUtils.isSpecial p = true).
  { intros p. unfold SecurityUtils.validatePasswordStrength,
      SecurityUtils.pushIf.
    destruct (Nat.ltb_spec (String.length p) 8);
      destruct (SecurityUtils.test SecurityUtils.isLower p),
        (SecurityUtils.test SecurityUtils.isUpper p),
        (SecurityUtils.test SecurityUtils.isDigit p),
        (SecurityUtils.test SecurityUtils.isSpecial p);
      cbn; split; try done; try (intros (? & ? & ? & ? & ?); done);
      try (intros (? & _); lia); try (intros _; split_and!; done || lia). }
  split_and!.
  - unfold r, SecurityUtils.validatePasswordStrength, SecurityUtils.pushIf.
    cbn [SecurityUtils.valid SecurityUtils.errors].
    rewrite Nat.eqb_eq. apply length_zero_iff_nil.
  - apply Hvalid.
  - unfold r, SecurityUtils.validatePasswordStrength, SecurityUtils.pushIf.
    destruct (_ <? _)%nat,
      (SecurityUtils.test SecurityUtils.isLower password),
      (SecurityUtils.test SecurityUtils.isUpper password),
      (SecurityUtils.test SecurityUtils.isDigit password),
      (SecurityUtils.test SecurityUtils.isSpecial password); cbn; lia.
  - unfold r, SecurityUtils.validatePasswordStrength, SecurityUtils.pushIf.
    destruct (_ <? _)%nat,
      (SecurityUtils.test SecurityUtils.isLower password),
      (SecurityUtils.test SecurityUtils.isUpper password),
      (SecurityUtils.test SecurityUtils.isDigit password),
      (SecurityUtils.test SecurityUtils.isSpecial password);
      cbn [negb app SecurityUtils.errors];
      apply (bool_decide_unpack _); vm_compute; exact I.
  - intros a x b -> Hv. apply Hvalid. apply Hvalid in Hv.
    destruct Hv as (Hlen & Hl & Hu & Hd & Hs).
    unfold SecurityUtils.test in *. rewrite !chars_app in *.
    rewrite !string_length_app in *.
    split_and!; try (by apply existsb_app_mono). lia.
Qed.

(** X24.  [AdvancedSecurityUtils.generateTOTPSecret] on its 20 random
    bytes: the Base64 text of the bytes has 28 characters, the last one
    [=], and only its upper-case letters and digits 2 to 7 are kept, so the
    secret has at most 27 characters, all from the Base32 alphabet, and the
    key [base32Decode] reads from it has at most 16 bytes (the 32
    characters and 20 bytes of [TOTP.generateSecret] are never reached). *)
Theorem X24_generateTOTPSecret_short (raw : list Z) :
  length raw = 20%nat ->
  let secret := SecurityUtils.generateTOTPSecret raw in
  (String.length secret <= 27)%nat
  /\ Forall (fun c => inAlphabet c = true) (list_ascii_of_string secret)
  /\ alphabetChars secret = String.length secret
  /\ (length (Base32.base32Decode secret) <= 16)%nat.
Proof.
  intros Hlen secret.
  destruct (toBase64_20 raw Hlen) as [Hsplit H28].
  assert (Hkept : (length (List.filter SecurityUtils.isBase32Char
                             (SecurityUtils.toBase64 raw)) <= 27)%nat).
  { rewrite Hsplit, List.filter_app, length_app. cbn [List.filter length].
    change (SecurityUtils.isBase32Char "=") with false. cbn [length].
    pose proof (filter_length_le SecurityUtils.isBase32Char
                  (firstn 27 (SecurityUtils.toBase64 raw))) as Hle.
    rewrite length_take in Hle. lia. }
  assert (Hchars : list_ascii_of_string secret
                   = List.filter SecurityUtils.isBase32Char
                       (SecurityUtils.toBase64 raw)).
  { unfold secret, SecurityUtils.generateTOTPSecret.
    rewrite list_ascii_of_string_of_list_ascii. apply firstn_all2. lia. }
  assert (Hall : Forall (fun c => inAlphabet c = true
                                 /\ JS.upper_chars c = [c])
                   (list_ascii_of_string secret)).
  { rewrite Hchars. apply Forall_forall. intros c Hc.
    apply list_elem_of_In, filter_In in Hc as [_ Hc].
    by apply isBase32Char_inAlphabet. }
  assert (Hlength : String.length secret
                    = length (list_ascii_of_string secret)).
  { rewrite <- (string_of_list_ascii_of_string secret) at 1.
    apply length_string_of_list_ascii. }
  assert (Hk : alphabetChars secret = String.length secret).
  { unfold alphabetChars, JS.toUpperCase.
    rewrite list_ascii_of_string_of_list_ascii, Hlength.
    rewrite flat_map_upper_fixed
      by (eapply Forall_impl; [exact Hall|]; by intros c [_ ?]).
    rewrite filter_all; [done|].
    eapply Forall_impl; [exact Hall|]. by intros c [? _]. }
  split_and!.
  - rewrite Hlength, Hchars. exact Hkept.
  - eapply Forall_impl; [exact Hall|]. by intros c [? _].
  - exact Hk.
  - assert (Z.of_nat (length (Base32.base32Decode secret))
            = 5 * Z.of_nat (alphabetChars secret) / 8) as Hdec.
    { rewrite base32Decode_filter, alphabetChars_filter.
      apply decode_chars_length, filter_inAlphabet_valid. }
    rewrite Hk, Hlength, Hchars in Hdec.
    assert (5 * Z.of_nat (length (List.filter SecurityUtils.isBase32Char
                                    (SecurityUtils.toBase64 raw))) / 8
            <= 5 * 27 / 8) by (apply Z.div_le_mono; lia).
    change (5 * 27 / 8) with 16 in *. lia.
Qed.

(** Twenty zero bytes give the longest secret. *)
Lemma X24_generateTOTPSecret_short_witness :
  (String.length (SecurityUtils.generateTOTPSecret (repeat 0%Z 20%nat))
   <= 27)%nat.
Proof.
  refine (proj1 (X24_generateTOTPSecret_short (repeat 0%Z 20%nat) _)).
  reflexivity.
Defined.

Example generateTOTPSecret_zero :
  SecurityUtils.generateTOTPSecret (repeat 0%Z 20%nat)
  = "AAAAAAAAAAAAAAAAAAAAAAAAAAA"%string.
Proof. vm_compute. reflexivity. Qed.

Example generateTOTPSecret_empty :
  SecurityUtils.generateTOTPSecret (repeat 255%Z 20%nat) = ""%string.
Proof. vm_compute. reflexivity. Qed.

(** * Regular expressions: the matcher decides the language *)

Section RegexCorrect.
Import Regex.

Lemma lang_nil_nullable r : lang r [] -> nullable r = true.
Proof.
  intros H. remember [] as l eqn:Hl.
  induction H as [|p c Hp|r s u v _ IHr _ IHs|r s u _ IH|r s u _ IH
                 |r|r u v _ _ _ _]; simpl; try done.
  - destruct u; [|done]. simpl in Hl. by rewrite IHr, IHs.
  - by rewrite IH.
  - rewrite IH by done. apply orb_true_r.
Qed.

Lemma nullable_lang_nil r : nullable r = true -> lang r [].
Proof.
  induction r as [| |p|r IHr s IHs|r IHr s IHs|r IH]; simpl; try done.
  - intros _. constructor.
  - intros H. apply andb_true_iff in H as [Hr Hs].
    apply (lang_cat r s [] []); auto.
  - intros H. apply orb_true_iff in H as [H|H];
      [apply lang_alt_l|apply lang_alt_r]; auto.
  - intros _. constructor.
Qed.

Lemma lang_cat_inv r s l :
  lang (Cat r s) l <-> exists u v, l = u ++ v /\ lang r u /\ lang s v.
Proof.
  split.
  - inversion 1; subst. eauto.
  - intros (u & v & -> & ? & ?). by constructor.
Qed.

Lemma lang_class_inv p l :
  lang (Class p) l <-> exists c, l = [c] /\ p c = true.
Proof.
  split.
  - inversion 1; subst. eauto.
  - intros (c & -> & ?). by constructor.
Qed.

Lemma lang_star_cons_inv r c l :
  lang (Star r) (c :: l) ->
  exists u v, l = u ++ v /\ lang r (c :: u) /\ lang (Star r) v.
Proof.
  intros H. remember (Star r) as s eqn:Hs. remember (c :: l) as w eqn:Hw.
  induction H as [|p x Hp|r1 r2 u v _ _ _ _|r1 r2 u _ _|r1 r2 u _ _
                 |r1|r1 u v Hu _ Hv IHv]; try discriminate.
  injection Hs as ->. destruct u as [|x u]; simpl in Hw.
  - by apply IHv.
  - injection Hw as -> <-. eauto.
Qed.

Lemma deriv_spec c r : forall l, lang (deriv c r) l <-> lang r (c :: l).
Proof.
  induction r as [| |p|r IHr s IHs|r IHr s IHs|r IH]; intros l; simpl.
  - split; inversion 1.
  - split; inversion 1.
  - destruct (p c) eqn:Hp; split.
    + inversion 1; subst. by constructor.
    + inversion 1; subst. constructor.
    + inversion 1.
    + inversion 1; subst. congruence.
  - assert (Hcat : lang (Cat (deriv c r) s) l
                   -> lang (Cat r s) (c :: l)).
    { intros H. apply lang_cat_inv in H as (u & v & -> & Hu & Hv).
      apply IHr in Hu. by apply (lang_cat r s (c :: u) v). }
    assert (Hinv : lang (Cat r s) (c :: l) ->
                   lang (Cat (deriv c r) s) l
                   \/ (lang r [] /\ lang (deriv c s) l)).
    { intros H. apply lang_cat_inv in H as (u & v & Heq & Hu & Hv).
      destruct u as [|x u]; simpl in Heq.
      - subst v. right. split; [done|]. by apply IHs.
      - injection Heq as <- ->. left. apply lang_cat; [|done].
        by apply IHr. }
    destruct (nullable r) eqn:Hn; split.
    + inversion 1; subst; [by apply Hcat|].
      apply (lang_cat r s [] (c :: l)); [by apply nullable_lang_nil|].
      by apply IHs.
    + intros H. apply Hinv in H as [H|[_ H]];
        [by apply lang_alt_l|by apply lang_alt_r].
    + apply Hcat.
    + intros H. apply Hinv in H as [H|[H _]]; [done|].
      apply lang_nil_nullable in H. congruence.
  - split.
    + inversion 1; subst; [apply lang_alt_l; by apply IHr
                          |apply lang_alt_r; by apply IHs].
    + inversion 1; subst; [apply lang_alt_l; by apply IHr
                          |apply lang_alt_r; by apply IHs].
  - split.
    + intros H. apply lang_cat_inv in H as (u & v & -> & Hu & Hv).
      apply IH in Hu. by apply (lang_star_cons r (c :: u) v).
    + intros H. apply lang_star_cons_inv in H as (u & v & -> & Hu & Hv).
      apply lang_cat; [by apply IH|done].
Qed.

Lemma matches_spec l : forall r, matches r l = true <-> lang r l.
Proof.
  induction l as [|c l IH]; intros r.
  - split; [apply nullable_lang_nil|apply lang_nil_nullable].
  - change (matches r (c :: l)) with (matches (deriv c r) l).
    rewrite IH. apply deriv_spec.
Qed.

Lemma lang_star_class p l :
  lang (Star (Class p)) l <-> Forall (fun c => p c = true) l.
Proof.
  split.
  - intros H. remember (Star (Class p)) as s eqn:Hs.
    induction H as [|q x Hq|r1 r2 u v _ _ _ _|r1 r2 u _ _|r1 r2 u _ _
                   |r1|r1 u v Hu _ Hv IHv]; try discriminate.
    + constructor.
    + injection Hs as ->. apply lang_class_inv in Hu as (c & -> & Hc).
      constructor; [done|]. by apply IHv.
  - induction 1 as [|c l Hc _ IH]; [constructor|].
    apply (lang_star_cons (Class p) [c] l); [by constructor|done].
Qed.

Lemma lang_plus_class p l :
  lang (Plus (Class p)) l <-> l <> [] /\ Forall (fun c => p c = true) l.
Proof.
  unfold Plus. rewrite lang_cat_inv. split.
  - intros (u & v & -> & Hu & Hv). apply lang_class_inv in Hu as (c & -> & Hc).
    apply lang_star_class in Hv. split; [done|]. by constructor.
  - intros [Hne Hl]. destruct Hl as [|c l Hc Hl]; [done|].
    exists [c], l. split_and!; [done|by constructor|by apply lang_star_class].
Qed.

Lemma lang_atleast2_class p l :
  lang (AtLeast2 (Class p)) l
  <-> (2 <= length l)%nat /\ Forall (fun c => p c = true) l.
Proof.
  unfold AtLeast2. rewrite lang_cat_inv. split.
  - intros (u & v & -> & Hu & Hv). apply lang_class_inv in Hu as (c & -> & Hc).
    apply (lang_plus_class p v) in Hv as [Hne Hv].
    split; [destruct v; [done|simpl; lia]|by constructor].
  - intros [Hlen Hl]. destruct Hl as [|c l Hc Hl]; [simpl in Hlen; lia|].
    exists [c], l. split_and!; [done|by constructor|].
    apply (lang_plus_class p l). split; [|done].
    destruct l; [simpl in Hlen; lia|done].
Qed.

End RegexCorrect.

Section Email.
Import JS JSString SecurityUtils.

Lemma emailRegex_spec l :
  Regex.lang emailRegex l
  <-> exists L D T,
        l = L ++ "@"%char :: D ++ "."%char :: T
        /\ L <> [] /\ Forall (fun c => isLocalChar c = true) L
        /\ D <> [] /\ Forall (fun c => isDomainChar c = true) D
        /\ (2 <= length T)%nat /\ Forall (fun c => isLetter c = true) T.
Proof.
  unfold emailRegex. split.
  - intros H.
    apply lang_cat_inv in H as (L & l1 & -> & HL & H).
    apply lang_cat_inv in H as (a & l2 & -> & Ha & H).
    apply lang_cat_inv in H as (D & l3 & -> & HD & H).
    apply lang_cat_inv in H as (d & T & -> & Hd & HT).
    apply lang_class_inv in Ha as (c & -> & Hc). apply Ascii.eqb_eq in Hc.
    apply lang_class_inv in Hd as (c' & -> & Hc'). apply Ascii.eqb_eq in Hc'.
    subst c c'.
    apply lang_plus_class in HL as [? ?]. apply lang_plus_class in HD as [? ?].
    apply lang_atleast2_class in HT as [? ?].
    exists L, D, T. split_and!; done.
  - intros (L & D & T & -> & HL1 & HL2 & HD1 & HD2 & HT1 & HT2).
    apply Regex.lang_cat; [by apply lang_plus_class|].
    apply (Regex.lang_cat _ _ ["@"%char]);
      [constructor; apply Ascii.eqb_refl|].
    apply Regex.lang_cat; [by apply lang_plus_class|].
    apply (Regex.lang_cat _ _ ["."%char]);
      [constructor; apply Ascii.eqb_refl|].
    by apply lang_atleast2_class.
Qed.

Lemma isLocalChar_plain c :
  isLocalChar c = true ->
  is_space c = false /\ isMarkup c = false /\ Ascii.eqb "@" c = false.
Proof.
  destruct c as [[] [] [] [] [] [] [] []]; vm_compute; intros H;
    solve [done | discriminate H].
Qed.

Lemma isDomainChar_local c : isDomainChar c = true -> isLocalChar c = true.
Proof.
  destruct c as [[] [] [] [] [] [] [] []]; vm_compute; intros H;
    solve [done | discriminate H].
Qed.

Lemma isLetter_local c : isLetter c = true -> isLocalChar c = true.
Proof.
  destruct c as [[] [] [] [] [] [] [] []]; vm_compute; intros H;
    solve [done | discriminate H].
Qed.

End Email.

(** X25.  [validateEmail] (the same pattern in both utility objects)
    accepts exactly the texts of the form local@domain.tld with a non-empty
    local part of letters, digits and [._%+-], a non-empty domain of
    letters, digits, dots and hyphens, and a last label of at least two
    letters.  An accepted address therefore holds exactly one [@], has at
    least 6 characters, and passes through [sanitizeInput] unchanged. *)
Theorem X25_validateEmail (email : string) :
  (SecurityUtils.validateEmail email = true
   <-> exists loc dom tld,
         email = (loc ++ "@" ++ dom ++ "." ++ tld)%string
         /\ loc <> ""%string /\ allChars SecurityUtils.isLocalChar loc
         /\ dom <> ""%string /\ allChars SecurityUtils.isDomainChar dom
         /\ (2 <= String.length tld)%nat
         /\ allChars SecurityUtils.isLetter tld)
  /\ (SecurityUtils.validateEmail email = true ->
      occurrences "@" email = 1%nat
      /\ (6 <= String.length email)%nat
      /\ SecurityUtils.sanitizeInput email = email).
Proof.
  unfold SecurityUtils.validateEmail. rewrite matches_spec, emailRegex_spec.
  split.
  - split.
    + intros (L & D & T & Heq & HL1 & HL2 & HD1 & HD2 & HT1 & HT2).
      exists (string_of_list_ascii L), (string_of_list_ascii D),
        (string_of_list_ascii T).
      unfold allChars. rewrite !list_ascii_of_string_of_list_ascii.
      rewrite length_string_of_list_ascii.
      split_and!; try done.
      * apply chars_inj. rewrite !chars_app.
        by rewrite !list_ascii_of_string_of_list_ascii.
      * intros H. apply (f_equal list_ascii_of_string) in H.
        by rewrite list_ascii_of_string_of_list_ascii in H.
      * intros H. apply (f_equal list_ascii_of_string) in H.
        by rewrite list_ascii_of_string_of_list_ascii in H.
    + intros (loc & dom & tld & -> & Hl1 & Hl2 & Hd1 & Hd2 & Ht1 & Ht2).
      exists (list_ascii_of_string loc), (list_ascii_of_string dom),
        (list_ascii_of_string tld).
      rewrite <- (string_of_list_ascii_of_string tld),
        length_string_of_list_ascii in Ht1.
      split_and!; try done.
      * by rewrite !chars_app.
      * intros H. apply Hl1. apply chars_inj. by rewrite H.
      * intros H. apply Hd1. apply chars_inj. by rewrite H.
  - intros (L & D & T & Heq & HL1 & HL2 & HD1 & HD2 & HT1 & HT2).
    assert (Hall : Forall (fun c => SecurityUtils.isLocalChar c = true)
                     (L ++ D ++ T)).
    { rewrite !Forall_app. split_and!; [done| |].
      - eapply Forall_impl; [exact HD2|]. apply isDomainChar_local.
      - eapply Forall_impl; [exact HT2|]. apply isLetter_local. }
    assert (Hplain : Forall (fun c => JS.is_space c = false
                                      /\ SecurityUtils.isMarkup c = false)
                       (list_ascii_of_string email)).
    { rewrite Heq. rewrite !Forall_app in Hall.
      destruct Hall as (H1 & H2 & H3).
      rewrite Forall_app, Forall_cons, Forall_app, Forall_cons.
      split_and!; try done;
        try (eapply Forall_impl; [eassumption|];
             intros c Hc; by destruct (isLocalChar_plain c Hc) as (? & ? & _)). }
    split_and!.
    + unfold occurrences. rewrite Heq.
      assert (Hnone : forall l,
                Forall (fun c => SecurityUtils.isLocalChar c = true) l ->
                List.filter (Ascii.eqb "@") l = []).
      { intros l Hl. apply filter_none. intros c Hc.
        rewrite Forall_forall in Hl.
        apply list_elem_of_In, Hl in Hc.
        by destruct (isLocalChar_plain c Hc) as (_ & _ & ?). }
      rewrite !Forall_app in Hall. destruct Hall as (H1 & H2 & H3).
      rewrite List.filter_app. cbn [List.filter].
      change (Ascii.eqb "@" "@") with true. cbv iota.
      rewrite List.filter_app. cbn [List.filter].
      change (Ascii.eqb "@" ".") with false. cbv iota.
      by rewrite !Hnone.
    + rewrite <- (string_of_list_ascii_of_string email),
        length_string_of_list_ascii, Heq.
      rewrite length_app. cbn [length]. rewrite length_app. cbn [length].
      destruct L; [done|]. destruct D; [done|]. cbn [length]. lia.
    + apply sanitizeInput_fixed.
      * eapply Forall_impl; [exact Hplain|]. by intros c [_ ?].
      * apply trim_no_space.
        eapply Forall_impl; [exact Hplain|]. by intros c [? _].
Qed.

Example validateEmail_accepts :
  SecurityUtils.validateEmail "first.last+tag@mail.example.org" = true.
Proof. vm_compute. reflexivity. Qed.

Example validateEmail_rejects :
  SecurityUtils.validateEmail "first.last@example.c" = false
  /\ SecurityUtils.validateEmail "a@b@example.org" = false.
Proof. vm_compute. done. Qed.

(** * The quota the limiter reports *)

Section Remaining.
Import JS RateLimit.

Variable cfg : option rateLimitConfig.
Variable key : string.

Lemma runCalls_remaining ts : forall (store : gmap string entry) c R,
  store !! key = Some {| count := c; resetTime := R |} ->
  Forall (fun t => t <= R) ts ->
  map remaining (runCalls (AdvancedSecurity.checkRateLimit cfg) key ts store)
  = map (fun j => Some (Z.max 0 (effectiveMaxRequests cfg
                                 - (c + 1 + Z.of_nat j))))
      (seq 0 (length ts)).
Proof.
  induction ts as [|t ts IH]; intros store c R Hs Hts; [done|].
  apply Forall_cons in Hts as [Ht Hts].
  cbn [runCalls length seq map].
  destruct (Z.lt_ge_cases c (effectiveMaxRequests cfg)) as [Hc|Hc].
  - rewrite (checkRateLimit_count cfg key t store c R Hs Ht Hc).
    cbn [map remaining]. f_equal.
    + f_equal. lia.
    + rewrite (IH _ (c + 1) R); [|by rewrite lookup_insert_eq|done].
      rewrite <- seq_shift, map_map. apply map_ext. intros j.
      do 2 f_equal. lia.
  - rewrite (checkRateLimit_reject cfg key t store c R Hs Ht Hc).
    cbn [map remaining]. f_equal.
    + f_equal. lia.
    + rewrite (IH _ c R Hs Hts).
      rewrite <- seq_shift, map_map. apply map_ext. intros j.
      f_equal. lia.
Qed.

Lemma runCalls_no_remaining ts : forall store : gmap string entry,
  Forall (fun r => remaining r = None)
    (runCalls (Security.checkRateLimit cfg) key ts store).
Proof.
  induction ts as [|t ts IH]; intros store; simpl; [constructor|].
  unfold Security.checkRateLimit.
  destruct (store !! key) as [e|]; [|by constructor].
  destruct (t >? resetTime e); [by constructor|].
  destruct (count e >=? _); by constructor.
Qed.

End Remaining.

(** X26.  The quota [AdvancedSecurityMiddleware] reports.  From the first
    request of a window on, request number [j] (counted from 0) made while
    the window lasts reports [remaining = max(0, maxRequests - 1 - j)]: the
    number counts down by one per request, reaches 0 with the last allowed
    request and stays 0 for the rejected ones, so it is never negative for a
    limit of at least 1.  [SecurityMiddleware] reports no [remaining] at
    all.  A configured [maxRequests] or [windowMs] of 0 counts as absent:
    the limit is then 100 requests and the window 60 seconds. *)
Theorem X26_remaining_quota
  (cfg : option RateLimit.rateLimitConfig) (key : string)
  (store : gmap string RateLimit.entry) (t0 : Z) (ts : list Z) :
  let W := RateLimit.effectiveWindowMs cfg in
  let M := RateLimit.effectiveMaxRequests cfg in
  1 <= M ->
  (store !! key = None
   \/ exists e, store !! key = Some e /\ RateLimit.resetTime e < t0) ->
  Forall (fun t => t <= t0 + W) ts ->
  map RateLimit.remaining
    (runCalls (AdvancedSecurity.checkRateLimit cfg) key (t0 :: ts) store)
  = map (fun j => Some (Z.max 0 (M - 1 - Z.of_nat j)))
      (seq 0 (S (length ts)))
  /\ Forall (fun r => RateLimit.remaining r = None)
       (runCalls (Security.checkRateLimit cfg) key (t0 :: ts) store)
  /\ (forall c,
        RateLimit.maxRequests c = Some 0 \/ RateLimit.maxRequests c = None ->
        RateLimit.effectiveMaxRequests (Some c) = 100)
  /\ (forall c,
        RateLimit.windowMs c = Some 0 \/ RateLimit.windowMs c = None ->
        RateLimit.effectiveWindowMs (Some c) = 60000).
Proof.
  intros W M HM Hfresh Hts. split_and!.
  - cbn [runCalls]. rewrite (checkRateLimit_fresh cfg key t0 store Hfresh).
    cbn [map seq RateLimit.remaining]. f_equal.
    + f_equal. fold M. lia.
    + rewrite (runCalls_remaining cfg key ts _ 1 (t0 + W));
        [|by rewrite lookup_insert_eq|done].
      rewrite <- seq_shift, map_map. apply map_ext. intros j.
      fold M. do 2 f_equal. lia.
  - apply runCalls_no_remaining.
  - intros c [H|H]; unfold RateLimit.effectiveMaxRequests; by rewrite H.
  - intros c [H|H]; unfold RateLimit.effectiveWindowMs; by rewrite H.
Qed.

(** Four requests in one window under a limit of 2. *)
Lemma X26_remaining_quota_witness :
  map RateLimit.remaining
    (runCalls
       (AdvancedSecurity.checkRateLimit
          (Some {| RateLimit.windowMs := Some 60000;
                   RateLimit.maxRequests := Some 2 |}))
       "203.0.113.7:/api/login" (1700000000000 :: [1700000000001;
          1700000000002; 1700000000003]) ∅)
  = map (fun j =>
           Some (Z.max 0
                   (RateLimit.effectiveMaxRequests
                      (Some {| RateLimit.windowMs := Some 60000;
                               RateLimit.maxRequests := Some 2 |})
                    - 1 - Z.of_nat j)))
      (seq 0 (S (length [1700000000001; 1700000000002; 1700000000003]))).
Proof.
  refine (proj1 (X26_remaining_quota
    (Some {| RateLimit.windowMs := Some 60000;
             RateLimit.maxRequests := Some 2 |})
    "203.0.113.7:/api/login" ∅ 1700000000000
    [1700000000001; 1700000000002; 1700000000003] _ _ _)).
  - vm_compute. discriminate.
  - left. reflexivity.
  - repeat constructor; vm_compute; discriminate.
Defined.

Example remaining_counts_down :
  map RateLimit.remaining
    (runCalls
       (AdvancedSecurity.checkRateLimit
          (Some {| RateLimit.windowMs := Some 60000;
                   RateLimit.maxRequests := Some 2 |}))
       "203.0.113.7:/api/login" [1700000000000; 1700000000001;
          1700000000002; 1700000000003] ∅)
  = [Some 1; Some 0; Some 0; Some 0].
Proof. vm_compute. reflexivity. Qed.

(** * hashData is an encoding *)

Section HashData.
Import JS SecurityUtils.

Lemma base64_digit_index d :
  0 <= d < 64 ->
  base64_index (base64_digit d) = d
  /\ Ascii.eqb (base64_digit d) "=" = false.
Proof.
  intros Hd. unfold base64_digit.
  assert (d = Z.of_nat (Z.to_nat d)) as Hn by lia.
  assert (Z.to_nat d < 64)%nat as Hlt by lia.
  rewrite Hn at 2. generalize dependent (Z.to_nat d). intros n _ Hlt.
  do 64 (destruct n as [|n]; [split; reflexivity|]). lia.
Qed.

Lemma fromBase64_toBase64 (buf : list Z) :
  Forall is_byte buf -> fromBase64 (toBase64 buf) = buf.
Proof.
  remember (length buf) as n eqn:Hn. revert buf Hn.
  induction n as [n IH] using lt_wf_ind. intros buf Hn Hb.
  destruct buf as [|a [|b [|c rest]]]; [done| | |].
  - apply Forall_cons in Hb as [Ha _]. unfold is_byte in Ha.
    cbn [toBase64 fromBase64]. change (Ascii.eqb "=" "=") with true.
    cbv iota.
    destruct (base64_digit_index (a / 4)) as [-> _];
      [split; [apply Z.div_pos; lia|apply Z.div_lt_upper_bound; lia]|].
    destruct (base64_digit_index (a mod 4 * 16)) as [-> _];
      [pose proof (Z.mod_pos_bound a 4); lia|].
    f_equal. pose proof (Z.div_mod a 4). 
    assert (a mod 4 * 16 / 16 = a mod 4) as -> by (apply Z.div_mul; lia).
    lia.
  - apply Forall_cons in Hb as [Ha Hb]. apply Forall_cons in Hb as [Hb _].
    unfold is_byte in *.
    cbn [toBase64 fromBase64]. change (Ascii.eqb "=" "=") with true.
    pose proof (Z.mod_pos_bound a 4). pose proof (Z.mod_pos_bound b 16).
    assert (0 <= a / 4 < 64)
      by (split; [apply Z.div_pos; lia|apply Z.div_lt_upper_bound; lia]).
    assert (0 <= b / 16 < 16)
      by (split; [apply Z.div_pos; lia|apply Z.div_lt_upper_bound; lia]).
    destruct (base64_digit_index (a / 4)) as [-> _]; [lia|].
    destruct (base64_digit_index (a mod 4 * 16 + b / 16)) as [-> _]; [lia|].
    destruct (base64_digit_index (b mod 16 * 4)) as [-> ->]; [lia|].
    cbv iota.
    assert ((a mod 4 * 16 + b / 16) / 16 = a mod 4) as ->
      by (symmetry; apply (Z.div_unique _ 16 _ (b / 16)); lia).
    assert ((a mod 4 * 16 + b / 16) mod 16 = b / 16) as ->
      by (symmetry; apply (Z.mod_unique _ 16 (a mod 4)); lia).
    assert (b mod 16 * 4 / 4 = b mod 16) as -> by (apply Z.div_mul; lia).
    pose proof (Z.div_mod a 4). pose proof (Z.div_mod b 16).
    f_equal; [lia|]. f_equal. lia.
  - apply Forall_cons in Hb as [Ha Hb]. apply Forall_cons in Hb as [Hb Hc].
    apply Forall_cons in Hc as [Hc Hrest]. unfold is_byte in *.
    cbn [toBase64 app fromBase64].
    pose proof (Z.mod_pos_bound a 4). pose proof (Z.mod_pos_bound b 16).
    pose proof (Z.mod_pos_bound c 64).
    assert (0 <= a / 4 < 64)
      by (split; [apply Z.div_pos; lia|apply Z.div_lt_upper_bound; lia]).
    assert (0 <= b / 16 < 16)
      by (split; [apply Z.div_pos; lia|apply Z.div_lt_upper_bound; lia]).
    assert (0 <= c / 64 < 4)
      by (split; [apply Z.div_pos; lia|apply Z.div_lt_upper_bound; lia]).
    destruct (base64_digit_index (a / 4)) as [-> _]; [lia|].
    destruct (base64_digit_index (a mod 4 * 16 + b / 16)) as [-> _]; [lia|].
    destruct (base64_digit_index (b mod 16 * 4 + c / 64)) as [-> ->]; [lia|].
    destruct (base64_digit_index (c mod 64)) as [-> ->]; [lia|].
    cbv iota.
    assert ((a mod 4 * 16 + b / 16) / 16 = a mod 4) as ->
      by (symmetry; apply (Z.div_unique _ 16 _ (b / 16)); lia).
    assert ((a mod 4 * 16 + b / 16) mod 16 = b / 16) as ->
      by (symmetry; apply (Z.mod_unique _ 16 (a mod 4)); lia).
    assert ((b mod 16 * 4 + c / 64) / 4 = b mod 16) as ->
      by (symmetry; apply (Z.div_unique _ 4 _ (c / 64)); lia).
    assert ((b mod 16 * 4 + c / 64) mod 4 = c / 64) as ->
      by (symmetry; apply (Z.mod_unique _ 4 (b mod 16)); lia).
    pose proof (Z.div_mod a 4). pose proof (Z.div_mod b 16).
    pose proof (Z.div_mod c 64).
    rewrite (IH (length rest)); [|simpl in Hn; lia|done|done].
    cbn [app]. f_equal; [lia|]. f_equal; [lia|]. f_equal. lia.
Qed.

Lemma utf8_ascii data :
  allChars isAscii data ->
  utf8 data = map (fun c => Z.of_nat (nat_of_ascii c))
                (list_ascii_of_string data)
  /\ Forall is_byte (utf8 data).
Proof.
  unfold allChars, utf8.
  induction 1 as [|c l Hc _ [IH1 IH2]]; simpl; [done|].
  unfold isAscii in Hc. apply Nat.ltb_lt in Hc.
  replace (Z.of_nat (nat_of_ascii c) <? 128) with true
    by (symmetry; apply Z.ltb_lt; lia).
  simpl. rewrite IH1. split; [done|]. constructor; [|by rewrite <- IH1].
  unfold is_byte. lia.
Qed.

End HashData.

(** X27.  [SecurityUtils.hashData] is an encoding, not a digest: for every
    ASCII text the Base64 text it returns can be read back to the text
    itself, so two different texts never have the same hash and whoever
    holds the hash holds the data; and the hash has 4 characters for every
    3 characters of the text, rounded up. *)
Theorem X27_hashData_reversible (data data' : string) :
  allChars isAscii data -> allChars isAscii data' ->
  readHash (SecurityUtils.hashData data) = data
  /\ (SecurityUtils.hashData data = SecurityUtils.hashData data' ->
      data = data')
  /\ Z.of_nat (String.length (SecurityUtils.hashData data))
     = 4 * ((Z.of_nat (String.length data) + 2) / 3).
Proof.
  intros Hd Hd'.
  assert (Hread : forall s, allChars isAscii s ->
                            readHash (SecurityUtils.hashData s) = s).
  { intros s Hs. destruct (utf8_ascii s Hs) as [Hu Hb].
    unfold readHash, SecurityUtils.hashData.
    rewrite list_ascii_of_string_of_list_ascii, fromBase64_toBase64 by done.
    rewrite Hu, map_map.
    rewrite <- (string_of_list_ascii_of_string s) at 2. f_equal.
    rewrite <- (map_id (list_ascii_of_string s)) at 2.
    apply map_ext. intros c. by rewrite Nat2Z.id, ascii_nat_embedding. }
  split_and!.
  - by apply Hread.
  - intros He. rewrite <- (Hread data Hd), <- (Hread data' Hd').
    by rewrite He.
  - destruct (utf8_ascii data Hd) as [Hu _].
    unfold SecurityUtils.hashData.
    rewrite length_string_of_list_ascii.
    rewrite <- (string_of_list_ascii_of_string data) at 2.
    rewrite length_string_of_list_ascii.
    rewrite <- (length_map (fun c => Z.of_nat (nat_of_ascii c))
                  (list_ascii_of_string data)), <- Hu.
    generalize (SecurityUtils.utf8 data). clear. intros buf.
    remember (length buf) as n eqn:Hn. revert buf Hn.
    induction n as [n IH] using lt_wf_ind. intros buf Hn.
    destruct buf as [|a [|b [|c rest]]]; subst n; [reflexivity ..|].
    cbn [SecurityUtils.toBase64 app length].
    rewrite !Nat2Z.inj_succ, (IH (length rest)); [|simpl; lia|done].
    replace (Z.succ (Z.succ (Z.succ (Z.of_nat (length rest)))) + 2)
      with ((Z.of_nat (length rest) + 2) + 1 * 3) by lia.
    rewrite Z.div_add by lia. lia.
Qed.

(** The hash of an ASCII text, read back. *)
Lemma X27_hashData_reversible_witness :
  readHash (SecurityUtils.hashData "s3cret-value") = "s3cret-value"%string.
Proof.
  refine (proj1 (X27_hashData_reversible "s3cret-value" "" _ _));
    unfold allChars.
  - repeat constructor.
  - constructor.
Defined.

Example hashData_example :
  SecurityUtils.hashData "s3cret-value" = "czNjcmV0LXZhbHVl"%string.
Proof. vm_compute. reflexivity. Qed.

(** * Enrolment and lockout, end to end *)

(** X28.  Enrolment round trip.  After the setup route stored a secret made
    from 20 random bytes, the code [generateCode] gives for that secret at a
    time at least 30 s after the epoch has 6 characters; sent to the verify
    route at that time it is accepted, which switches the row to enabled
    (secret and backup codes as stored by the setup) and sets the marker
    cookie; and [verify2FA] then accepts the same code for the account,
    changing nothing. *)
Theorem X28_enrolment_round_trip
  (raw : list Z) (random : nat -> list Z) (u : TwoFactor.routeUser)
  (tbl : gmap string TwoFactor.row) (cookie : option string) (clock : Z) :
  length raw = 20%nat -> Forall is_byte raw ->
  30000 <= clock -> clock / 30000 + 1 < 2 ^ 64 ->
  let secret := TOTPMore.generateSecret raw in
  let enrolled :=
    {| TwoFactor.secret_key := secret;
       TwoFactor.backup_codes := TOTPMore.generateBackupCodes random 8;
       TwoFactor.is_enabled := true |} in
  let tbl1 := (TwoFactor.setupPOST raw random (Some u) tbl).2 in
  let tbl2 := <[TwoFactor.user_id u := enrolled]> tbl1 in
  exists code,
    TOTP.generateCode clock secret None = Some code
    /\ code = hotp_rfc4226 raw (clock / 30000)
    /\ String.length code = 6%nat
    /\ TwoFactor.verifyPOST clock (Some u) (Some code) tbl1 cookie
       = Some (TwoFactor.Valid200, tbl2, Some "1"%string)
    /\ TwoFactor.verify2FA clock (TwoFactor.user_id u) code tbl2
       = Some ({| TwoFactor.valid := true; TwoFactor.error := None |},
               tbl2, []).
Proof.
  intros Hlen Hb Hclock Hmax secret enrolled tbl1 tbl2.
  assert (0 <= clock / 30000) by (apply Z.div_pos; lia).
  pose proof (base32_roundtrip raw Hb) as Hrt.
  fold (TOTPMore.generateSecret raw) in Hrt. fold secret in Hrt.
  exists (hotp_rfc4226 raw (clock / 30000)).
  destruct (hotp_rfc4226_shape raw (clock / 30000)) as [H6 _].
  assert (Hverify : TOTP.verifyCode clock secret
                      (hotp_rfc4226 raw (clock / 30000)) 1 = Some true).
  { destruct (verifyCode_window clock secret
                (hotp_rfc4226 raw (clock / 30000)) Hclock Hmax)
      as (b & -> & Hiff).
    f_equal. apply Hiff. exists (clock / 30000). rewrite Hrt.
    split; [lia|done]. }
  split_and!.
  - unfold TOTP.generateCode. cbn [JS.num_or]. rewrite counterOf_div.
    rewrite generateCodeForCounter_spec by lia. by rewrite Hrt.
  - done.
  - done.
  - unfold TwoFactor.verifyPOST. rewrite H6. cbn [Nat.eqb negb].
    unfold tbl1, TwoFactor.setupPOST. cbn [snd].
    rewrite lookup_insert_eq. cbn [TwoFactor.secret_key].
    fold secret. rewrite Hverify. done.
  - unfold TwoFactor.verify2FA, tbl2. rewrite lookup_insert_eq.
    cbn [TwoFactor.is_enabled enrolled negb TwoFactor.secret_key].
    rewrite H6. cbn [Nat.eqb andb]. by rewrite Hverify.
Qed.

(** Enrolment with the 20 bytes of the RFC 6238 test key, at 59 s. *)
Lemma X28_enrolment_round_trip_witness :
  exists code,
    TOTP.generateCode 59000
      (TOTPMore.generateSecret
         [49; 50; 51; 52; 53; 54; 55; 56; 57; 48;
          49; 50; 51; 52; 53; 54; 55; 56; 57; 48]) None = Some code
    /\ code = hotp_rfc4226
                [49; 50; 51; 52; 53; 54; 55; 56; 57; 48;
                 49; 50; 51; 52; 53; 54; 55; 56; 57; 48] (59000 / 30000)
    /\ String.length code = 6%nat.
Proof.
  destruct (X28_enrolment_round_trip
    [49; 50; 51; 52; 53; 54; 55; 56; 57; 48;
     49; 50; 51; 52; 53; 54; 55; 56; 57; 48]
    (fun i => [Z.of_nat i; 171; 205; 239])
    {| TwoFactor.user_id := "user-1"; TwoFactor.email := None |}
    ∅ None 59000) as (code & H1 & H2 & H3 & _).
  - reflexivity.
  - unfold is_byte. repeat constructor; lia.
  - lia.
  - vm_compute. reflexivity.
  - exists code. split_and!; assumption.
Defined.

Section LockoutLifecycle.
Import JS EnhancedAuth EnhancedAuthMore.

Lemma ceil_div_minutes_le a : a <= 15 * 60000 -> ceil_div a 60000 <= 15.
Proof.
  intros Ha. unfold ceil_div.
  assert (-15 <= (- a) / 60000) by (apply Z.div_le_lower_bound; lia). lia.
Qed.

End LockoutLifecycle.

(** X29.  The lockout from failure to release.  Once a run of failed
    attempts, the last at [t], has brought an account's count to 5 or more,
    [checkAuth] refuses the signed-in user at every instant from [t] up to
    15 minutes after [t], changing nothing and announcing between 1 and 15
    minutes of waiting; from 15 minutes after [t] on it authenticates the
    user again and deletes the lockout row, so that the next failed attempt
    counts as the first. *)
Theorem X29_lockout_lifecycle
  (orderDesc : list EnhancedAuth.session -> list EnhancedAuth.session)
  (now nowLock nowTerm nowAct : Z) (u : EnhancedAuthMore.authUser)
  (userAgent : option string) (st : EnhancedAuthMore.authState)
  (times : list Z) (t : Z) (ip : string) :
  let userId := EnhancedAuthMore.uid u in
  5 <= attemptsBefore (EnhancedAuthMore.lockouts st) userId
       + Z.of_nat (length times) + 1 ->
  let locked :=
    withLockouts st
      (failures (times ++ [t]) userId ip (EnhancedAuthMore.lockouts st)) in
  let res :=
    EnhancedAuthMore.checkAuth orderDesc now nowLock nowTerm nowAct (Some u)
      userAgent locked in
  (t <= nowLock < t + 15 * 60 * 1000 ->
   res = (EnhancedAuthMore.notAuthenticated
            (Some (EnhancedAuthMore.lockedMessage
                     (t + 15 * 60 * 1000 - nowLock))), locked)
   /\ 1 <= JS.ceil_div (t + 15 * 60 * 1000 - nowLock) 60000 <= 15)
  /\ (t + 15 * 60 * 1000 <= nowLock ->
      EnhancedAuthMore.authenticated res.1 = true
      /\ EnhancedAuthMore.lockouts res.2
         = delete userId (EnhancedAuthMore.lockouts locked)
      /\ forall t' ip',
           (EnhancedAuth.recordFailedAttempt t' t' userId ip'
              (EnhancedAuthMore.lockouts res.2)).1 !! userId
           = Some {| EnhancedAuth.failed_attempts := 1;
                     EnhancedAuth.locked_until := None;
                     EnhancedAuth.ip_address := ip';
                     EnhancedAuth.last_attempt := t' |}).
Proof.
  intros userId Hn locked res.
  assert (Hrow : EnhancedAuthMore.lockouts locked !! userId
    = Some {| EnhancedAuth.failed_attempts :=
                attemptsBefore (EnhancedAuthMore.lockouts st) userId
                + Z.of_nat (length times) + 1;
              EnhancedAuth.locked_until := Some (t + 15 * 60 * 1000);
              EnhancedAuth.ip_address := ip;
              EnhancedAuth.last_attempt := t |}).
  { unfold locked, withLockouts. cbn [EnhancedAuthMore.lockouts].
    rewrite failures_snoc, recordFailedAttempt_row, failures_count.
    replace (5 <=? _) with true by (symmetry; by apply Z.leb_le). done. }
  unfold res, EnhancedAuthMore.checkAuth. fold userId. split.
  - intros [Hfrom Hto].
    rewrite (checkAccountLockout_locked nowLock userId _ _ _ Hrow eq_refl Hto).
    cbn [EnhancedAuth.locked EnhancedAuth.remainingTime]. split.
    + by destruct locked.
    + split; [apply ceil_div_minutes; lia|apply ceil_div_minutes_le; lia].
  - intros Hafter.
    rewrite (checkAccountLockout_expired nowLock userId _ _ _ Hrow eq_refl
               Hafter).
    cbn [EnhancedAuth.locked].
    destruct (EnhancedAuthMore.updateLastActivity _ _ _ _ _)
      as [sessions'' agents'].
    cbn [fst snd EnhancedAuthMore.authenticated EnhancedAuthMore.lockouts].
    split_and!; [done|done|]. intros t' ip'.
    rewrite recordFailedAttempt_row. unfold attemptsBefore.
    by rewrite lookup_delete_eq.
Qed.

(** Five failures, then a check one minute after the last one. *)
Lemma X29_lockout_lifecycle_witness :
  1 <= JS.ceil_div (1700000004000 + 15 * 60 * 1000 - 1700000064000) 60000
    <= 15.
Proof.
  refine (proj2 (proj1 (X29_lockout_lifecycle EnhancedAuth.sortDesc
    1700000064000 1700000064000 1700000064000 1700000064000
    {| EnhancedAuthMore.uid := "user-1";
       EnhancedAuthMore.last_sign_in_at := Some 1700000000000 |}
    None
    {| EnhancedAuthMore.lockouts := ∅;
       EnhancedAuthMore.sessions := six_sessions;
       EnhancedAuthMore.agents := ∅ |}
    [1700000000000; 1700000001000; 1700000002000; 1700000003000]
    1700000004000 "203.0.113.7" _) _)).
  - vm_compute. discriminate.
  - lia.
Defined.

(** X30.  The blacklist step of [middleware].  A request is answered
    [403 Access blocked] exactly when the address read from its headers has
    a blacklist row without expiry or with an expiry after the current
    instant (a row that expires at this very instant no longer blocks), on
    every path and for every method: two requests with the same three
    address headers are blocked alike.  And since a non-empty first
    [x-forwarded-for] entry is the address, a request that names an unlisted
    address there is not blocked, whatever [x-real-ip] and
    [cf-connecting-ip] say. *)
Theorem X30_ip_blacklist
  (now nowSub nowPay : Z) (req : MiddlewareMore.request)
  (w : MiddlewareMore.world) :
  let blockedAnswer r := r = MiddlewareMore.Blocked403 "Access blocked" in
  let ip := MiddlewareMore.requestIp (MiddlewareMore.hdrs req) in
  (blockedAnswer (MiddlewareMore.middleware now nowSub nowPay req w)
   <-> MiddlewareMore.blacklist w !! ip = Some None
       \/ exists expires_at,
            MiddlewareMore.blacklist w !! ip = Some (Some expires_at)
            /\ now < expires_at)
  /\ (forall req' nowSub' nowPay',
        MiddlewareMore.hdrs req' = MiddlewareMore.hdrs req ->
        blockedAnswer (MiddlewareMore.middleware now nowSub' nowPay' req' w)
        <-> blockedAnswer (MiddlewareMore.middleware now nowSub nowPay req w))
  /\ (forall forwarded,
        ClientIP.x_forwarded_for (MiddlewareMore.hdrs req) = Some forwarded ->
        JSString.firstEntry forwarded <> ""%string ->
        MiddlewareMore.blacklist w !! JSString.firstEntry forwarded = None ->
        ~ blockedAnswer (MiddlewareMore.middleware now nowSub nowPay req w)).
Proof.
  intros blockedAnswer ip.
  assert (Hiff : forall r s p,
            blockedAnswer (MiddlewareMore.middleware now s p r w)
            <-> MiddlewareMore.isBlocked now w (MiddlewareMore.hdrs r) = true).
  { intros r s p. unfold blockedAnswer, MiddlewareMore.middleware.
    destruct (MiddlewareMore.isBlocked _ _ _); [done|].
    split; [|done].
    destruct (_ && _); [done|].
    destruct (Middleware.twoFactorEnforcement _ _ _ _); [|done].
    destruct (String.eqb _ _).
    - unfold MiddlewareMore.checkoutSuccess. repeat (case_match; try done).
    - destruct (Middleware.startsWith _ "/vault/"); [|done].
      unfold MiddlewareMore.vaultGate. repeat (case_match; try done). }
  assert (Hblocked :
            MiddlewareMore.isBlocked now w (MiddlewareMore.hdrs req) = true
            <-> MiddlewareMore.blacklist w !! ip = Some None
                \/ exists expires_at,
                     MiddlewareMore.blacklist w !! ip = Some (Some expires_at)
                     /\ now < expires_at).
  { unfold MiddlewareMore.isBlocked. fold ip.
    destruct (MiddlewareMore.blacklist w !! ip) as [[e|]|].
    - rewrite Z.ltb_lt. split.
      + intros He. right. by exists e.
      + intros [?|(e' & [= <-] & ?)]; done.
    - split; [by left|done].
    - split; [done|]. intros [?|(? & ? & _)]; done. }
  split_and!.
  - by rewrite Hiff.
  - intros req' nowSub' nowPay' Hh. rewrite !Hiff. by rewrite Hh.
  - intros forwarded Hf Hne Hnone. rewrite Hiff, Hblocked.
    assert (ip = JSString.firstEntry forwarded) as ->.
    { unfold ip, MiddlewareMore.requestIp. rewrite Hf.
      unfold JSString.or_else at 2.
      rewrite (proj2 (truthy_Some _) Hne).
      unfold JSString.or_else. by rewrite (proj2 (truthy_Some _) Hne). }
    rewrite Hnone. intros [?|(? & ? & _)]; done.
Qed.
